(** * ASHRAE chiller plant analyzer: the computational core of
      [chiller_plant_analyzer.py], embedded over IEEE-754 binary64.

    The script reads scalar inputs from form widgets and evaluates closed-form
    formulas on Python [float]s.  Python floats are binary64 numbers with
    round-to-nearest-even arithmetic, which is exactly what Rocq's primitive
    floats are, so every formula below is the source expression, operator for
    operator.  The one place where Python differs from bare IEEE arithmetic is
    true division: [a / b] raises [ZeroDivisionError] when [b == 0.0] instead of
    producing an infinity or a NaN. *)

From Stdlib Require Import ZArith Bool List Lia Floats.
Import ListNotations.

#[local] Set Warnings "-inexact-float".

Local Open Scope float_scope.

(** ** The Python runtime the script relies on *)

Module Py.

(** The only exception the arithmetic of the script can raise. *)
Inductive exn : Set := ZeroDivisionError.

Inductive result (A : Type) : Type :=
| Ok (a : A)
| Raise (e : exn).
Arguments Ok {A} a.
Arguments Raise {A} e.

Definition bind {A B : Type} (m : result A) (k : A -> result B) : result B :=
  match m with
  | Ok a => k a
  | Raise e => Raise e
  end.

Definition raises {A : Type} (m : result A) : bool :=
  match m with
  | Ok _ => false
  | Raise _ => true
  end.

(** [a / b] on floats ([float_div] in CPython): the divisor is compared with
    [0.0] first, so both signed zeros raise and a NaN divisor does not. *)
Definition truediv (a b : float) : result float :=
  if b =? 0 then Raise ZeroDivisionError else Ok (a / b).

(** [float(n)] for an integer [n]: the nearest binary64 number. *)
Definition of_int (n : Z) : float :=
  SF2Prim (binary_normalize prec emax n 0 false).

(** Nearest integer to [n / d] for [d > 0], ties going to the even one. *)
Definition div_half_even (n d : Z) : Z :=
  let q := (n / d)%Z in
  match (2 * (n mod d) ?= d)%Z with
  | Lt => q
  | Gt => (q + 1)%Z
  | Eq => if Z.even q then q else (q + 1)%Z
  end.

(** The binary64 number nearest to [(-1)^s * n / d], as [strtod] returns it
    for the decimal string [n / d]. *)
Definition nearest_float (s : bool) (n : Z) (d : positive) : float :=
  match n with
  | Zpos p => SF2Prim (SFdiv prec emax (S754_finite s p 0) (S754_finite false d 0))
  | _ => if s then (-0) else 0
  end.

(** [round(x, ndigits)] on a float, [ndigits >= 0] ([float.__round__]):
    zeros, infinities and NaN round to themselves; a finite [x] is converted
    to the decimal with [ndigits] fractional digits nearest to its exact value
    (ties to even), and that decimal is read back as a float. *)
Definition round (x : float) (ndigits : N) : float :=
  match Prim2SF x with
  | S754_finite s m e =>
      let p := (10 ^ Z.of_N ndigits)%Z in
      let n := match e with
               | Zneg k => div_half_even (Zpos m * p) (2 ^ Zpos k)
               | _ => (Zpos m * 2 ^ e * p)%Z
               end in
      nearest_float s n (Z.to_pos p)
  | _ => x
  end.

(** The builtin [sum] over floats.  Up to CPython 3.11 it adds the items from
    left to right; from 3.12 on it carries a Neumaier compensation term that
    is added at the end.  Both start from the integer [0], to which the first
    item is added with an ordinary float addition. *)
Inductive summation : Set := Sequential | Compensated.

Definition neumaier_step (acc : float * float) (x : float) : float * float :=
  let '(f, c) := acc in
  let t := f + x in
  (t, if abs x <=? abs f then c + ((f - t) + x) else c + ((x - t) + f)).

Definition sum (alg : summation) (xs : list float) : float :=
  match alg with
  | Sequential => fold_left add xs 0
  | Compensated =>
      match xs with
      | [] => 0
      | x :: rest =>
          let '(f, c) := fold_left neumaier_step rest (0 + x, 0) in
          if negb (c =? 0) && is_finite c then f + c else f
      end
  end.

End Py.

Notation "x <- m ;; k" := (Py.bind m (fun x => k))
  (at level 61, m at next level, right associativity).
Notation "a /? b" := (Py.truediv a b) (at level 40, left associativity).
Abbreviation Ok := Py.Ok.
Abbreviation Raise := Py.Raise.
Abbreviation ZeroDivisionError := Py.ZeroDivisionError.

(** ** The script *)

(** [unit_system = st.sidebar.radio("Select Unit System", ["SI", "I-P"])] *)
Inductive unit_system : Set := SI | IP.

(** *** Chiller performance (source lines 17-24) *)

Record chiller : Set := { cop : float; eer : float; kw_per_ton : float }.

Definition chiller_performance (u : unit_system)
    (cooling_capacity power_input : float) : Py.result chiller :=
  match u with
  | IP =>
      kw_per_ton <- power_input /? cooling_capacity ;;
      eer <- (cooling_capacity * 12000) /? (power_input * 1000) ;;
      cop <- eer /? 3.412 ;;
      Ok {| cop := cop; eer := eer; kw_per_ton := kw_per_ton |}
  | SI =>
      cop <- cooling_capacity /? power_input ;;
      let eer := cop * 3.412 in
      kw_per_ton <- 3.5 /? cop ;;
      Ok {| cop := cop; eer := eer; kw_per_ton := kw_per_ton |}
  end.

(** *** Chilled water pump (source lines 34-37) *)

Record pump : Set := { hydraulic_power : float; efficiency : float }.

Definition density (u : unit_system) : float :=
  match u with SI => 1000 | IP => 62.4 * 1.3558 end.

Definition g (u : unit_system) : float :=
  match u with SI => 9.81 | IP => 32.174 end.

Definition pump_performance (u : unit_system)
    (flow head pump_power : float) : Py.result pump :=
  hydraulic_power <- (flow * head * density u * g u) /? 1000 ;;
  ratio <- hydraulic_power /? pump_power ;;
  Ok {| hydraulic_power := hydraulic_power; efficiency := ratio * 100 |}.

(** *** Cooling tower (source lines 46-48) *)

Record tower : Set := { range : float; approach : float; effectiveness : float }.

Definition cooling_tower (cw_in cw_out wet_bulb : float) : Py.result tower :=
  let range := cw_in - cw_out in
  let approach := cw_out - wet_bulb in
  effectiveness <- range /? (range + approach) ;;
  Ok {| range := range; approach := approach; effectiveness := effectiveness |}.

(** The percentage the script shows and exports: [effectiveness * 100]. *)
Definition effectiveness_percent (t : tower) : float := effectiveness t * 100.

(** *** IPLV / NPLV (source lines 58-60) *)

Definition weights : list float := [0.01; 0.42; 0.45; 0.12].

(** The generator [w / e for w, e in zip(weights, values)], consumed in order:
    the first failing division ends the iteration. *)
Fixpoint ratios (pairs : list (float * float)) : Py.result (list float) :=
  match pairs with
  | [] => Ok []
  | (w, e) :: rest =>
      t <- w /? e ;;
      ts <- ratios rest ;;
      Ok (t :: ts)
  end.

Section Iplv.
Variable alg : Py.summation.

Definition calc_iplv (values : list float) : Py.result float :=
  ts <- ratios (combine weights values) ;;
  r <- 1 /? Py.sum alg ts ;;
  Ok (Py.round r 3).
End Iplv.

(** *** Chilled water flow (source lines 69-72) *)

Definition cp : float := 4.187.
Definition density_si : float := 997.

Definition flow_rate (capacity_kw delta_T : float) : Py.result float :=
  capacity_kw /? (cp * density_si * delta_T).

(** *** COP against load (source lines 76-77) *)

Definition loads : list Z := [25; 50; 75; 100]%Z.

(** [l / 100] divides two small integers; the quotient is the float division
    of their exact conversions and the divisor is the literal [100]. *)
Definition cop_at_load (cop : float) (l : Z) : float :=
  cop * (1 - 0.1 * (1 - Py.of_int l / 100)).

Definition cop_curve (cop : float) (loadPercents : list Z) : list float :=
  map (cop_at_load cop) loadPercents.

Definition cop_values (cop : float) : list float := cop_curve cop loads.

(** *** One pass of the script, from the widget values to the CSV row

    The script runs top to bottom; an exception in one section ends the pass,
    so the sections after it are not evaluated and no CSV row is built. *)

Record inputs : Set := {
  in_unit_system : unit_system;
  cooling_capacity : float;
  power_input : float;
  flow : float;
  head : float;
  pump_power : float;
  cw_in : float;
  cw_out : float;
  wet_bulb : float;
  kw_100 : float;
  kw_75 : float;
  kw_50 : float;
  kw_25 : float;
  capacity_kw : float;
  delta_T : float
}.

(** The numbers the [st.success] and [st.info] banners show (source lines 26,
    38, 49, 63 and 72); the range and the approach are shown as they are. *)
Record banners : Set := {
  shown_cop : float;
  shown_eer : float;
  shown_kw_per_ton : float;
  shown_pump_efficiency : float;
  shown_range : float;
  shown_approach : float;
  shown_effectiveness : float;
  shown_iplv : float;
  shown_flow_rate : float
}.

(** The dictionary [data] behind the CSV export (source lines 87-100), one
    field per column, in column order. *)
Record data : Set := {
  Cooling_Capacity : float;
  Power_Input : float;
  COP : float;
  EER : float;
  kW_per_Ton : float;
  Pump_Efficiency : float;
  Tower_Range : float;
  Tower_Approach : float;
  Tower_Effectiveness : float;
  IPLV_NPLV : float;
  Chilled_Water_dT : float;
  Flow_Rate : float
}.

Record page : Set := {
  page_banners : banners;
  page_chart : list (Z * float);
  page_data : data
}.

Section Script.
Variable alg : Py.summation.

Definition run (i : inputs) : Py.result page :=
  ch <- chiller_performance (in_unit_system i) (cooling_capacity i) (power_input i) ;;
  pu <- pump_performance (in_unit_system i) (flow i) (head i) (pump_power i) ;;
  tw <- cooling_tower (cw_in i) (cw_out i) (wet_bulb i) ;;
  iplv <- calc_iplv alg [kw_100 i; kw_75 i; kw_50 i; kw_25 i] ;;
  fr <- flow_rate (capacity_kw i) (delta_T i) ;;
  Ok {| page_banners :=
          {| shown_cop := Py.round (cop ch) 2;
             shown_eer := Py.round (eer ch) 2;
             shown_kw_per_ton := Py.round (kw_per_ton ch) 2;
             shown_pump_efficiency := Py.round (efficiency pu) 2;
             shown_range := range tw;
             shown_approach := approach tw;
             shown_effectiveness := Py.round (effectiveness_percent tw) 2;
             shown_iplv := iplv;
             shown_flow_rate := Py.round fr 3 |};
        page_chart := combine loads (cop_values (cop ch));
        page_data :=
          {| Cooling_Capacity := cooling_capacity i;
             Power_Input := power_input i;
             COP := cop ch;
             EER := eer ch;
             kW_per_Ton := kw_per_ton ch;
             Pump_Efficiency := efficiency pu;
             Tower_Range := range tw;
             Tower_Approach := approach tw;
             Tower_Effectiveness := effectiveness_percent tw;
             IPLV_NPLV := iplv;
             Chilled_Water_dT := delta_T i;
             Flow_Rate := fr |} |}.
End Script.

(** The values the widgets start with. *)
Definition defaults (u : unit_system) : inputs :=
  {| in_unit_system := u;
     cooling_capacity := 100; power_input := 60;
     flow := 0.02; head := 30; pump_power := 6;
     cw_in := 35; cw_out := 30; wet_bulb := 28;
     kw_100 := 0.6; kw_75 := 0.65; kw_50 := 0.72; kw_25 := 0.85;
     capacity_kw := 1000; delta_T := 6 |}.

(** ** Definitions used to reason about binary64 rounding

    [SFmul] rounds the exact product [m * 2^e] of two floats with
    [binary_round_aux].  The definitions below name the parts of that
    computation: how many low bits are dropped, the mantissa that is kept, the
    float that results, and its magnitude as an integer multiple of [2^-1074]
    (an infinity counting as [2^1024]). *)

Definition round_shift (m e : Z) : Z := (fexp prec emax (Zdigits2 m + e) - e)%Z.

Definition rounded (m e : Z) : Z := Py.div_half_even m (2 ^ round_shift m e).

Definition round_result (s : bool) (m1 e1 : Z) : spec_float :=
  if (m1 =? 0)%Z then S754_zero s
  else if (m1 =? 2 ^ 53)%Z then
    if (e1 + 1 <=? 971)%Z then S754_finite s (Z.to_pos (2 ^ 52)) (e1 + 1)
    else S754_infinity s
  else if (e1 <=? 971)%Z then S754_finite s (Z.to_pos m1) e1
  else S754_infinity s.

Definition mag (f : spec_float) : Z :=
  match f with
  | S754_finite _ m e => (Zpos m * 2 ^ (e + 1074))%Z
  | S754_infinity _ => (2 ^ 2098)%Z
  | _ => 0%Z
  end.

Definition sign_is (s : bool) (f : spec_float) : Prop :=
  match f with
  | S754_nan => False
  | S754_zero s' | S754_infinity s' | S754_finite s' _ _ => s' = s
  end.

Definition rvalue (m e : Z) : Z :=
  Z.min (rounded m e * 2 ^ (e + round_shift m e + 1074)) (2 ^ 2098).

Definition sf_is_zero (f : spec_float) : bool :=
  match f with S754_zero _ => true | _ => false end.

Definition sf_is_nan (f : spec_float) : bool :=
  match f with S754_nan => true | _ => false end.

Definition sf_is_finite (f : spec_float) : bool :=
  match f with S754_zero _ | S754_finite _ _ _ => true | _ => false end.

(** [chain R xs]: every element of [xs] is related to the next one. *)
Fixpoint chain (R : float -> float -> bool) (xs : list float) : bool :=
  match xs with
  | x :: (y :: _) as rest => R x y && chain R rest
  | _ => true
  end.

(** [2^2098] units of [2^-1074], that is [2^1024]: the magnitude that stands
    for an infinity; and [2^1074] units, the magnitude of [1.0]. *)
Definition infinity_mag : Z := (2 ^ 2098)%Z.
Definition one_mag : Z := (2 ^ 1074)%Z.

(** [quotient_record n d]: the shift record of the quotient [n / d], that is
    its integer part, whether the remainder reaches one half, and whether it
    lies strictly off [0] and one half. *)
Definition quotient_record (n d : Z) : shr_record :=
  Build_shr_record (n / d) (d <=? 2 * (n mod d))%Z
                   (negb ((n mod d =? 0) || (2 * (n mod d) =? d)))%Z.

(** [RN n d]: the magnitude of the binary64 number nearest to [n / d], both
    counted in units of [2^-1074]; an overflow gives [infinity_mag]. *)
Definition RN (n d : Z) : Z :=
  Z.min (Py.div_half_even n (d * 2 ^ Z.max 0 (Zdigits2 (n / d) - 53))
         * 2 ^ Z.max 0 (Zdigits2 (n / d) - 53))%Z
        infinity_mag.

(** The same for a signed number of units. *)
Definition RNs (z : Z) : Z := if (z <? 0)%Z then (- RN (- z) 1)%Z else RN z 1.

(** The signed value of a float in units of [2^-1074], an infinity counting
    as [infinity_mag] and a NaN as [0]. *)
Definition sval (f : spec_float) : Z :=
  match f with
  | S754_finite s m e => cond_Zopp s (Zpos m * 2 ^ (e + 1074))
  | S754_infinity s => cond_Zopp s infinity_mag
  | _ => 0%Z
  end.

Definition val (x : float) : Z := sval (Prim2SF x).

(** ** Integer rounding *)

Section Rounding.
Local Open Scope Z_scope.

(** *** Division with rounding to nearest, ties to even *)

Lemma div_half_even_exact q d : 0 < d -> Py.div_half_even (q * d) d = q.
Proof.
  intros Hd. unfold Py.div_half_even.
  rewrite Z.mod_mul, Z.div_mul by lia.
  destruct (2 * 0 ?= d) eqn:E; trivial.
  - apply Z.compare_eq in E. lia.
  - apply Z.compare_gt_iff in E. lia.
Qed.

Lemma div_half_even_1 m : Py.div_half_even m 1 = m.
Proof. rewrite <- (Z.mul_1_r m) at 1. apply div_half_even_exact. lia. Qed.

(** The result is the floor of the quotient or the integer above it. *)
Lemma div_half_even_floor n d : 0 < d -> n / d <= Py.div_half_even n d <= n / d + 1.
Proof.
  intros Hd. unfold Py.div_half_even.
  destruct (2 * (n mod d) ?= d); try destruct (Z.even (n / d)); lia.
Qed.

(** Rounding a larger numerator never gives a smaller integer. *)
Lemma div_half_even_mono n n' d :
  0 < d -> n <= n' -> Py.div_half_even n d <= Py.div_half_even n' d.
Proof.
  intros Hd Hn.
  assert (Hq : n / d <= n' / d) by (apply Z.div_le_mono; lia).
  destruct (Z.eq_dec (n / d) (n' / d)) as [E | E].
  - assert (Hr : n mod d <= n' mod d).
    { rewrite (Z.mod_eq n d), (Z.mod_eq n' d) by lia. rewrite E. lia. }
    unfold Py.div_half_even. rewrite <- E.
    destruct (2 * (n mod d) ?= d) eqn:C1; destruct (2 * (n' mod d) ?= d) eqn:C2;
      try destruct (Z.even (n / d)); try lia;
      rewrite ?Z.compare_eq_iff, ?Z.compare_lt_iff, ?Z.compare_gt_iff in *; lia.
  - pose proof (div_half_even_floor n d Hd). pose proof (div_half_even_floor n' d Hd). lia.
Qed.

(** Rounding to nearest errs by at most half a unit. *)
Lemma div_half_even_error n d :
  0 < d -> - d <= 2 * (Py.div_half_even n d * d - n) <= d.
Proof.
  intros Hd. pose proof (Z.mod_pos_bound n d Hd). pose proof (Z.div_mod n d ltac:(lia)).
  unfold Py.div_half_even.
  destruct (Z.compare_spec (2 * (n mod d)) d); try destruct (Z.even (n / d)); nia.
Qed.

(** *** Shifting right is dividing: [shr] keeps the quotient and where the
    remainder lies *)

Lemma iter_pos_iter {A : Type} (f : A -> A) p : forall x, iter_pos f p x = Pos.iter f x p.
Proof.
  induction p as [p IH | p IH |]; intros x; simpl; trivial.
  - rewrite !IH, <- !Pos.iter_swap. reflexivity.
  - rewrite !IH. reflexivity.
Qed.

(** One step drops the low bit, which becomes the round bit; the old round
    bit joins the sticky bit. *)
Lemma shr_1_nonneg m r s :
  0 <= m -> shr_1 (Build_shr_record m r s) = Build_shr_record (m / 2) (Z.odd m) (r || s).
Proof.
  intros Hm. destruct m as [| [p | p |] | p]; try lia; cbn [shr_1 Z.odd].
  - reflexivity.
  - f_equal. change (Zpos p~1) with (2 * Zpos p + 1). apply Z.div_unique with 1; lia.
  - f_equal. change (Zpos p~0) with (2 * Zpos p). apply Z.div_unique with 0; lia.
  - reflexivity.
Qed.

(** The sticky bit after one more step: whether any of the dropped bits but
    the last was set. *)
Lemma sticky_step m p :
  0 <= m -> 0 <= p ->
  Z.odd (m / 2 ^ p) || negb (m mod 2 ^ p =? 0) = negb (m mod 2 ^ (p + 1) =? 0).
Proof.
  intros Hm Hp.
  assert (H2 : 0 < 2 ^ p) by (apply Z.pow_pos_nonneg; lia).
  rewrite Z.pow_add_r, Z.pow_1_r by lia.
  rewrite Z.rem_mul_r by lia.
  pose proof (Z.mod_pos_bound m (2 ^ p) H2) as Hlow.
  rewrite Zodd_mod.
  pose proof (Z.mod_pos_bound (m / 2 ^ p) 2 ltac:(lia)) as Hb.
  destruct (Z.eqb_spec ((m / 2 ^ p) mod 2) 1) as [E | E];
    destruct (Z.eqb_spec (m mod 2 ^ p) 0) as [E0 | E0];
    destruct (Z.eqb_spec (m mod 2 ^ p + 2 ^ p * ((m / 2 ^ p) mod 2)) 0) as [E1 | E1];
    cbn; trivial; nia.
Qed.

(** After [p] steps from an exact mantissa: the quotient by [2^p], the last
    dropped bit, and whether a lower one was set. *)
Lemma shr_iter m p :
  0 <= m ->
  Pos.iter shr_1 (Build_shr_record m false false) p =
  Build_shr_record (m / 2 ^ Zpos p) (Z.odd (m / 2 ^ (Zpos p - 1)))
                   (negb (m mod 2 ^ (Zpos p - 1) =? 0)).
Proof.
  intros Hm. induction p as [| p IH] using Pos.peano_ind.
  - cbn [Pos.iter]. rewrite shr_1_nonneg by trivial.
    change (2 ^ (1 - 1)) with 1. rewrite Z.div_1_r, Z.mod_1_r. reflexivity.
  - rewrite Pos.iter_succ, IH.
    assert (H2 : 0 < 2 ^ Zpos p) by (apply Z.pow_pos_nonneg; lia).
    rewrite shr_1_nonneg by (apply Z.div_pos; lia).
    rewrite Pos2Z.inj_succ.
    replace (Z.succ (Zpos p) - 1) with (Zpos p) by lia.
    f_equal.
    + unfold Z.succ. rewrite Z.pow_add_r, Z.pow_1_r by lia.
      apply Z.div_div; lia.
    + replace (Zpos p) with ((Zpos p - 1) + 1) at 3 by lia.
      apply sticky_step; lia.
Qed.

(** Rounding the shifted record is rounding the quotient by [2^p]. *)
Lemma round_shr m p :
  0 <= m ->
  let mrs := iter_pos shr_1 p (Build_shr_record m false false) in
  round_nearest_even (shr_m mrs) (loc_of_shr_record mrs) = Py.div_half_even m (2 ^ Zpos p).
Proof.
  intros Hm mrs. subst mrs. rewrite iter_pos_iter, shr_iter by trivial.
  set (h := 2 ^ (Zpos p - 1)).
  assert (Hh : 0 < h) by (apply Z.pow_pos_nonneg; lia).
  assert (E2 : 2 ^ Zpos p = h * 2).
  { unfold h. replace (Zpos p) with ((Zpos p - 1) + 1) at 1 by lia.
    rewrite Z.pow_add_r, Z.pow_1_r; lia. }
  unfold Py.div_half_even. rewrite E2, Z.rem_mul_r by lia.
  pose proof (Z.mod_pos_bound m h Hh) as Hlow.
  pose proof (Z.mod_pos_bound (m / h) 2 ltac:(lia)) as Hb.
  rewrite Zodd_mod.
  cbn [shr_m loc_of_shr_record].
  destruct (Z.eqb_spec ((m / h) mod 2) 1) as [E | E];
    destruct (Z.eqb_spec (m mod h) 0) as [E0 | E0]; cbn [negb loc_of_shr_record round_nearest_even].
  - rewrite E, E0. replace (2 * (0 + h * 1)) with (h * 2) by lia.
    rewrite Z.compare_refl. reflexivity.
  - replace (2 * (m mod h + h * ((m / h) mod 2)) ?= h * 2) with Gt; trivial.
    symmetry. apply Z.compare_gt_iff. nia.
  - replace (2 * (m mod h + h * ((m / h) mod 2)) ?= h * 2) with Lt; trivial.
    symmetry. apply Z.compare_lt_iff. nia.
  - replace (2 * (m mod h + h * ((m / h) mod 2)) ?= h * 2) with Lt; trivial.
    symmetry. apply Z.compare_lt_iff. nia.
Qed.

(** The position of a division's remainder [r] against half the divisor. *)
Lemma new_location_cases d r :
  0 < d -> 0 <= r < d ->
  new_location d r =
  if r =? 0 then loc_Exact else loc_Inexact (2 * r ?= d).
Proof.
  intros Hd Hr. unfold new_location.
  destruct (Z.even d) eqn:E.
  - reflexivity.
  - unfold new_location_odd. destruct (r =? 0); trivial.
    assert (Od : Z.odd d = true) by (rewrite <- Z.negb_even, E; reflexivity).
    apply Z.odd_spec in Od as [h Hh].
    destruct (Z.compare_spec (2 * r + 1) d); destruct (Z.compare_spec (2 * r) d);
      trivial; lia.
Qed.

(** The quotient with its remainder's position, rounded to nearest even, is
    [div_half_even]. *)
Lemma round_quotient n d :
  0 < d -> 0 <= n ->
  let mrs := shr_record_of_loc (n / d) (new_location d (n mod d)) in
  round_nearest_even (shr_m mrs) (loc_of_shr_record mrs) = Py.div_half_even n d.
Proof.
  intros Hd Hn mrs. subst mrs.
  pose proof (Z.mod_pos_bound n d Hd) as Hr.
  rewrite new_location_cases by trivial. unfold Py.div_half_even.
  destruct (Z.eqb_spec (n mod d) 0) as [E | E].
  - rewrite E. cbn [shr_record_of_loc shr_m loc_of_shr_record round_nearest_even].
    destruct (Z.compare_spec (2 * 0) d); trivial; lia.
  - destruct (Z.compare_spec (2 * (n mod d)) d); reflexivity.
Qed.

(** The same after one bit of the quotient has been shifted out. *)
Lemma round_quotient_shifted n d :
  0 < d -> 0 <= n ->
  let mrs := shr_1 (shr_record_of_loc (n / d) (new_location d (n mod d))) in
  round_nearest_even (shr_m mrs) (loc_of_shr_record mrs) = Py.div_half_even n (2 * d).
Proof.
  intros Hd Hn mrs. subst mrs.
  pose proof (Z.mod_pos_bound n d Hd) as Hr.
  assert (Hq : 0 <= n / d) by (apply Z.div_pos; lia).
  assert (Eq2 : n / (2 * d) = n / d / 2) by (rewrite (Z.mul_comm 2 d), Z.div_div; lia).
  assert (Er2 : n mod (2 * d) = n mod d + d * ((n / d) mod 2))
    by (rewrite (Z.mul_comm 2 d); apply Z.rem_mul_r; lia).
  pose proof (Z.mod_pos_bound (n / d) 2 ltac:(lia)) as Hb.
  rewrite new_location_cases by trivial. unfold Py.div_half_even.
  rewrite Eq2, Er2.
  assert (Hodd : Z.odd (n / d) = ((n / d) mod 2 =? 1)) by apply Zodd_mod.
  destruct (Z.eqb_spec (n mod d) 0) as [E | E].
  - cbn [shr_record_of_loc]. rewrite shr_1_nonneg by trivial.
    cbn [shr_m loc_of_shr_record orb]. rewrite Hodd, E.
    destruct (Z.eqb_spec ((n / d) mod 2) 1) as [B | B]; cbn [round_nearest_even].
    + rewrite B. replace (2 * (0 + d * 1)) with (2 * d) by lia.
      now rewrite Z.compare_refl.
    + replace ((n / d) mod 2) with 0 by lia.
      destruct (Z.compare_spec (2 * (0 + d * 0)) (2 * d)); trivial; lia.
  - assert (S : forall c, shr_1 (shr_record_of_loc (n / d) (loc_Inexact c)) =
        Build_shr_record (n / d / 2) (Z.odd (n / d)) true).
    { intros c. destruct c; cbn [shr_record_of_loc]; rewrite shr_1_nonneg by trivial;
        reflexivity. }
    rewrite S. cbn [shr_m loc_of_shr_record]. rewrite Hodd.
    destruct (Z.eqb_spec ((n / d) mod 2) 1) as [B | B]; cbn [round_nearest_even].
    + rewrite B. destruct (Z.compare_spec (2 * (n mod d + d * 1)) (2 * d)); trivial; lia.
    + replace ((n / d) mod 2) with 0 by lia.
      destruct (Z.compare_spec (2 * (n mod d + d * 0)) (2 * d)); trivial; lia.
Qed.

(** *** Number of binary digits *)

Lemma pow2_pos n : 0 <= n -> 0 < 2 ^ n.
Proof. intros. apply Z.pow_pos_nonneg; lia. Qed.

Lemma pow2_split a b : 0 <= a -> 0 <= b -> 2 ^ (a + b) = 2 ^ a * 2 ^ b.
Proof. intros. apply Z.pow_add_r; trivial. Qed.

(** The exponent binary64 gives a number of [z] binary digits above the point. *)
Lemma fexp_eq z : fexp prec emax z = Z.max (z - 53) (-1074).
Proof. reflexivity. Qed.

Lemma digits2_bounds p :
  2 ^ (Zpos (digits2_pos p) - 1) <= Zpos p < 2 ^ Zpos (digits2_pos p).
Proof.
  induction p as [p IH | p IH |]; cbn [digits2_pos].
  - rewrite Pos2Z.inj_succ. change (Zpos p~1) with (2 * Zpos p + 1).
    replace (Z.succ (Zpos (digits2_pos p)) - 1) with (Z.succ (Zpos (digits2_pos p) - 1)) by lia.
    rewrite !Z.pow_succ_r by lia.
    destruct IH as [IH1 IH2]. revert IH1 IH2.
    generalize (2 ^ (Zpos (digits2_pos p) - 1)), (2 ^ Zpos (digits2_pos p)). lia.
  - rewrite Pos2Z.inj_succ. change (Zpos p~0) with (2 * Zpos p).
    replace (Z.succ (Zpos (digits2_pos p)) - 1) with (Z.succ (Zpos (digits2_pos p) - 1)) by lia.
    rewrite !Z.pow_succ_r by lia.
    destruct IH as [IH1 IH2]. revert IH1 IH2.
    generalize (2 ^ (Zpos (digits2_pos p) - 1)), (2 ^ Zpos (digits2_pos p)). lia.
  - cbn. lia.
Qed.

Lemma Zdigits2_bounds m :
  0 < m -> 2 ^ (Zdigits2 m - 1) <= m < 2 ^ Zdigits2 m.
Proof. destruct m as [| p | p]; try lia. intros _. apply digits2_bounds. Qed.

Lemma Zdigits2_pos m : 0 < m -> 0 < Zdigits2 m.
Proof. destruct m; cbn; lia. Qed.

(** The digit count is determined by the two powers of two around [m]. *)
Lemma Zdigits2_unique m n :
  2 ^ (n - 1) <= m < 2 ^ n -> 0 < m -> Zdigits2 m = n.
Proof.
  intros [Hlo Hhi] Hm.
  destruct (Zdigits2_bounds m Hm) as [Dlo Dhi].
  pose proof (Zdigits2_pos m Hm) as Hd.
  assert (Hn : 0 < n).
  { destruct (Z.ltb_spec 0 n); trivial.
    rewrite (Z.pow_neg_r 2 (n - 1)) in Hlo by lia.
    destruct (Z.eq_dec n 0) as [-> | ]; [cbn in Hhi; lia |].
    rewrite Z.pow_neg_r in Hhi by lia. lia. }
  destruct (Z.lt_trichotomy (Zdigits2 m) n) as [L | [E | G]]; trivial.
  - assert (2 ^ Zdigits2 m <= 2 ^ (n - 1)) by (apply Z.pow_le_mono_r; lia). lia.
  - assert (2 ^ n <= 2 ^ (Zdigits2 m - 1)) by (apply Z.pow_le_mono_r; lia). lia.
Qed.

Lemma Zdigits2_mono m m' : 0 < m <= m' -> Zdigits2 m <= Zdigits2 m'.
Proof.
  intros [Hm Hle].
  destruct (Zdigits2_bounds m Hm) as [Dlo _].
  destruct (Zdigits2_bounds m' ltac:(lia)) as [_ Dhi].
  destruct (Z.le_gt_cases (Zdigits2 m) (Zdigits2 m')) as [L | G]; trivial.
  assert (2 ^ Zdigits2 m' <= 2 ^ (Zdigits2 m - 1)) by (apply Z.pow_le_mono_r; lia). lia.
Qed.

(** What a valid finite float is: at most 53 digits, exactly 53 unless the
    exponent is the smallest one. *)
Lemma bounded_inv m e :
  bounded prec emax m e = true ->
  let d := Zpos (digits2_pos m) in
  d <= 53 /\ -1074 <= e <= 971 /\ (-1074 < e -> d = 53) /\
  2 ^ (d - 1) <= Zpos m < 2 ^ d.
Proof.
  unfold bounded, canonical_mantissa. rewrite fexp_eq.
  intros H. apply andb_true_iff in H as [H1 H2].
  apply Z.eqb_eq in H1. apply Z.leb_le in H2. change (emax - prec) with 971 in H2.
  pose proof (digits2_bounds m). cbn zeta. repeat split; try lia; tauto.
Qed.

(** *** What [binary_round_aux] returns *)

Lemma shr_fexp_round m e :
  0 < m -> 0 <= round_shift m e ->
  exists mrs, shr_fexp prec emax m e loc_Exact = (mrs, e + round_shift m e) /\ 
    round_nearest_even (shr_m mrs) (loc_of_shr_record mrs) = rounded m e.
Proof.
  intros Hm Hk. unfold shr_fexp, shr, rounded. fold (round_shift m e).
  destruct (round_shift m e) as [| p | p] eqn:E; try lia.
  - rewrite Z.add_0_r. eexists; split; [reflexivity |].
    cbn [shr_record_of_loc shr_m loc_of_shr_record round_nearest_even].
    change (2 ^ 0) with 1. now rewrite div_half_even_1.
  - eexists; split; [reflexivity |]. apply round_shr. lia.
Qed.

(** On an exact mantissa [shr_fexp] is a floor division. *)
Lemma shr_fexp_floor m e :
  0 <= m ->
  shr_m (fst (shr_fexp prec emax m e loc_Exact)) = m / 2 ^ Z.max 0 (round_shift m e) /\
  snd (shr_fexp prec emax m e loc_Exact) = e + Z.max 0 (round_shift m e).
Proof.
  intros Hm. unfold shr_fexp, shr. fold (round_shift m e).
  destruct (round_shift m e) as [| p | p] eqn:E; cbn [fst snd shr_record_of_loc shr_m].
  - change (2 ^ Z.max 0 0) with 1. rewrite Z.div_1_r. cbn. lia.
  - rewrite iter_pos_iter, shr_iter by trivial. cbn [shr_m]. 
    replace (Z.max 0 (Zpos p)) with (Zpos p) by lia. auto.
  - replace (Z.max 0 (Zneg p)) with 0 by lia. change (2 ^ 0) with 1. rewrite Z.div_1_r. lia.
Qed.

(** Bounds on the mantissa after the first rounding. *)
Lemma rounded_bounds m e :
  0 < m -> 0 <= round_shift m e ->
  let m1 := rounded m e in
  let e1 := e + round_shift m e in
  -1074 <= e1 /\ 0 <= m1 <= 2 ^ 53 /\ (-1074 < e1 -> 2 ^ 52 <= m1).
Proof.
  intros Hm Hk m1 e1. subst m1 e1. unfold rounded.
  set (k := round_shift m e) in *.
  set (d := Zdigits2 m).
  assert (Ek : k = Z.max (d + e - 53) (-1074) - e) by reflexivity.
  destruct (Zdigits2_bounds m Hm) as [Dlo Dhi]. fold d in Dlo, Dhi.
  pose proof (Zdigits2_pos m Hm) as Hd. fold d in Hd.
  assert (H2k : 0 < 2 ^ k) by (apply Z.pow_pos_nonneg; lia).
  pose proof (div_half_even_floor m (2 ^ k) H2k) as Hfl.
  assert (0 <= m / 2 ^ k) by (apply Z.div_pos; lia).
  split; [lia |].
  assert (Hup : forall j, 0 <= j -> m <= 2 ^ (j + k) -> Py.div_half_even m (2 ^ k) <= 2 ^ j).
  { intros j Hj Hle. rewrite <- (div_half_even_exact (2 ^ j) (2 ^ k)) by trivial.
    apply div_half_even_mono; trivial. rewrite <- Z.pow_add_r by lia. trivial. }
  assert (Hdn : forall j, 0 <= j -> 2 ^ (j + k) <= m -> 2 ^ j <= Py.div_half_even m (2 ^ k)).
  { intros j Hj Hle. rewrite <- (div_half_even_exact (2 ^ j) (2 ^ k)) at 1 by trivial.
    apply div_half_even_mono; trivial. rewrite <- Z.pow_add_r by lia. trivial. }
  split; [split; [lia |] |].
  - apply Hup; [lia |]. transitivity (2 ^ d); [lia |]. apply Z.pow_le_mono_r; lia.
  - intros He. apply Hdn; [lia |]. replace (52 + k) with (d - 1) by lia. trivial.
Qed.

(** The second half of [binary_round_aux]: renormalising the rounded mantissa
    and detecting overflow. *)
Lemma binary_round_aux_stage2 s m e l mrs e1 m1 :
  shr_fexp prec emax m e l = (mrs, e1) ->
  round_nearest_even (shr_m mrs) (loc_of_shr_record mrs) = m1 ->
  -1074 <= e1 -> 0 <= m1 <= 2 ^ 53 -> (-1074 < e1 -> 2 ^ 52 <= m1) ->
  binary_round_aux prec emax s m e l = round_result s m1 e1.
Proof.
  intros E1 E2 He1 [Hm0 Hm1] Hnorm.
  unfold binary_round_aux. rewrite E1, E2.
  destruct (shr_fexp_floor m1 e1 Hm0) as [F1 F2].
  destruct (shr_fexp prec emax m1 e1 loc_Exact) as [mrs2 e2]. cbn [fst snd] in F1, F2.
  rewrite F1, F2. unfold round_result.
  destruct (Z.eqb_spec m1 0) as [Z0 | NZ].
  - rewrite Z0. rewrite Z.div_0_l; trivial.
    apply Z.pow_nonzero; lia.
  - destruct (Z.eqb_spec m1 (2 ^ 53)) as [T | NT].
    + assert (Es : round_shift m1 e1 = 1).
      { unfold round_shift. rewrite T. change (Zdigits2 (2 ^ 53)) with 54.
        rewrite fexp_eq. lia. }
      rewrite Es, T. change (2 ^ 53 / 2 ^ Z.max 0 1) with (2 ^ 52). reflexivity.
    + assert (Es : round_shift m1 e1 <= 0).
      { unfold round_shift. rewrite fexp_eq.
        destruct (Z.eq_dec e1 (-1074)) as [Ec | Ec].
        - assert (Zdigits2 m1 <= 53); [| lia].
          destruct (Zdigits2_bounds m1 ltac:(lia)) as [Dlo _].
          destruct (Z.le_gt_cases (Zdigits2 m1) 53); trivial.
          assert (2 ^ 53 <= 2 ^ (Zdigits2 m1 - 1)) by (apply Z.pow_le_mono_r; lia).
          lia.
        - rewrite (Zdigits2_unique m1 53); [lia | | lia].
          split; [apply Hnorm; lia | lia]. }
      replace (Z.max 0 (round_shift m1 e1)) with 0 by lia.
      change (2 ^ 0) with 1. rewrite Z.div_1_r, Z.add_0_r.
      destruct m1 as [| p | p]; try lia. reflexivity.
Qed.

(** [binary_round_aux] on an exact product, in closed form. *)
Lemma binary_round_aux_exact s m e :
  0 < m -> 0 <= round_shift m e ->
  binary_round_aux prec emax s m e loc_Exact =
  round_result s (rounded m e) (e + round_shift m e).
Proof.
  intros Hm Hk.
  destruct (rounded_bounds m e Hm Hk) as (He1 & Hb & Hnorm).
  destruct (shr_fexp_round m e Hm Hk) as (mrs & E1 & E2).
  now apply (binary_round_aux_stage2 s m e loc_Exact mrs _ _ E1 E2).
Qed.

(** *** Magnitudes and the order of floats *)

Lemma mag_finite_lt s m e :
  bounded prec emax m e = true -> 0 < mag (S754_finite s m e) < 2 ^ 2098.
Proof.
  intros H. destruct (bounded_inv m e H) as (Hd & He & _ & Hlo & Hhi). cbn [mag].
  pose proof (pow2_pos (e + 1074) ltac:(lia)).
  split; [lia |].
  assert (2 ^ Zpos (digits2_pos m) <= 2 ^ 53) by (apply Z.pow_le_mono_r; lia).
  assert (2 ^ (e + 1074) <= 2 ^ 2045) by (apply Z.pow_le_mono_r; lia).
  replace 2098 with (53 + 2045) by lia. rewrite (pow2_split 53 2045) by lia.
  pose proof (pow2_pos 53 ltac:(lia)). nia.
Qed.

(** On valid non-negative numbers the IEEE comparison is the comparison of
    magnitudes. *)
Lemma SFcompare_mag a b :
  valid_binary a = true -> valid_binary b = true ->
  sign_is false a \/ (exists s, a = S754_zero s) ->
  sign_is false b \/ (exists s, b = S754_zero s) ->
  SFcompare a b = Some (mag a ?= mag b).
Proof.
  intros Va Vb Sa Sb.
  assert (Ha : match a with S754_nan => False | S754_infinity s | S754_finite s _ _ => s = false | _ => True end).
  { destruct Sa as [Sa | [s ->]]; trivial. destruct a; trivial. }
  assert (Hb : match b with S754_nan => False | S754_infinity s | S754_finite s _ _ => s = false | _ => True end).
  { destruct Sb as [Sb | [s ->]]; trivial. destruct b; trivial. }
  clear Sa Sb.
  destruct a as [sa | sa | | sa ma ea]; destruct b as [sb | sb | | sb mb eb];
    try contradiction; subst; cbn [SFcompare valid_binary] in *.
  - reflexivity.
  - reflexivity.
  - pose proof (mag_finite_lt false mb eb Vb) as [H _]. cbn [mag] in *.
    symmetry. f_equal. apply Z.compare_lt_iff. trivial.
  - reflexivity.
  - reflexivity.
  - pose proof (mag_finite_lt false mb eb Vb) as [_ H].
    symmetry. f_equal. apply Z.compare_gt_iff. trivial.
  - pose proof (mag_finite_lt false ma ea Va) as [H _]. cbn [mag] in *.
    symmetry. f_equal. apply Z.compare_gt_iff. trivial.
  - pose proof (mag_finite_lt false ma ea Va) as [_ H].
    symmetry. f_equal. apply Z.compare_lt_iff. trivial.
  - destruct (bounded_inv ma ea Va) as (Hda & Hea & Hna & Hloa & Hhia).
    destruct (bounded_inv mb eb Vb) as (Hdb & Heb & Hnb & Hlob & Hhib).
    cbn [mag]. f_equal.
    assert (Key : forall m1 e1 m2 e2,
      e1 < e2 -> -1074 <= e1 -> Zpos m1 < 2 ^ 53 -> 2 ^ 52 <= Zpos m2 ->
      Zpos m1 * 2 ^ (e1 + 1074) < Zpos m2 * 2 ^ (e2 + 1074)).
    { intros m1 e1 m2 e2 He He1 H1 H2.
      replace (e2 + 1074) with ((e1 + 1074) + (e2 - e1)) by lia.
      rewrite (pow2_split (e1 + 1074) (e2 - e1)) by lia.
      pose proof (pow2_pos (e1 + 1074) ltac:(lia)).
      assert (2 ^ 1 <= 2 ^ (e2 - e1)) by (apply Z.pow_le_mono_r; lia).
      change (2 ^ 1) with 2 in *. change (2 ^ 53) with (2 * 2 ^ 52) in H1.
      revert H H0 H1 H2.
      generalize (2 ^ (e1 + 1074)), (2 ^ (e2 - e1)), (2 ^ 52).
      intros P Q T HP HQ Ha Hb.
      apply Z.lt_le_trans with (Zpos m2 * 2 * P); [nia |].
      rewrite <- Z.mul_assoc. apply Z.mul_le_mono_nonneg_l; nia. }
    assert (U : forall m, Zpos (digits2_pos m) <= 53 -> Zpos m < 2 ^ Zpos (digits2_pos m) -> Zpos m < 2 ^ 53).
    { intros m Hd Hm. assert (2 ^ Zpos (digits2_pos m) <= 2 ^ 53) by (apply Z.pow_le_mono_r; lia). lia. }
    destruct (Z.compare_spec ea eb) as [E | L | G].
    + subst eb. change (Pos.compare_cont Eq ma mb) with (Zpos ma ?= Zpos mb).
      pose proof (pow2_pos (ea + 1074) ltac:(lia)).
      rewrite <- Zmult_compare_compat_r by lia. reflexivity.
    + symmetry. apply Z.compare_lt_iff. apply Key; try lia; auto.
      rewrite Hnb in Hlob by lia. trivial.
    + symmetry. apply Z.compare_gt_iff. apply Key; try lia; auto.
      rewrite Hna in Hloa by lia. trivial.
Qed.

Lemma sign_round_result s m1 e1 : sign_is s (round_result s m1 e1).
Proof.
  unfold round_result.
  destruct (m1 =? 0); [reflexivity |].
  destruct (m1 =? 2 ^ 53); [destruct (e1 + 1 <=? 971) | destruct (e1 <=? 971)]; reflexivity.
Qed.

(** The magnitude of the rounded float: the rounded mantissa at its exponent,
    capped at infinity. *)
Lemma mag_round_result s m1 e1 :
  -1074 <= e1 -> 0 <= m1 <= 2 ^ 53 -> (-1074 < e1 -> 2 ^ 52 <= m1) ->
  mag (round_result s m1 e1) = Z.min (m1 * 2 ^ (e1 + 1074)) (2 ^ 2098).
Proof.
  intros He [Hm0 Hm1] Hn. unfold round_result.
  pose proof (pow2_pos (e1 + 1074) ltac:(lia)) as HP.
  assert (Hcap : forall j, 2 ^ 2098 = 2 ^ j * 2 ^ (2098 - j) \/ j < 0 \/ 2098 < j).
  { intros j. destruct (Z.lt_ge_cases j 0); [lia |]. destruct (Z.lt_ge_cases 2098 j); [lia |].
    left. rewrite <- pow2_split by lia. f_equal. lia. }
  destruct (Z.eqb_spec m1 0) as [-> | NZ]; [cbn [mag]; pose proof (pow2_pos 2098); lia |].
  destruct (Z.eqb_spec m1 (2 ^ 53)) as [-> | NT].
  - destruct (Z.leb_spec (e1 + 1) 971) as [L | G].
    + cbn [mag]. change (Zpos (Z.to_pos (2 ^ 52))) with (2 ^ 52).
      replace (e1 + 1 + 1074) with (1 + (e1 + 1074)) by lia.
      rewrite (pow2_split 1 (e1 + 1074)) by lia.
      change (2 ^ 52 * (2 ^ 1 * 2 ^ (e1 + 1074))) with (2 ^ 52 * (2 * 2 ^ (e1 + 1074))).
      replace (2 ^ 52 * (2 * 2 ^ (e1 + 1074))) with (2 ^ 53 * 2 ^ (e1 + 1074))
        by (change (2 ^ 53) with (2 ^ 52 * 2); ring).
      rewrite Z.min_l; trivial.
      change 2098 with (53 + 2045). rewrite (pow2_split 53 2045) by lia.
      apply Z.mul_le_mono_nonneg_l; [apply Z.pow_nonneg; lia |].
      apply Z.pow_le_mono_r; lia.
    + cbn [mag]. rewrite Z.min_r; trivial.
      change 2098 with (53 + 2045). rewrite (pow2_split 53 2045) by lia.
      apply Z.mul_le_mono_nonneg_l; [apply Z.pow_nonneg; lia |].
      apply Z.pow_le_mono_r; lia.
  - destruct (Z.leb_spec e1 971) as [L | G].
    + cbn [mag]. rewrite Z2Pos.id by lia. rewrite Z.min_l; trivial.
      change 2098 with (53 + 2045). rewrite (pow2_split 53 2045) by lia.
      assert (2 ^ (e1 + 1074) <= 2 ^ 2045) by (apply Z.pow_le_mono_r; lia).
      apply Z.mul_le_mono_nonneg; lia.
    + cbn [mag]. rewrite Z.min_r; trivial.
      change 2098 with (52 + 2046). rewrite (pow2_split 52 2046) by lia.
      assert (2 ^ 2046 <= 2 ^ (e1 + 1074)) by (apply Z.pow_le_mono_r; lia).
      pose proof (pow2_pos 52 ltac:(lia)). pose proof (pow2_pos 2046 ltac:(lia)).
      apply Z.mul_le_mono_nonneg; lia.
Qed.

Lemma mag_round s m e :
  0 < m -> 0 <= round_shift m e ->
  mag (binary_round_aux prec emax s m e loc_Exact) = rvalue m e /\
  sign_is s (binary_round_aux prec emax s m e loc_Exact).
Proof.
  intros Hm Hk. rewrite binary_round_aux_exact by trivial.
  destruct (rounded_bounds m e Hm Hk) as (He1 & Hb & Hnorm).
  split; [| apply sign_round_result].
  apply mag_round_result; trivial.
Qed.

(** *** Rounding is monotone *)

Lemma round_shift_mono m m' e :
  0 < m <= m' -> round_shift m e <= round_shift m' e.
Proof.
  intros H. unfold round_shift. rewrite !fexp_eq.
  pose proof (Zdigits2_mono m m' H). lia.
Qed.

(** Scaling two mantissas to a common exponent: [a * 2^k <= b * 2^k'] with
    [k <= k'] is what [a * 2^(k + t) <= b * 2^(k' + t)] means. *)
Lemma scaled_le a b k k' t :
  0 <= k <= k' -> 0 <= k + t ->
  a * 2 ^ k <= b * 2 ^ k' -> a * 2 ^ (k + t) <= b * 2 ^ (k' + t).
Proof.
  intros Hk Ht H.
  replace (k' + t) with ((k' - k) + (k + t)) by lia.
  rewrite (pow2_split (k' - k) (k + t)) by lia.
  replace k' with ((k' - k) + k) in H by lia.
  rewrite (pow2_split (k' - k) k) in H by lia.
  pose proof (pow2_pos k ltac:(lia)) as Pk.
  pose proof (pow2_pos (k + t) ltac:(lia)) as Pt.
  rewrite Z.mul_assoc in *.
  apply Z.mul_le_mono_pos_r in H; trivial.
  apply Z.mul_le_mono_nonneg_r; lia.
Qed.

Lemma scaled_lt a b k k' t :
  0 <= k <= k' -> 0 <= k + t ->
  a * 2 ^ k < b * 2 ^ k' -> a * 2 ^ (k + t) < b * 2 ^ (k' + t).
Proof.
  intros Hk Ht H.
  replace (k' + t) with ((k' - k) + (k + t)) by lia.
  rewrite (pow2_split (k' - k) (k + t)) by lia.
  replace k' with ((k' - k) + k) in H by lia.
  rewrite (pow2_split (k' - k) k) in H by lia.
  pose proof (pow2_pos k ltac:(lia)) as Pk.
  pose proof (pow2_pos (k + t) ltac:(lia)) as Pt.
  rewrite Z.mul_assoc in *.
  apply Z.mul_lt_mono_pos_r in H; trivial.
  apply Z.mul_lt_mono_pos_r; lia.
Qed.

(** Rounding to nearest is monotone: a larger exact product never rounds to a
    smaller float. *)
Lemma rvalue_mono m m' e :
  0 < m <= m' -> 0 <= round_shift m e -> rvalue m e <= rvalue m' e.
Proof.
  intros [Hm Hle] Hk. unfold rvalue. apply Z.min_le_compat_r.
  pose proof (round_shift_mono m m' e ltac:(lia)) as Hkk.
  unfold rounded.
  set (k := round_shift m e) in *. set (k' := round_shift m' e) in *.
  assert (Hfx : -1074 <= e + k) by (unfold k, round_shift; rewrite fexp_eq; lia).
  replace (e + k + 1074) with (k + (e + 1074)) by lia.
  replace (e + k' + 1074) with (k' + (e + 1074)) by lia.
  apply scaled_le; [lia | lia |].
  pose proof (pow2_pos k ltac:(lia)) as Pk. pose proof (pow2_pos k' ltac:(lia)) as Pk'.
  destruct (Z.eq_dec k k') as [E | NE].
  - rewrite <- E. apply Z.mul_le_mono_nonneg_r; [lia |].
    apply div_half_even_mono; trivial.
  - (* the smaller number has fewer digits; [2^(d'-1)] lies between the two
       and is representable at both precisions *)
    set (d' := Zdigits2 m').
    assert (Ek : k = Z.max (Zdigits2 m + e - 53) (-1074) - e) by reflexivity.
    assert (Ek' : k' = Z.max (d' + e - 53) (-1074) - e) by reflexivity.
    pose proof (Zdigits2_mono m m' ltac:(lia)) as Hdd. fold d' in Hdd.
    destruct (Zdigits2_bounds m Hm) as [_ Dhi].
    destruct (Zdigits2_bounds m' ltac:(lia)) as [Dlo' _]. fold d' in Dlo'.
    assert (Hd : Zdigits2 m < d') by lia.
    assert (Hk' : k' = d' - 53) by lia.
    assert (Hp : 2 ^ Zdigits2 m <= 2 ^ (d' - 1)) by (apply Z.pow_le_mono_r; lia).
    transitivity (2 ^ (d' - 1)).
    + replace (d' - 1) with ((d' - 1 - k) + k) by lia.
      rewrite (pow2_split (d' - 1 - k) k) by lia.
      apply Z.mul_le_mono_nonneg_r; [lia |].
      rewrite <- (div_half_even_exact (2 ^ (d' - 1 - k)) (2 ^ k)) by trivial.
      apply div_half_even_mono; trivial.
      rewrite <- pow2_split by lia. replace (d' - 1 - k + k) with (d' - 1) by lia. lia.
    + replace (d' - 1) with (52 + k') at 1 by lia.
      rewrite (pow2_split 52 k') by lia.
      apply Z.mul_le_mono_nonneg_r; [lia |].
      rewrite <- (div_half_even_exact (2 ^ 52) (2 ^ k')) at 1 by trivial.
      apply div_half_even_mono; trivial.
      rewrite <- pow2_split by lia. replace (52 + k') with (d' - 1) by lia. lia.
Qed.

(** Two exact products that differ by more than two units of the coarser
    rounding step round to different floats, unless both overflow. *)
Lemma rvalue_lt m m' e :
  0 < m -> 0 <= round_shift m e ->
  m + 2 * 2 ^ round_shift m' e <= m' ->
  rvalue m' e < 2 ^ 2098 ->
  rvalue m e < rvalue m' e.
Proof.
  intros Hm Hk Hgap Hcap.
  assert (Hmm : 0 < m <= m').
  { split; trivial. pose proof (Z.pow_nonneg 2 (round_shift m' e) ltac:(lia)). lia. }
  pose proof (round_shift_mono m m' e Hmm) as Hkk.
  unfold rvalue in *. unfold rounded in *.
  set (k := round_shift m e) in *. set (k' := round_shift m' e) in *.
  assert (Hfx : -1074 <= e + k) by (unfold k, round_shift; rewrite fexp_eq; lia).
  pose proof (pow2_pos k ltac:(lia)) as Pk. pose proof (pow2_pos k' ltac:(lia)) as Pk'.
  assert (Pkk : 2 ^ k <= 2 ^ k') by (apply Z.pow_le_mono_r; lia).
  assert (Hlt : Py.div_half_even m (2 ^ k) * 2 ^ (e + k + 1074)
                < Py.div_half_even m' (2 ^ k') * 2 ^ (e + k' + 1074)).
  { replace (e + k + 1074) with (k + (e + 1074)) by lia.
    replace (e + k' + 1074) with (k' + (e + 1074)) by lia.
    apply scaled_lt; [lia | lia |].
    pose proof (div_half_even_error m (2 ^ k) Pk).
    pose proof (div_half_even_error m' (2 ^ k') Pk'). lia. }
  lia.
Qed.

(** A canonical mantissa written with [j] extra zero bits rounds to itself. *)
Lemma round_scaled m e j :
  bounded prec emax m e = true -> 0 <= j ->
  round_shift (Zpos m * 2 ^ j) (e - j) = j /\ rounded (Zpos m * 2 ^ j) (e - j) = Zpos m.
Proof.
  intros Hb Hj. destruct (bounded_inv m e Hb) as (Hd & He & Hn & Hlo & Hhi).
  pose proof (pow2_pos j Hj) as Pj.
  assert (D : Zdigits2 (Zpos m * 2 ^ j) = Zpos (digits2_pos m) + j).
  { apply Zdigits2_unique; [| lia].
    replace (Zpos (digits2_pos m) + j - 1) with ((Zpos (digits2_pos m) - 1) + j) by lia.
    rewrite !pow2_split by lia. nia. }
  assert (K : round_shift (Zpos m * 2 ^ j) (e - j) = j).
  { unfold round_shift. rewrite D, fexp_eq. lia. }
  split; trivial. unfold rounded. rewrite K. apply div_half_even_exact; trivial.
Qed.

Lemma rvalue_scaled s m e j :
  bounded prec emax m e = true -> 0 <= j ->
  rvalue (Zpos m * 2 ^ j) (e - j) = mag (S754_finite s m e).
Proof.
  intros Hb Hj. destruct (round_scaled m e j Hb Hj) as [K R].
  unfold rvalue. rewrite K, R. replace (e - j + j + 1074) with (e + 1074) by lia.
  pose proof (mag_finite_lt s m e Hb) as [_ H]. cbn [mag] in *. lia.
Qed.

End Rounding.

(** ** Binary64 facts *)

Section Binary64.
Local Open Scope Z_scope.

Lemma SF_zero : Prim2SF 0 = S754_zero false.
Proof. reflexivity. Qed.

Lemma SF_infinity : Prim2SF infinity = S754_infinity false.
Proof. reflexivity. Qed.

(** Every float but NaN compares equal to itself. *)
Lemma SFcompare_refl a : a <> S754_nan -> SFcompare a a = Some Eq.
Proof.
  destruct a as [[] | [] | | [] m e]; cbn; intros H; try congruence;
    rewrite Z.compare_refl, Pos.compare_cont_refl; reflexivity.
Qed.

(** The tests of the script, read on the specification of a float:
    [x == 0.0], [math.isnan(x)], [math.isfinite(x)] and [0 < x]. *)
Lemma is_zero_spec x : (x =? 0)%float = sf_is_zero (Prim2SF x).
Proof.
  rewrite eqb_spec, SF_zero. unfold SFeqb.
  destruct (Prim2SF x) as [s | [] | | [] m e]; reflexivity.
Qed.

Lemma is_nan_spec x : is_nan x = sf_is_nan (Prim2SF x).
Proof.
  unfold is_nan. rewrite eqb_spec. unfold SFeqb.
  destruct (Prim2SF x) as [s | s | | s m e] eqn:E; cbn [sf_is_nan];
    try (rewrite SFcompare_refl by discriminate); reflexivity.
Qed.

Lemma is_finite_spec x : is_finite x = sf_is_finite (Prim2SF x).
Proof.
  unfold is_finite, is_infinity. rewrite is_nan_spec, eqb_spec, abs_spec, SF_infinity.
  unfold SFeqb. destruct (Prim2SF x) as [s | s | | s m e]; reflexivity.
Qed.

Lemma positive_spec x :
  (0 <? x)%float = true ->
  Prim2SF x = S754_infinity false \/ exists m e, Prim2SF x = S754_finite false m e.
Proof.
  rewrite ltb_spec, SF_zero. unfold SFltb.
  destruct (Prim2SF x) as [s | [] | | [] m e]; cbn; try discriminate; eauto.
Qed.

(** The exact product of two valid mantissas has at least as many bits as the
    format keeps: rounding it never needs a left shift. *)
Lemma round_shift_mul mx ex my ey :
  bounded prec emax mx ex = true -> bounded prec emax my ey = true ->
  0 <= round_shift (Zpos mx * Zpos my) (ex + ey).
Proof.
  intros Hx Hy.
  destruct (bounded_inv mx ex Hx) as (Hdx & Hex & Hnx & Hlox & Hhix).
  destruct (bounded_inv my ey Hy) as (Hdy & Hey & Hny & Hloy & Hhiy).
  set (dx := Zpos (digits2_pos mx)) in *. set (dy := Zpos (digits2_pos my)) in *.
  assert (HD : dx + dy - 1 <= Zdigits2 (Zpos mx * Zpos my)).
  { destruct (Zdigits2_bounds (Zpos mx * Zpos my) ltac:(lia)) as [_ Dhi].
    destruct (Z.le_gt_cases (dx + dy - 1) (Zdigits2 (Zpos mx * Zpos my))) as [L | G]; trivial.
    assert (2 ^ Zdigits2 (Zpos mx * Zpos my) <= 2 ^ ((dx - 1) + (dy - 1)))
      by (apply Z.pow_le_mono_r; lia).
    rewrite pow2_split in H by (unfold dx, dy; lia).
    pose proof (pow2_pos (dx - 1) ltac:(unfold dx; lia)).
    pose proof (pow2_pos (dy - 1) ltac:(unfold dy; lia)). nia. }
  unfold round_shift. rewrite fexp_eq. lia.
Qed.

(** The product of two finite floats, as [SFmul] computes it. *)
Lemma mul_finite x y sx mx ex sy my ey :
  Prim2SF x = S754_finite sx mx ex -> Prim2SF y = S754_finite sy my ey ->
  Prim2SF (x * y)%float =
    binary_round_aux prec emax (xorb sx sy) (Zpos mx * Zpos my) (ex + ey) loc_Exact /\
  0 <= round_shift (Zpos mx * Zpos my) (ex + ey).
Proof.
  intros Hx Hy.
  pose proof (Prim2SF_valid x) as Vx. pose proof (Prim2SF_valid y) as Vy.
  rewrite Hx in Vx. rewrite Hy in Vy. cbn [valid_binary] in Vx, Vy.
  split; [| apply round_shift_mul; trivial].
  rewrite mul_spec, Hx, Hy. reflexivity.
Qed.

(** Its magnitude and its sign. *)
Lemma mag_mul x y sx mx ex sy my ey :
  Prim2SF x = S754_finite sx mx ex -> Prim2SF y = S754_finite sy my ey ->
  mag (Prim2SF (x * y)%float) = rvalue (Zpos mx * Zpos my) (ex + ey) /\
  sign_is (xorb sx sy) (Prim2SF (x * y)%float).
Proof.
  intros Hx Hy. destruct (mul_finite x y _ _ _ _ _ _ Hx Hy) as [E K].
  rewrite E. apply mag_round; [lia | trivial].
Qed.

Lemma bounded_of x s m e : Prim2SF x = S754_finite s m e -> bounded prec emax m e = true.
Proof. intros H. pose proof (Prim2SF_valid x) as V. rewrite H in V. exact V. Qed.

(** [x * 1.0] is [x], for every float. *)
Lemma mul_1_r x : (x * 1)%float = x.
Proof.
  apply Prim2SF_inj.
  assert (H1 : Prim2SF 1 = S754_finite false (Z.to_pos (2 ^ 52)) (-52)) by reflexivity.
  destruct (Prim2SF x) as [s | s | | s m e] eqn:E.
  - rewrite mul_spec, E, H1. cbn. now rewrite xorb_false_r.
  - rewrite mul_spec, E, H1. cbn. now rewrite xorb_false_r.
  - rewrite mul_spec, E, H1. reflexivity.
  - pose proof (bounded_of x s m e E) as Hb.
    destruct (mul_finite x 1 _ _ _ _ _ _ E H1) as [-> K].
    rewrite binary_round_aux_exact by (trivial; lia).
    change (Zpos (Z.to_pos (2 ^ 52))) with (2 ^ 52).
    replace (e + -52) with (e - 52) by lia.
    destruct (round_scaled m e 52 Hb ltac:(lia)) as [-> ->].
    destruct (bounded_inv m e Hb) as (Hd & He & _ & Hlo & Hhi).
    assert (Zpos m < 2 ^ 53).
    { assert (2 ^ Zpos (digits2_pos m) <= 2 ^ 53) by (apply Z.pow_le_mono_r; lia). lia. }
    unfold round_result. rewrite xorb_false_r.
    destruct (Z.eqb_spec (Zpos m) 0); [lia |].
    destruct (Z.eqb_spec (Zpos m) (2 ^ 53)); [lia |].
    replace (e - 52 + 52) with e by lia.
    destruct (Z.leb_spec e 971); [reflexivity | lia].
Qed.

(** Multiplying a nonzero float by a finite constant of magnitude at least one
    never gives a zero (no underflow). *)
Lemma nonzero_mul_r x c sc mc ec :
  Prim2SF c = S754_finite sc mc ec -> ec <= 0 -> 2 ^ (- ec) <= Zpos mc ->
  (x =? 0)%float = false -> (x * c =? 0)%float = false.
Proof.
  intros Hc Hec Hmc. rewrite !is_zero_spec. intros Hx.
  destruct (Prim2SF x) as [s | s | | s m e] eqn:E; try discriminate.
  - rewrite mul_spec, E, Hc. reflexivity.
  - rewrite mul_spec, E, Hc. reflexivity.
  - pose proof (bounded_of x s m e E) as Hb.
    destruct (mag_mul x c _ _ _ _ _ _ E Hc) as [M S].
    pose proof (mag_finite_lt s m e Hb) as [Hpos _].
    rewrite <- (rvalue_scaled s m e (- ec) Hb ltac:(lia)) in Hpos.
    destruct (round_scaled m e (- ec) Hb ltac:(lia)) as [K _].
    replace (e - - ec) with (e + ec) in * by lia.
    pose proof (pow2_pos (- ec) ltac:(lia)) as P.
    assert (Hle : rvalue (Zpos m * 2 ^ (- ec)) (e + ec) <= rvalue (Zpos m * Zpos mc) (e + ec)).
    { apply rvalue_mono; [split; [lia |] | lia].
      apply Z.mul_le_mono_nonneg_l; lia. }
    destruct (Prim2SF (x * c)%float) as [s' | s' | | s' m' e']; trivial.
    cbn [mag] in M. lia.
Qed.

Lemma nonzero_mul_l x c sc mc ec :
  Prim2SF c = S754_finite sc mc ec -> ec <= 0 -> 2 ^ (- ec) <= Zpos mc ->
  (x =? 0)%float = false -> (c * x =? 0)%float = false.
Proof.
  intros Hc Hec Hmc Hx.
  pose proof (nonzero_mul_r x c sc mc ec Hc Hec Hmc Hx) as H.
  rewrite is_zero_spec in *. rewrite mul_spec in *.
  destruct (Prim2SF x) as [s | s | | s m e]; rewrite Hc in *; trivial.
  cbn [SF64mul SFmul] in *.
  rewrite Pos.mul_comm, Z.add_comm, xorb_comm. exact H.
Qed.

(** A zero times a finite float is a zero. *)
Lemma zero_mul_l x y :
  (x =? 0)%float = true -> is_finite y = true -> (x * y =? 0)%float = true.
Proof.
  rewrite !is_zero_spec, is_finite_spec, mul_spec.
  destruct (Prim2SF x); try discriminate; destruct (Prim2SF y); try discriminate; reflexivity.
Qed.

Lemma zero_mul_r x y :
  is_finite x = true -> (y =? 0)%float = true -> (x * y =? 0)%float = true.
Proof.
  rewrite !is_zero_spec, is_finite_spec, mul_spec.
  destruct (Prim2SF x); try discriminate; destruct (Prim2SF y); try discriminate; reflexivity.
Qed.

(** A zero divided by a nonzero number is a zero. *)
Lemma zero_div x y :
  (x =? 0)%float = true -> (y =? 0)%float = false -> is_nan y = false ->
  (x / y =? 0)%float = true.
Proof.
  rewrite !is_zero_spec, is_nan_spec, div_spec.
  destruct (Prim2SF x); try discriminate; destruct (Prim2SF y); try discriminate; reflexivity.
Qed.

Lemma positive_nonzero x : (0 <? x)%float = true -> (x =? 0)%float = false.
Proof.
  intros H. rewrite is_zero_spec.
  destruct (positive_spec x H) as [-> | (m & e & ->)]; reflexivity.
Qed.

(** Comparing two non-negative floats is comparing their magnitudes. *)
Lemma leb_of_mag a b :
  sign_is false (Prim2SF a) -> sign_is false (Prim2SF b) ->
  mag (Prim2SF a) <= mag (Prim2SF b) -> (a <=? b)%float = true.
Proof.
  intros Sa Sb H. rewrite leb_spec. unfold SFleb.
  rewrite (SFcompare_mag _ _ (Prim2SF_valid a) (Prim2SF_valid b)) by auto.
  destruct (Z.compare_spec (mag (Prim2SF a)) (mag (Prim2SF b))); trivial; lia.
Qed.

Lemma ltb_of_mag a b :
  sign_is false (Prim2SF a) -> sign_is false (Prim2SF b) ->
  mag (Prim2SF a) < mag (Prim2SF b) -> (a <? b)%float = true.
Proof.
  intros Sa Sb H. rewrite ltb_spec. unfold SFltb.
  rewrite (SFcompare_mag _ _ (Prim2SF_valid a) (Prim2SF_valid b)) by auto.
  destruct (Z.compare_spec (mag (Prim2SF a)) (mag (Prim2SF b))); trivial; lia.
Qed.

Section Scaling.
(** A positive finite number [c] and two positive factors with the exponent
    [-53], that is, factors in [[1/2, 1]] written with 53 fractional bits. *)
Variables (c : float) (mc : positive) (ec : Z).
Hypothesis Hc : Prim2SF c = S754_finite false mc ec.

Lemma mul_le_mul a b ma mb ef :
  Prim2SF a = S754_finite false ma ef -> Prim2SF b = S754_finite false mb ef ->
  (ma <= mb)%positive -> (c * a <=? c * b)%float = true.
Proof.
  intros Ha Hb Hle.
  destruct (mag_mul c a _ _ _ _ _ _ Hc Ha) as [Ma Sa].
  destruct (mag_mul c b _ _ _ _ _ _ Hc Hb) as [Mb Sb].
  destruct (mul_finite c a _ _ _ _ _ _ Hc Ha) as [_ Ka].
  apply leb_of_mag; trivial. rewrite Ma, Mb.
  apply rvalue_mono; [| trivial]. split; [lia |].
  apply Z.mul_le_mono_nonneg_l; lia.
Qed.

Lemma mul_le_self a ma ef :
  Prim2SF a = S754_finite false ma ef -> ef <= 0 -> Zpos ma <= 2 ^ (- ef) ->
  (c * a <=? c)%float = true.
Proof.
  intros Ha Hef Hle.
  destruct (mag_mul c a _ _ _ _ _ _ Hc Ha) as [Ma Sa].
  destruct (mul_finite c a _ _ _ _ _ _ Hc Ha) as [_ Ka].
  apply leb_of_mag; trivial; [rewrite Hc; reflexivity |]. rewrite Ma, Hc.
  rewrite <- (rvalue_scaled false mc ec (- ef) (bounded_of c _ _ _ Hc)) by lia.
  replace (ec - - ef) with (ec + ef) by lia.
  apply rvalue_mono; [| trivial]. split; [lia |].
  apply Z.mul_le_mono_nonneg_l; lia.
Qed.

(** For a normal [c], factors four units in the last place apart give
    different products. *)
Hypothesis Hnormal : 2 ^ 52 <= Zpos mc.

Lemma rvalue_gap ma mb :
  0 < ma -> ma + 4 <= mb <= 2 ^ 53 ->
  0 <= round_shift (Zpos mc * ma) (ec - 53) ->
  rvalue (Zpos mc * ma) (ec - 53) < rvalue (Zpos mc * mb) (ec - 53).
Proof.
  intros Hma [Hgap Hmb] Ka.
  pose proof (bounded_of c _ _ _ Hc) as Bc.
  destruct (bounded_inv mc ec Bc) as (Hd & He & _ & Hlo & Hhi).
  assert (Hlt : Zpos mc < 2 ^ 53).
  { assert (2 ^ Zpos (digits2_pos mc) <= 2 ^ 53) by (apply Z.pow_le_mono_r; lia). lia. }
  assert (Hk' : round_shift (Zpos mc * mb) (ec - 53) <= 53).
  { assert (Zdigits2 (Zpos mc * mb) <= 106); [| unfold round_shift; rewrite fexp_eq; lia].
    destruct (Zdigits2_bounds (Zpos mc * mb) ltac:(nia)) as [Dlo _].
    destruct (Z.le_gt_cases (Zdigits2 (Zpos mc * mb)) 106) as [L | G]; trivial.
    assert (2 ^ 106 <= 2 ^ (Zdigits2 (Zpos mc * mb) - 1)) by (apply Z.pow_le_mono_r; lia).
    change (2 ^ 106) with (2 ^ 53 * 2 ^ 53) in *.
    pose proof (pow2_pos 53 ltac:(lia)). nia. }
  apply rvalue_lt; trivial.
  - nia.
  - assert (2 ^ round_shift (Zpos mc * mb) (ec - 53) <= 2 ^ 53).
    { destruct (Z.lt_ge_cases (round_shift (Zpos mc * mb) (ec - 53)) 0).
      - rewrite Z.pow_neg_r by trivial. apply Z.pow_nonneg; lia.
      - apply Z.pow_le_mono_r; lia. }
    change (2 ^ 53) with (2 * 2 ^ 52) in *. nia.
  - apply Z.le_lt_trans with (rvalue (Zpos mc * 2 ^ 53) (ec - 53)).
    + apply rvalue_mono; [split; [nia |] |].
      * apply Z.mul_le_mono_nonneg_l; lia.
      * pose proof (round_shift_mono (Zpos mc * ma) (Zpos mc * mb) (ec - 53) ltac:(nia)). lia.
    + rewrite (rvalue_scaled false mc ec 53 Bc) by lia.
      apply mag_finite_lt; trivial.
Qed.

Lemma mul_lt_mul a b ma mb :
  Prim2SF a = S754_finite false ma (-53) -> Prim2SF b = S754_finite false mb (-53) ->
  Zpos ma + 4 <= Zpos mb -> (c * a <? c * b)%float = true.
Proof.
  intros Ha Hb Hgap.
  destruct (mag_mul c a _ _ _ _ _ _ Hc Ha) as [Ma Sa].
  destruct (mag_mul c b _ _ _ _ _ _ Hc Hb) as [Mb Sb].
  destruct (mul_finite c a _ _ _ _ _ _ Hc Ha) as [_ Ka].
  apply ltb_of_mag; trivial. rewrite Ma, Mb.
  replace (ec + -53) with (ec - 53) in * by lia.
  apply rvalue_gap; trivial; [lia |]. split; trivial.
  destruct (bounded_inv mb (-53) (bounded_of b _ _ _ Hb)) as (Hd & _ & _ & _ & Hhi).
  assert (2 ^ Zpos (digits2_pos mb) <= 2 ^ 53) by (apply Z.pow_le_mono_r; lia). lia.
Qed.

Lemma mul_lt_self a ma :
  Prim2SF a = S754_finite false ma (-53) -> Zpos ma + 4 <= 2 ^ 53 ->
  (c * a <? c)%float = true.
Proof.
  intros Ha Hgap.
  destruct (mag_mul c a _ _ _ _ _ _ Hc Ha) as [Ma Sa].
  destruct (mul_finite c a _ _ _ _ _ _ Hc Ha) as [_ Ka].
  apply ltb_of_mag; trivial; [rewrite Hc; reflexivity |]. rewrite Ma, Hc.
  rewrite <- (rvalue_scaled false mc ec 53 (bounded_of c _ _ _ Hc)) by lia.
  replace (ec + -53) with (ec - 53) in * by lia.
  apply rvalue_gap; trivial; lia.
Qed.
End Scaling.

(** A float between the smallest normal number and infinity has a full
    53-bit mantissa. *)
Lemma normal_spec x :
  (0x1p-1022 <=? x)%float = true -> (x <? infinity)%float = true ->
  exists m e, Prim2SF x = S754_finite false m e /\ 2 ^ 52 <= Zpos m.
Proof.
  rewrite leb_spec, ltb_spec, SF_infinity.
  assert (E : Prim2SF 0x1p-1022 = S754_finite false (Z.to_pos (2 ^ 52)) (-1074)) by reflexivity.
  rewrite E. clear E. intros H1 H2.
  pose proof (Prim2SF_valid x) as V.
  destruct (Prim2SF x) as [s | [] | | [] m e]; try discriminate.
  exists m, e. split; trivial.
  cbn [valid_binary] in V. destruct (bounded_inv m e V) as (Hd & He & Hn & Hlo & Hhi).
  unfold SFleb in H1. cbn [SFcompare] in H1.
  destruct (Z.compare_spec (-1074) e) as [E0 | L0 | G0]; try discriminate.
  - change (Pos.compare_cont Eq (Z.to_pos (2 ^ 52)) m) with (2 ^ 52 ?= Zpos m) in H1.
    destruct (Z.compare_spec (2 ^ 52) (Zpos m)); try discriminate; lia.
  - rewrite Hn in Hlo by lia. exact Hlo.
Qed.

(** The quotient of two normal floats, when it neither overflows nor
    underflows: the mantissa [ma * 2^53 / mc] rounded to 53 bits. *)
Lemma div_normal a c ma ea s mc ec :
  Prim2SF a = S754_finite false ma ea -> Prim2SF c = S754_finite s mc ec ->
  2 ^ 52 <= Zpos ma -> 2 ^ 52 <= Zpos mc -> -1074 <= ea - ec - 53 ->
  exists k,
    (k = 0 \/ k = 1) /\
    2 ^ 52 <= Py.div_half_even (Zpos ma * 2 ^ 53) (2 ^ k * Zpos mc) <= 2 ^ 53 /\
    Prim2SF (a / c)%float =
      round_result s (Py.div_half_even (Zpos ma * 2 ^ 53) (2 ^ k * Zpos mc))
                   (ea - ec - 53 + k).
Proof.
  intros Ha Hc Na Nc He.
  pose proof (bounded_of a _ _ _ Ha) as Ba. pose proof (bounded_of c _ _ _ Hc) as Bc.
  destruct (bounded_inv ma ea Ba) as (Hda & Hea & _ & Hloa & Hhia).
  destruct (bounded_inv mc ec Bc) as (Hdc & Hec & _ & Hloc & Hhic).
  assert (Ua : Zpos ma < 2 ^ 53).
  { assert (2 ^ Zpos (digits2_pos ma) <= 2 ^ 53) by (apply Z.pow_le_mono_r; lia). lia. }
  assert (Uc : Zpos mc < 2 ^ 53).
  { assert (2 ^ Zpos (digits2_pos mc) <= 2 ^ 53) by (apply Z.pow_le_mono_r; lia). lia. }
  assert (Da : Zdigits2 (Zpos ma) = 53) by (apply Zdigits2_unique; [split |]; trivial; lia).
  assert (Dc : Zdigits2 (Zpos mc) = 53) by (apply Zdigits2_unique; [split |]; trivial; lia).
  set (n := Zpos ma * 2 ^ 53).
  assert (Hn : 0 <= n) by (unfold n; lia).
  assert (Core : SFdiv_core_binary prec emax (Zpos ma) ea (Zpos mc) ec =
                 (n / Zpos mc, ea - ec - 53, new_location (Zpos mc) (n mod Zpos mc))).
  { unfold SFdiv_core_binary. rewrite Da, Dc, fexp_eq.
    replace (Z.min (Z.max (53 + ea - (53 + ec) - 53) (-1074)) (ea - ec)) with (ea - ec - 53) by lia.
    replace (ea - ec - (ea - ec - 53)) with 53 by lia.
    rewrite Z.shiftl_mul_pow2 by lia. fold n.
    unfold Z.div, Z.modulo. destruct (Z.div_eucl n (Zpos mc)). reflexivity. }
  assert (Hdiv : Prim2SF (a / c)%float =
                 binary_round_aux prec emax s (n / Zpos mc) (ea - ec - 53)
                                  (new_location (Zpos mc) (n mod Zpos mc))).
  { rewrite div_spec, Ha, Hc. unfold SF64div, SFdiv. rewrite Core. reflexivity. }
  set (q := n / Zpos mc) in *.
  pose proof (pow2_pos 52 ltac:(lia)) as P52.
  assert (Q : 2 ^ 52 <= q < 2 ^ 54).
  { unfold q, n. split.
    - apply Z.div_le_lower_bound; [lia |].
      change (2 ^ 53) with (2 * 2 ^ 52) in *. nia.
    - apply Z.div_lt_upper_bound; [lia |].
      change (2 ^ 54) with (2 * 2 * 2 ^ 52). change (2 ^ 53) with (2 * 2 ^ 52) in *. nia. }
  destruct (Z.lt_ge_cases q (2 ^ 53)) as [Q53 | Q54].
  - (* 53 bits: no shift *)
    exists 0. change (2 ^ 0) with 1. rewrite Z.mul_1_l, Z.add_0_r.
    pose proof (div_half_even_floor n (Zpos mc) ltac:(lia)) as Fl. fold q in Fl.
    split; [auto |]. split; [lia |].
    rewrite Hdiv.
    apply binary_round_aux_stage2 with
      (mrs := shr_record_of_loc q (new_location (Zpos mc) (n mod Zpos mc))); try lia.
    + assert (Dq : Zdigits2 q = 53).
      { apply Zdigits2_unique; [| lia]. change (2 ^ (53 - 1)) with (2 ^ 52). lia. }
      unfold shr_fexp. rewrite Dq, fexp_eq. replace (Z.max (53 + (ea - ec - 53) - 53) (-1074) - (ea - ec - 53)) with 0 by lia.
      reflexivity.
    + apply round_quotient; lia.
  - (* 54 bits: one bit is shifted out *)
    exists 1. change (2 ^ 1) with 2.
    pose proof (div_half_even_floor n (2 * Zpos mc) ltac:(lia)) as Fl.
    assert (Eq2 : n / (2 * Zpos mc) = q / 2)
      by (unfold q; rewrite (Z.mul_comm 2), Z.div_div; lia).
    rewrite Eq2 in Fl.
    assert (H2 : 2 ^ 52 <= q / 2 < 2 ^ 53).
    { change (2 ^ 53) with (2 * 2 ^ 52) in *. change (2 ^ 54) with (2 * (2 * 2 ^ 52)) in *.
      split; [apply Z.div_le_lower_bound | apply Z.div_lt_upper_bound]; lia. }
    split; [auto |]. split; [lia |].
    rewrite Hdiv.
    apply binary_round_aux_stage2 with
      (mrs := shr_1 (shr_record_of_loc q (new_location (Zpos mc) (n mod Zpos mc)))); try lia.
    + assert (Dq : Zdigits2 q = 54).
      { apply Zdigits2_unique; [| lia]. change (2 ^ (54 - 1)) with (2 ^ 53). lia. }
      unfold shr_fexp. rewrite Dq, fexp_eq. replace (Z.max (54 + (ea - ec - 53) - 53) (-1074) - (ea - ec - 53)) with 1 by lia.
      reflexivity.
    + apply round_quotient_shifted; lia.
Qed.

(** Dividing a normal float by [c] and multiplying the quotient by [c] again
    gives back the float or one of its two neighbours. *)
Lemma div_mul_near a lo hi c ma mlo mhi ea s mc ec :
  Prim2SF a = S754_finite false ma ea ->
  Prim2SF lo = S754_finite false mlo ea -> Zpos mlo = Zpos ma - 1 ->
  Prim2SF hi = S754_finite false mhi ea -> Zpos mhi = Zpos ma + 1 ->
  Prim2SF c = S754_finite s mc ec ->
  2 ^ 52 <= Zpos ma -> 2 ^ 52 <= Zpos mc ->
  -1074 <= ea - ec - 53 -> ea - ec - 51 <= 971 ->
  (lo <=? a / c * c)%float = true /\ (a / c * c <=? hi)%float = true.
Proof.
  intros Ha Hlo Elo Hhi Ehi Hc Na Nc He1 He2.
  destruct (div_normal a c ma ea s mc ec Ha Hc Na Nc He1) as (k & Hk & Hm1 & Hq).
  set (m1 := Py.div_half_even (Zpos ma * 2 ^ 53) (2 ^ k * Zpos mc)) in *.
  pose proof (bounded_of c _ _ _ Hc) as Bc.
  destruct (bounded_inv mc ec Bc) as (Hdc & Hec & _ & _ & Hhic).
  assert (Uc : Zpos mc < 2 ^ 53).
  { assert (2 ^ Zpos (digits2_pos mc) <= 2 ^ 53) by (apply Z.pow_le_mono_r; lia). lia. }
  assert (P2k : 2 ^ k = 1 \/ 2 ^ k = 2) by (destruct Hk as [-> | ->]; auto).
  pose proof (div_half_even_error (Zpos ma * 2 ^ 53) (2 ^ k * Zpos mc) ltac:(lia)) as Err.
  fold m1 in Err.
  (* the quotient as a canonical float [mK * 2^eK], and the distance of
     [mK * mc] from [ma * 2^j] *)
  assert (HK : exists mK eK j,
    Prim2SF (a / c)%float = S754_finite s mK eK /\ 0 <= j /\ ea - j = eK + ec /\
    (Zpos ma - 1) * 2 ^ j <= Zpos mK * Zpos mc <= (Zpos ma + 1) * 2 ^ j).
  { unfold round_result in Hq.
    destruct (Z.eqb_spec m1 0) as [Z0 | NZ]; [lia |].
    destruct (Z.eqb_spec m1 (2 ^ 53)) as [T | NT].
    - destruct (Z.leb_spec (ea - ec - 53 + k + 1) 971) as [L | G]; [| lia].
      exists (Z.to_pos (2 ^ 52)), (ea - ec - 53 + k + 1), (52 - k).
      split; [exact Hq |]. split; [lia |]. split; [lia |].
      change (Zpos (Z.to_pos (2 ^ 52))) with (2 ^ 52).
      rewrite T in Err. change (2 ^ 53) with (2 * 2 ^ 52) in *.
      destruct Hk as [-> | ->]; [change (2 ^ (52 - 0)) with (2 ^ 52) |
                                 change (2 ^ (52 - 1)) with (2 ^ 51)];
        [change (2 ^ 0) with 1 in * | change (2 ^ 1) with 2 in *];
        [| change (2 ^ 52) with (2 * 2 ^ 51) in *];
        nia.
    - destruct (Z.leb_spec (ea - ec - 53 + k) 971) as [L | G]; [| lia].
      exists (Z.to_pos m1), (ea - ec - 53 + k), (53 - k).
      split; [exact Hq |]. split; [lia |]. split; [lia |].
      rewrite Z2Pos.id by lia.
      change (2 ^ 53) with (2 * 2 ^ 52) in *.
      destruct Hk as [-> | ->]; [change (2 ^ (53 - 0)) with (2 * 2 ^ 52) |
                                 change (2 ^ (53 - 1)) with (2 ^ 52)];
        [change (2 ^ 0) with 1 in * | change (2 ^ 1) with 2 in *];
        nia. }
  destruct HK as (mK & eK & j & EK & Hj & Hje & Hsand).
  destruct (mag_mul (a / c)%float c _ _ _ _ _ _ EK Hc) as [M S].
  destruct (mul_finite (a / c)%float c _ _ _ _ _ _ EK Hc) as [_ K].
  rewrite xorb_nilpotent in S.
  pose proof (bounded_of lo _ _ _ Hlo) as Blo. pose proof (bounded_of hi _ _ _ Hhi) as Bhi.
  pose proof (pow2_pos j Hj) as Pj.
  split.
  - apply leb_of_mag; trivial; [rewrite Hlo; reflexivity |].
    rewrite M, Hlo, <- (rvalue_scaled false mlo ea j Blo Hj), Hje, Elo.
    apply rvalue_mono; [split; [nia | lia] |].
    destruct (round_scaled mlo ea j Blo Hj) as [R _]. rewrite Hje, Elo in R. lia.
  - apply leb_of_mag; trivial; [rewrite Hhi; reflexivity |].
    rewrite M, Hhi, <- (rvalue_scaled false mhi ea j Bhi Hj), Hje, Ehi.
    apply rvalue_mono; [split; [lia | lia] | trivial].
Qed.

(** The floats [c] for which [3.5 / c] is a normal float. *)
Lemma magnitude_range_spec x :
  (0x1p-1021 <=? abs x)%float = true -> (abs x <? 0x1p1023)%float = true ->
  exists s m e, Prim2SF x = S754_finite s m e /\ 2 ^ 52 <= Zpos m /\ -1073 <= e <= 970.
Proof.
  rewrite leb_spec, ltb_spec, abs_spec.
  assert (E1 : Prim2SF 0x1p-1021 = S754_finite false (Z.to_pos (2 ^ 52)) (-1073)) by reflexivity.
  assert (E2 : Prim2SF 0x1p1023 = S754_finite false (Z.to_pos (2 ^ 52)) 971) by reflexivity.
  rewrite E1, E2. clear E1 E2. intros H1 H2.
  pose proof (Prim2SF_valid x) as V.
  destruct (Prim2SF x) as [s | s | | s m e]; try discriminate.
  exists s, m, e. split; trivial.
  cbn [valid_binary] in V. destruct (bounded_inv m e V) as (Hd & He & Hn & Hlo & Hhi).
  unfold SFleb, SFltb in *. cbn [SFabs SFcompare] in H1, H2.
  assert (N : 2 ^ 52 <= Zpos m /\ -1073 <= e).
  { destruct (Z.compare_spec (-1073) e) as [E0 | L0 | G0]; try discriminate.
    - change (Pos.compare_cont Eq (Z.to_pos (2 ^ 52)) m) with (2 ^ 52 ?= Zpos m) in H1.
      destruct (Z.compare_spec (2 ^ 52) (Zpos m)); try discriminate; lia.
    - rewrite Hn in Hlo by lia. change (2 ^ (53 - 1)) with (2 ^ 52) in Hlo. lia. }
  split; [apply N |]. split; [apply N |].
  destruct (Z.compare_spec e 971) as [E0 | L0 | G0]; try discriminate; [| lia].
  change (Pos.compare_cont Eq m (Z.to_pos (2 ^ 52))) with (Zpos m ?= 2 ^ 52) in H2.
  destruct (Z.compare_spec (Zpos m) (2 ^ 52)); try discriminate; lia.
Qed.

(** [3.5 / c * c] is [3.5] or one of its two neighbours. *)
Lemma three_and_a_half_round_trip cop :
  (0x1p-1021 <=? abs cop)%float = true -> (abs cop <? 0x1p1023)%float = true ->
  (3.4999999999999996 <=? 3.5 / cop * cop)%float = true /\
  (3.5 / cop * cop <=? 3.5000000000000004)%float = true.
Proof.
  intros H1 H2. destruct (magnitude_range_spec cop H1 H2) as (s & m & e & E & N & He).
  apply (div_mul_near 3.5%float 3.4999999999999996%float 3.5000000000000004%float cop
           7881299347898368 7881299347898367 7881299347898369 (-51) s m e);
    try reflexivity; trivial; try lia.
Qed.

End Binary64.

(** ** The claims of the specification *)

(** *** Division in the error monad, and two constants of the script *)

Lemma SF_1000 : Prim2SF 1000 = S754_finite false 8796093022208000 (-43).
Proof. reflexivity. Qed.

Lemma SF_cp_density : Prim2SF (cp * density_si) = S754_finite false 4589844219941618 (-40).
Proof. reflexivity. Qed.

Lemma truediv_zero a b : (b =? 0) = true -> a /? b = Raise ZeroDivisionError.
Proof. intros H. unfold Py.truediv. now rewrite H. Qed.

Lemma truediv_nonzero a b : (b =? 0) = false -> a /? b = Ok (a / b).
Proof. intros H. unfold Py.truediv. now rewrite H. Qed.

Lemma exn_unique (e : Py.exn) : e = ZeroDivisionError.
Proof. now destruct e. Qed.

Lemma truediv_cases a b :
  a /? b = Raise ZeroDivisionError \/ a /? b = Ok (a / b).
Proof. unfold Py.truediv. destruct (b =? 0); auto. Qed.

Lemma power_input_zero cc pi u :
  (pi =? 0) = true -> chiller_performance u cc pi = Raise ZeroDivisionError.
Proof.
  intros H. destruct u; unfold chiller_performance.
  - now rewrite truediv_zero.
  - destruct (truediv_cases pi cc) as [-> | ->]; [reflexivity |]. cbn [Py.bind].
    rewrite (truediv_zero _ (pi * 1000)); [reflexivity |].
    apply zero_mul_l; [exact H | reflexivity].
Qed.

Lemma delta_T_zero cap dT :
  (dT =? 0) = true -> flow_rate cap dT = Raise ZeroDivisionError.
Proof.
  intros H. unfold flow_rate. apply truediv_zero.
  apply zero_mul_r; [reflexivity | exact H].
Qed.

Lemma ratios_zero pairs :
  existsb (fun p => snd p =? 0) pairs = true -> ratios pairs = Raise ZeroDivisionError.
Proof.
  induction pairs as [| [w e] rest IH]; cbn [existsb ratios snd]; [discriminate |].
  intros H. destruct (e =? 0) eqn:E.
  - now rewrite truediv_zero.
  - rewrite truediv_nonzero by trivial. cbn [Py.bind]. now rewrite IH.
Qed.

(** C1: every metric computation whose formula has a zero denominator fails
    with [ZeroDivisionError], the failure carries no number, and it ends the
    whole pass of the script. *)
Theorem zero_denominator_raises (alg : Py.summation) :
  (forall u cc pi, (pi =? 0) = true ->
     chiller_performance u cc pi = Raise ZeroDivisionError) /\
  (forall cc pi, (cc =? 0) = true ->
     chiller_performance IP cc pi = Raise ZeroDivisionError) /\
  (forall cc pi, (cc / pi =? 0) = true ->
     chiller_performance SI cc pi = Raise ZeroDivisionError) /\
  (forall u fl hd pp, (pp =? 0) = true ->
     pump_performance u fl hd pp = Raise ZeroDivisionError) /\
  (forall a b c, ((a - b) + (b - c) =? 0) = true ->
     cooling_tower a b c = Raise ZeroDivisionError) /\
  (forall v1 v2 v3 v4, (v1 =? 0) || (v2 =? 0) || (v3 =? 0) || (v4 =? 0) = true ->
     calc_iplv alg [v1; v2; v3; v4] = Raise ZeroDivisionError) /\
  (forall values ts, ratios (combine weights values) = Ok ts ->
     (Py.sum alg ts =? 0) = true ->
     calc_iplv alg values = Raise ZeroDivisionError) /\
  (forall cap dT, (dT =? 0) = true -> flow_rate cap dT = Raise ZeroDivisionError) /\
  (forall i,
     Py.raises (chiller_performance (in_unit_system i) (cooling_capacity i) (power_input i))
     || Py.raises (pump_performance (in_unit_system i) (flow i) (head i) (pump_power i))
     || Py.raises (cooling_tower (cw_in i) (cw_out i) (wet_bulb i))
     || Py.raises (calc_iplv alg [kw_100 i; kw_75 i; kw_50 i; kw_25 i])
     || Py.raises (flow_rate (capacity_kw i) (delta_T i)) = true ->
     run alg i = Raise ZeroDivisionError).
Proof.
  repeat split.
  - intros u cc pi H. now apply power_input_zero.
  - intros cc pi H. unfold chiller_performance. now rewrite truediv_zero.
  - intros cc pi H. unfold chiller_performance.
    destruct (truediv_cases cc pi) as [-> | ->]; [reflexivity |]. cbn [Py.bind].
    now rewrite truediv_zero.
  - intros u fl hd pp H. unfold pump_performance.
    rewrite (truediv_nonzero _ 1000) by reflexivity. cbn [Py.bind].
    now rewrite truediv_zero.
  - intros a b c H. unfold cooling_tower. now rewrite truediv_zero.
  - intros v1 v2 v3 v4 H. unfold calc_iplv. rewrite ratios_zero; [reflexivity |].
    cbn [weights combine existsb snd]. rewrite orb_false_r, !orb_assoc. exact H.
  - intros values ts Hts H. unfold calc_iplv. rewrite Hts. cbn [Py.bind].
    now rewrite truediv_zero.
  - intros cap dT H. now apply delta_T_zero.
  - intros i H. unfold run.
    destruct (chiller_performance _ _ _) as [ch | e]; [| now rewrite (exn_unique e)].
    destruct (pump_performance _ _ _ _) as [pu | e]; [| now rewrite (exn_unique e)].
    destruct (cooling_tower _ _ _) as [tw | e]; [| now rewrite (exn_unique e)].
    destruct (calc_iplv _ _) as [ip | e]; [| now rewrite (exn_unique e)].
    destruct (flow_rate _ _) as [fr | e]; [| now rewrite (exn_unique e)].
    discriminate H.
Qed.

Lemma zero_denominator_raises_witness :
  chiller_performance SI 100 0 = Raise ZeroDivisionError.
Proof.
  apply (proj1 (zero_denominator_raises Py.Sequential)). reflexivity.
Defined.

(** *** IPLV *)

(** The four terms of the weighted sum, in input order. *)
Lemma ratios_weights v1 v2 v3 v4 :
  (v1 =? 0) = false -> (v2 =? 0) = false -> (v3 =? 0) = false -> (v4 =? 0) = false ->
  ratios (combine weights [v1; v2; v3; v4]) =
  Ok [0.01 / v1; 0.42 / v2; 0.45 / v3; 0.12 / v4].
Proof.
  intros H1 H2 H3 H4. cbn [weights combine ratios].
  now rewrite !truediv_nonzero by trivial.
Qed.

Lemma iplv_mixed_sign alg :
  calc_iplv alg [0.01; 0.42; -0.45; -0.12] = Raise ZeroDivisionError.
Proof. destruct alg; vm_compute; reflexivity. Qed.

Lemma iplv_example alg : calc_iplv alg [0.6; 0.65; 0.72; 0.85] = Ok 0.7.
Proof. destruct alg; vm_compute; reflexivity. Qed.

(** C2, as stated, fails twice: a tuple of nonzero values on which the
    computation raises, and the value for the spec's own example, which is
    [0.7] and not [0.702]. *)
Lemma calc_iplv_counterexample :
  ((0.01 =? 0) || (0.42 =? 0) || (-0.45 =? 0) || (-0.12 =? 0) = false /\
   calc_iplv Py.Sequential [0.01; 0.42; -0.45; -0.12] = Raise ZeroDivisionError /\
   calc_iplv Py.Compensated [0.01; 0.42; -0.45; -0.12] = Raise ZeroDivisionError) /\
  (calc_iplv Py.Sequential [0.6; 0.65; 0.72; 0.85] = Ok 0.7 /\
   calc_iplv Py.Compensated [0.6; 0.65; 0.72; 0.85] = Ok 0.7 /\
   (0.7 =? 0.702) = false).
Proof.
  repeat split; try apply iplv_mixed_sign; try apply iplv_example; reflexivity.
Qed.

(** C2 (amended): for nonzero inputs whose weighted sum is nonzero,
    [calc_iplv] returns the reciprocal of the sum of [weight / value], the
    weights [0.01, 0.42, 0.45, 0.12] taken in input order, rounded to three
    decimals; it raises when the sum is zero; on [0.6, 0.65, 0.72, 0.85] the
    result is [0.7]. *)
Theorem calc_iplv_spec (alg : Py.summation) (v1 v2 v3 v4 : float) :
  (v1 =? 0) = false -> (v2 =? 0) = false -> (v3 =? 0) = false -> (v4 =? 0) = false ->
  calc_iplv alg [v1; v2; v3; v4] =
    (if Py.sum alg [0.01 / v1; 0.42 / v2; 0.45 / v3; 0.12 / v4] =? 0
     then Raise ZeroDivisionError
     else Ok (Py.round (1 / Py.sum alg [0.01 / v1; 0.42 / v2; 0.45 / v3; 0.12 / v4]) 3))
  /\ Py.sum Py.Sequential [0.01 / v1; 0.42 / v2; 0.45 / v3; 0.12 / v4] =
     0 + 0.01 / v1 + 0.42 / v2 + 0.45 / v3 + 0.12 / v4
  /\ calc_iplv alg [0.6; 0.65; 0.72; 0.85] = Ok 0.7.
Proof.
  intros H1 H2 H3 H4. split; [| split; [reflexivity | apply iplv_example]].
  unfold calc_iplv. rewrite ratios_weights by trivial. cbn [Py.bind].
  unfold Py.truediv. now destruct (Py.sum alg _ =? 0).
Qed.

Lemma calc_iplv_spec_witness :
  calc_iplv Py.Sequential [0.6; 0.65; 0.72; 0.85] =
    (if Py.sum Py.Sequential [0.01 / 0.6; 0.42 / 0.65; 0.45 / 0.72; 0.12 / 0.85] =? 0
     then Raise ZeroDivisionError
     else Ok (Py.round
            (1 / Py.sum Py.Sequential [0.01 / 0.6; 0.42 / 0.65; 0.45 / 0.72; 0.12 / 0.85]) 3)).
Proof.
  apply (calc_iplv_spec Py.Sequential 0.6 0.65 0.72 0.85); reflexivity.
Defined.

(** *** Chiller *)

Lemma times_1000_nonzero x : (x =? 0) = false -> (x * 1000 =? 0) = false.
Proof. apply (nonzero_mul_r x 1000 _ _ _ SF_1000); [lia | vm_compute; discriminate]. Qed.

Lemma flow_denominator_nonzero dT :
  (dT =? 0) = false -> (cp * density_si * dT =? 0) = false.
Proof.
  apply (nonzero_mul_l dT (cp * density_si) _ _ _ SF_cp_density);
    [lia | vm_compute; discriminate].
Qed.

(** C3: under I-P units, positive capacity and power give
    [kw_per_ton = power_input / cooling_capacity],
    [eer = (cooling_capacity * 12000) / (power_input * 1000)] and
    [cop = eer / 3.412]. *)
Theorem chiller_performance_IP (cooling_capacity power_input : float) :
  (0 <? cooling_capacity) = true -> (0 <? power_input) = true ->
  chiller_performance IP cooling_capacity power_input =
    Ok {| cop := (cooling_capacity * 12000) / (power_input * 1000) / 3.412;
          eer := (cooling_capacity * 12000) / (power_input * 1000);
          kw_per_ton := power_input / cooling_capacity |}.
Proof.
  intros Hc Hp. unfold chiller_performance.
  rewrite truediv_nonzero by now apply positive_nonzero.
  cbn [Py.bind].
  rewrite truediv_nonzero by now apply times_1000_nonzero, positive_nonzero.
  cbn [Py.bind].
  rewrite truediv_nonzero by reflexivity.
  reflexivity.
Qed.

Lemma chiller_performance_IP_witness :
  chiller_performance IP 100 60 =
    Ok {| cop := (100 * 12000) / (60 * 1000) / 3.412;
          eer := (100 * 12000) / (60 * 1000);
          kw_per_ton := 60 / 100 |}.
Proof. apply chiller_performance_IP; reflexivity. Defined.

(** C4, as stated, fails: with the widgets' default values (100 kW, 60 kW)
    the script's [kw_per_ton] times its [cop] is [3.5000000000000004], and
    when the quotient overflows the product is not a number at all. *)
Lemma kw_per_ton_times_cop_counterexample :
  (chiller_performance SI 100 60 =
     Ok {| cop := 100 / 60; eer := 100 / 60 * 3.412; kw_per_ton := 3.5 / (100 / 60) |} /\
   3.5 / (100 / 60) * (100 / 60) = 3.5000000000000004 /\
   (3.5 / (100 / 60) * (100 / 60) =? 3.5) = false) /\
  (chiller_performance SI 1e200 1e-200 =
     Ok {| cop := infinity; eer := infinity; kw_per_ton := 0 |} /\
   is_nan (0 * infinity) = true).
Proof. repeat split; vm_compute; reflexivity. Qed.

(** C4 (amended): under SI units, with a nonzero power input and a nonzero
    quotient, [cop = cooling_capacity / power_input], [eer = cop * 3.412] and
    [kw_per_ton = 3.5 / cop], each a binary64 operation; so the float product
    [kw_per_ton * cop] is 3.5 or one of its two neighbours whenever
    [2^-1021 <= |cop| < 2^1023]; when [cop] is [5], [kw_per_ton] is [0.7] and
    the product is exactly [3.5]. *)
Theorem chiller_performance_SI (cooling_capacity power_input : float) :
  (power_input =? 0) = false -> (cooling_capacity / power_input =? 0) = false ->
  exists ch, chiller_performance SI cooling_capacity power_input = Ok ch /\
    cop ch = cooling_capacity / power_input /\
    eer ch = cop ch * 3.412 /\
    kw_per_ton ch = 3.5 / cop ch /\
    ((0x1p-1021 <=? abs (cop ch)) = true -> (abs (cop ch) <? 0x1p1023) = true ->
     (3.4999999999999996 <=? kw_per_ton ch * cop ch) = true /\
     (kw_per_ton ch * cop ch <=? 3.5000000000000004) = true) /\
    (cop ch = 5 -> kw_per_ton ch = 0.7 /\ kw_per_ton ch * cop ch = 3.5).
Proof.
  intros Hp Hc. eexists. split.
  - unfold chiller_performance. rewrite truediv_nonzero by trivial. cbn [Py.bind].
    now rewrite truediv_nonzero by trivial.
  - cbn [cop eer kw_per_ton]. repeat split.
    + now apply three_and_a_half_round_trip.
    + now apply three_and_a_half_round_trip.
    + now rewrite H.
    + now rewrite H.
Qed.

Lemma chiller_performance_SI_witness :
  exists ch, chiller_performance SI 300 60 = Ok ch /\
    cop ch = 300 / 60 /\
    eer ch = cop ch * 3.412 /\
    kw_per_ton ch = 3.5 / cop ch /\
    ((3.4999999999999996 <=? kw_per_ton ch * cop ch) = true /\
     (kw_per_ton ch * cop ch <=? 3.5000000000000004) = true) /\
    (kw_per_ton ch = 0.7 /\ kw_per_ton ch * cop ch = 3.5).
Proof.
  destruct (chiller_performance_SI 300 60 eq_refl eq_refl)
    as (ch & E & Hcop & Heer & Hkw & Hnear & Hfive).
  exists ch. repeat split; trivial;
    try (apply Hnear; rewrite Hcop; reflexivity);
    apply Hfive; rewrite Hcop; reflexivity.
Defined.

(** *** Flow rate and export *)

(** A pass that ends well went through every section. *)
Lemma run_ok alg i p :
  run alg i = Ok p ->
  exists ch pu tw iplv fr,
    chiller_performance (in_unit_system i) (cooling_capacity i) (power_input i) = Ok ch /\
    pump_performance (in_unit_system i) (flow i) (head i) (pump_power i) = Ok pu /\
    cooling_tower (cw_in i) (cw_out i) (wet_bulb i) = Ok tw /\
    calc_iplv alg [kw_100 i; kw_75 i; kw_50 i; kw_25 i] = Ok iplv /\
    flow_rate (capacity_kw i) (delta_T i) = Ok fr /\
    page_chart p = combine loads (cop_values (cop ch)) /\
    shown_iplv (page_banners p) = iplv /\
    IPLV_NPLV (page_data p) = iplv /\
    shown_flow_rate (page_banners p) = Py.round fr 3 /\
    Flow_Rate (page_data p) = fr.
Proof.
  unfold run.
  destruct (chiller_performance _ _ _) as [ch | e]; [| discriminate].
  destruct (pump_performance _ _ _ _) as [pu | e]; [| discriminate].
  destruct (cooling_tower _ _ _) as [tw | e]; [| discriminate].
  destruct (calc_iplv _ _) as [ip | e]; [| discriminate].
  destruct (flow_rate _ _) as [fr | e]; [| discriminate].
  cbn [Py.bind]. intros [= <-]. exists ch, pu, tw, ip, fr. cbn. repeat split.
Qed.

(** C5, as stated, fails: with the default inputs the CSV row holds the flow
    rate [0.039925524523574701] as computed, while its three-decimal rounding
    [0.04] goes to the banner only; the IPLV column, in contrast, holds the
    rounded number. *)
Lemma export_flow_rate_counterexample :
  exists p, run Py.Sequential (defaults SI) = Ok p /\
    Flow_Rate (page_data p) = 0.039925524523574701 /\
    Py.round (Flow_Rate (page_data p)) 3 = 0.04 /\
    (Flow_Rate (page_data p) =? Py.round (Flow_Rate (page_data p)) 3) = false /\
    shown_flow_rate (page_banners p) = 0.04.
Proof. eexists. split; [vm_compute; reflexivity |]. repeat split. Qed.

(** C5 (amended): for every capacity and nonzero temperature difference the
    flow rate is [capacity_kw / (4.187 * 997 * delta_T)], with these constants
    under either unit system; the script rounds it to three decimals for the
    banner only, and the CSV row holds the unrounded quotient. *)
Theorem flow_rate_spec (alg : Py.summation) :
  (forall capacity_kw delta_T, (delta_T =? 0) = false ->
     flow_rate capacity_kw delta_T = Ok (capacity_kw / (4.187 * 997 * delta_T))) /\
  (forall i p, run alg i = Ok p ->
     Flow_Rate (page_data p) = capacity_kw i / (4.187 * 997 * delta_T i) /\
     shown_flow_rate (page_banners p)
     = Py.round (capacity_kw i / (4.187 * 997 * delta_T i)) 3).
Proof.
  split.
  - intros cap dT H. unfold flow_rate.
    rewrite truediv_nonzero by now apply flow_denominator_nonzero. reflexivity.
  - intros i p H. destruct (run_ok alg i p H) as (ch & pu & tw & ip & fr & _ & _ & _ & _ & F & _ & _ & _ & S & D).
    unfold flow_rate, Py.truediv in F.
    destruct (cp * density_si * delta_T i =? 0); [discriminate |].
    injection F as <-. rewrite S, D. split; reflexivity.
Qed.

Lemma flow_rate_spec_witness :
  flow_rate 1000 6 = Ok (1000 / (4.187 * 997 * 6)).
Proof. apply (proj1 (flow_rate_spec Py.Sequential)). reflexivity. Defined.

(** *** Cooling tower *)

(** C6: whenever [(cw_in - cw_out) + (cw_out - wet_bulb)] is nonzero the tower
    section returns [range = cw_in - cw_out], [approach = cw_out - wet_bulb]
    and an effectiveness of [range / (range + approach)], shown and exported
    times 100; there is no check of the temperatures' order; on (35, 30, 28)
    the range is 5, the approach 2 and the effectiveness 71.43 %. *)
Theorem cooling_tower_spec (cw_in cw_out wet_bulb : float) :
  ((cw_in - cw_out) + (cw_out - wet_bulb) =? 0) = false ->
  (exists t, cooling_tower cw_in cw_out wet_bulb = Ok t /\
     range t = cw_in - cw_out /\
     approach t = cw_out - wet_bulb /\
     effectiveness_percent t =
       (cw_in - cw_out) / ((cw_in - cw_out) + (cw_out - wet_bulb)) * 100) /\
  (exists t, cooling_tower 30 35 28 = Ok t /\ range t = -5) /\
  (exists t, cooling_tower 35 30 28 = Ok t /\
     range t = 5 /\ approach t = 2 /\
     effectiveness_percent t = 71.428571428571431 /\
     Py.round (effectiveness_percent t) 2 = 71.43).
Proof.
  intros H. split; [| split].
  - unfold cooling_tower. rewrite truediv_nonzero by trivial.
    eexists. split; [reflexivity |]. repeat split.
  - eexists. split; [vm_compute; reflexivity |]. reflexivity.
  - eexists. split; [vm_compute; reflexivity |]. repeat split.
Qed.

Lemma cooling_tower_spec_witness :
  exists t, cooling_tower 35 30 28 = Ok t /\
    range t = 35 - 30 /\ approach t = 30 - 28 /\
    effectiveness_percent t = (35 - 30) / ((35 - 30) + (30 - 28)) * 100.
Proof. apply (proj1 (cooling_tower_spec 35 30 28 eq_refl)). Defined.

(** *** Pump *)

Lemma pump_performance_ok u flow head pump_power :
  (pump_power =? 0) = false ->
  pump_performance u flow head pump_power =
    Ok {| hydraulic_power := flow * head * density u * g u / 1000;
          efficiency := flow * head * density u * g u / 1000 / pump_power * 100 |}.
Proof.
  intros H. unfold pump_performance. rewrite (truediv_nonzero _ 1000) by reflexivity.
  cbn [Py.bind]. now rewrite truediv_nonzero by trivial.
Qed.

(** C7: with a nonzero pump power the pump section returns
    [hydraulic_power = flow * head * density * g / 1000] and
    [efficiency = hydraulic_power / pump_power * 100], where [density] and [g]
    are 1000 and 9.81 under SI and 62.4 * 1.3558 and 32.174 under I-P; on
    (0.02, 30, 6, SI) the hydraulic power is 5.886 and the efficiency 98.1. *)
Theorem pump_performance_spec (u : unit_system) (flow head pump_power : float) :
  (pump_power =? 0) = false ->
  pump_performance u flow head pump_power =
    Ok {| hydraulic_power := flow * head * density u * g u / 1000;
          efficiency := flow * head * density u * g u / 1000 / pump_power * 100 |}
  /\ (density SI = 1000 /\ g SI = 9.81)
  /\ (density IP = 62.4 * 1.3558 /\ g IP = 32.174)
  /\ pump_performance SI 0.02 30 6 = Ok {| hydraulic_power := 5.886; efficiency := 98.1 |}.
Proof.
  intros H. repeat split. now apply pump_performance_ok.
Qed.

Lemma pump_performance_spec_witness :
  pump_performance SI 0.02 30 6 =
    Ok {| hydraulic_power := 0.02 * 30 * density SI * g SI / 1000;
          efficiency := 0.02 * 30 * density SI * g SI / 1000 / 6 * 100 |}.
Proof. apply (pump_performance_spec SI 0.02 30 6 eq_refl). Defined.

(** *** COP against load *)

(** The de-rating factors at the four default load points. *)
Lemma derating_25 :
  Prim2SF (1 - 0.1 * (1 - Py.of_int 25 / 100)) = S754_finite false 8331659310635418 (-53).
Proof. vm_compute. reflexivity. Qed.

Lemma derating_50 :
  Prim2SF (1 - 0.1 * (1 - Py.of_int 50 / 100)) = S754_finite false 8556839292003942 (-53).
Proof. vm_compute. reflexivity. Qed.

Lemma derating_75 :
  Prim2SF (1 - 0.1 * (1 - Py.of_int 75 / 100)) = S754_finite false 8782019273372467 (-53).
Proof. vm_compute. reflexivity. Qed.

Lemma derating_100 : 1 - 0.1 * (1 - Py.of_int 100 / 100) = 1.
Proof. vm_compute. reflexivity. Qed.

Lemma cop_values_unfold cop :
  cop_values cop =
  [cop * (1 - 0.1 * (1 - Py.of_int 25 / 100));
   cop * (1 - 0.1 * (1 - Py.of_int 50 / 100));
   cop * (1 - 0.1 * (1 - Py.of_int 75 / 100));
   cop * (1 - 0.1 * (1 - Py.of_int 100 / 100))].
Proof. reflexivity. Qed.

Lemma cop_values_at_100 cop : nth 3 (cop_values cop) 0 = cop.
Proof. rewrite cop_values_unfold. cbn [nth]. rewrite derating_100. apply mul_1_r. Qed.

Lemma cop_values_nondecreasing cop :
  (0 <? cop) = true -> chain leb (cop_values cop) = true.
Proof.
  intros H. destruct (positive_spec cop H) as [E | (m & e & E)].
  - assert (cop = infinity) as -> by (apply Prim2SF_inj; rewrite E; reflexivity).
    vm_compute. reflexivity.
  - rewrite cop_values_unfold. cbn [chain].
    rewrite (mul_le_mul cop m e E _ _ _ _ _ derating_25 derating_50) by (vm_compute; discriminate).
    rewrite (mul_le_mul cop m e E _ _ _ _ _ derating_50 derating_75) by (vm_compute; discriminate).
    rewrite derating_100, mul_1_r.
    rewrite (mul_le_self cop m e E _ _ _ derating_75) by (try lia; vm_compute; discriminate).
    reflexivity.
Qed.

Lemma cop_values_increasing cop :
  (0x1p-1022 <=? cop) = true -> (cop <? infinity) = true ->
  chain ltb (cop_values cop) = true.
Proof.
  intros H1 H2. destruct (normal_spec cop H1 H2) as (m & e & E & N).
  rewrite cop_values_unfold. cbn [chain].
  rewrite (mul_lt_mul cop m e E N _ _ _ _ derating_25 derating_50) by lia.
  rewrite (mul_lt_mul cop m e E N _ _ _ _ derating_50 derating_75) by lia.
  rewrite derating_100, mul_1_r.
  rewrite (mul_lt_self cop m e E N _ _ derating_75) by (vm_compute; discriminate).
  reflexivity.
Qed.

(** C8, as stated, fails: for the smallest positive float the four values of
    the curve are all equal, and so they are when [cop] has overflowed to
    infinity (SI mode, 1e200 kW over 1e-200 kW). *)
Lemma cop_values_counterexample :
  ((0 <? 0x1p-1074) = true /\
   cop_values 0x1p-1074 = [0x1p-1074; 0x1p-1074; 0x1p-1074; 0x1p-1074] /\
   chain ltb (cop_values 0x1p-1074) = false) /\
  ((0 <? 1e200 / 1e-200) = true /\
   cop_values (1e200 / 1e-200) = [infinity; infinity; infinity; infinity] /\
   chain ltb (cop_values (1e200 / 1e-200)) = false).
Proof. repeat split; vm_compute; reflexivity. Qed.

(** C8 (amended): each load point [l] is mapped on its own to
    [cop * (1 - 0.1 * (1 - l / 100))]; over the loads [25, 50, 75, 100] the
    value at 100 is [cop] itself, the values never decrease when [cop > 0],
    and they strictly increase when [cop] is a normal finite number
    ([2^-1022 <= cop < infinity]). *)
Theorem cop_values_spec (cop : float) :
  (forall loadPercents,
     cop_curve cop loadPercents =
     map (fun l => cop * (1 - 0.1 * (1 - Py.of_int l / 100))) loadPercents) /\
  (forall loadPercents k,
     nth_error (cop_curve cop loadPercents) k =
     option_map (fun l => cop * (1 - 0.1 * (1 - Py.of_int l / 100)))
                (nth_error loadPercents k)) /\
  cop_values cop = cop_curve cop [25; 50; 75; 100]%Z /\
  nth 3 (cop_values cop) 0 = cop /\
  ((0 <? cop) = true -> chain leb (cop_values cop) = true) /\
  ((0x1p-1022 <=? cop) = true -> (cop <? infinity) = true ->
   chain ltb (cop_values cop) = true).
Proof.
  split; [reflexivity |]. split; [| split; [reflexivity | split; [| split]]].
  - intros ls k. unfold cop_curve. apply nth_error_map.
  - apply cop_values_at_100.
  - apply cop_values_nondecreasing.
  - apply cop_values_increasing.
Qed.

Lemma cop_values_spec_witness :
  chain leb (cop_values 5) = true /\ chain ltb (cop_values 5) = true.
Proof.
  destruct (cop_values_spec 5) as (_ & _ & _ & _ & Hle & Hlt).
  split; [apply Hle | apply Hlt]; reflexivity.
Defined.

(** *** Pump: zero flow, zero head *)

Lemma is_finite_density u : is_finite (density u) = true.
Proof. destruct u; reflexivity. Qed.

Lemma is_finite_g u : is_finite (g u) = true.
Proof. destruct u; reflexivity. Qed.

Lemma hydraulic_power_zero u flow head :
  is_finite flow = true -> is_finite head = true ->
  (flow =? 0) || (head =? 0) = true ->
  (flow * head * density u * g u / 1000 =? 0) = true.
Proof.
  intros Ff Fh H.
  assert (Z1 : (flow * head =? 0) = true).
  { apply orb_true_iff in H as [H | H]; [apply zero_mul_l | apply zero_mul_r]; trivial. }
  apply zero_div; [| reflexivity | reflexivity].
  apply zero_mul_l; [| apply is_finite_g].
  apply zero_mul_l; [exact Z1 | apply is_finite_density].
Qed.

(** C9: with a nonzero pump power the pump section never raises, under either
    unit system; a zero flow or a zero head (the form delivers finite numbers)
    is accepted and gives a hydraulic power and an efficiency equal to zero. *)
Theorem pump_performance_total (u : unit_system) (flow head pump_power : float) :
  (pump_power =? 0) = false ->
  Py.raises (pump_performance u flow head pump_power) = false /\
  (is_finite flow = true -> is_finite head = true -> is_nan pump_power = false ->
   (flow =? 0) || (head =? 0) = true ->
   exists p, pump_performance u flow head pump_power = Ok p /\
     (hydraulic_power p =? 0) = true /\ (efficiency p =? 0) = true).
Proof.
  intros Hp.
  pose proof (pump_performance_ok u flow head pump_power Hp) as E.
  split; [now rewrite E |].
  intros Ff Fh Np H. eexists. split; [exact E |]. cbn [hydraulic_power efficiency].
  pose proof (hydraulic_power_zero u flow head Ff Fh H) as Z.
  split; [exact Z |].
  apply zero_mul_l; [| reflexivity]. now apply zero_div.
Qed.

Lemma pump_performance_total_witness :
  Py.raises (pump_performance SI 0 30 6) = false /\
  exists p, pump_performance SI 0 30 6 = Ok p /\
    (hydraulic_power p =? 0) = true /\ (efficiency p =? 0) = true.
Proof.
  destruct (pump_performance_total SI 0 30 6 eq_refl) as [H1 H2].
  split; [exact H1 | apply H2; reflexivity].
Defined.

(** *** IPLV: a zero sum of nonzero terms *)

(** C10: nonzero inputs do not make [calc_iplv] succeed: with values of mixed
    sign the weighted sum itself is zero, and the reciprocal raises. *)
Theorem calc_iplv_nonzero_inputs_can_raise (alg : Py.summation) :
  exists v1 v2 v3 v4 : float,
    (v1 =? 0) = false /\ (v2 =? 0) = false /\ (v3 =? 0) = false /\ (v4 =? 0) = false /\
    ratios (combine weights [v1; v2; v3; v4]) =
      Ok [0.01 / v1; 0.42 / v2; 0.45 / v3; 0.12 / v4] /\
    (Py.sum alg [0.01 / v1; 0.42 / v2; 0.45 / v3; 0.12 / v4] =? 0) = true /\
    calc_iplv alg [v1; v2; v3; v4] = Raise ZeroDivisionError.
Proof.
  exists 0.01, 0.42, (-0.45), (-0.12).
  repeat split; try reflexivity.
  - destruct alg; reflexivity.
  - apply iplv_mixed_sign.
Qed.

(** * Further properties of the script

    The claims above needed the rounding of products only.  The properties
    below are about differences, sums and quotients as well, so this part
    first describes every binary64 operation of the script as the exact
    result rounded to nearest, [RN], on values counted in units of
    [2^-1074]. *)

(** ** Rounding to nearest, operation by operation *)

Section Nearest.
Local Open Scope Z_scope.

(** *** Scaling and monotonicity of the rounding *)

Lemma infinity_mag_pos : 0 < infinity_mag.
Proof. reflexivity. Qed.

Lemma one_mag_pos : 0 < one_mag.
Proof. reflexivity. Qed.

Lemma div_half_even_scale n d c :
  0 < d -> 0 < c -> Py.div_half_even (n * c) (d * c) = Py.div_half_even n d.
Proof.
  intros Hd Hc. unfold Py.div_half_even.
  rewrite Z.div_mul_cancel_r by lia.
  rewrite Zmult_mod_distr_r.
  replace (2 * (n mod d * c)) with (2 * (n mod d) * c) by ring.
  rewrite <- Zmult_compare_compat_r by lia. reflexivity.
Qed.

Lemma div_half_even_mono_frac n d n' d' :
  0 < d -> 0 < d' -> n * d' <= n' * d ->
  Py.div_half_even n d <= Py.div_half_even n' d'.
Proof.
  intros Hd Hd' H.
  rewrite <- (div_half_even_scale n d d') by trivial.
  rewrite <- (div_half_even_scale n' d' d) by trivial.
  rewrite (Z.mul_comm d' d). apply div_half_even_mono; [lia | trivial].
Qed.

Lemma Zdigits2_nonneg m : 0 <= Zdigits2 m.
Proof. destruct m; cbn; lia. Qed.

Lemma Zdigits2_mono0 m m' : 0 <= m <= m' -> Zdigits2 m <= Zdigits2 m'.
Proof.
  intros [H0 H]. destruct (Z.eq_dec m 0) as [-> | N].
  - apply Zdigits2_nonneg.
  - apply Zdigits2_mono. lia.
Qed.

Lemma Zdigits2_mul_pow2 m j : 0 < m -> 0 <= j -> Zdigits2 (m * 2 ^ j) = Zdigits2 m + j.
Proof.
  intros Hm Hj. pose proof (pow2_pos j Hj). pose proof (Zdigits2_pos m Hm).
  destruct (Zdigits2_bounds m Hm).
  apply Zdigits2_unique; [| lia].
  replace (Zdigits2 m + j - 1) with ((Zdigits2 m - 1) + j) by lia.
  rewrite !pow2_split by lia. nia.
Qed.

Lemma Zdigits2_div_pow2 m t :
  0 < m -> 0 <= t -> Zdigits2 (m / 2 ^ t) = Z.max 0 (Zdigits2 m - t).
Proof.
  intros Hm Ht. pose proof (pow2_pos t Ht) as Pt. pose proof (Zdigits2_pos m Hm).
  destruct (Zdigits2_bounds m Hm) as [Lo Hi].
  destruct (Z.le_gt_cases (Zdigits2 m) t) as [L | G].
  - assert (2 ^ Zdigits2 m <= 2 ^ t) by (apply Z.pow_le_mono_r; lia).
    rewrite Z.div_small by lia. cbn. lia.
  - replace (Z.max 0 (Zdigits2 m - t)) with (Zdigits2 m - t) by lia.
    assert (E1 : 2 ^ (Zdigits2 m - 1) = 2 ^ (Zdigits2 m - t - 1) * 2 ^ t)
      by (rewrite <- pow2_split by lia; f_equal; lia).
    assert (E2 : 2 ^ Zdigits2 m = 2 ^ (Zdigits2 m - t) * 2 ^ t)
      by (rewrite <- pow2_split by lia; f_equal; lia).
    assert (Q : 2 ^ (Zdigits2 m - t - 1) <= m / 2 ^ t < 2 ^ (Zdigits2 m - t)).
    { split; [apply Z.div_le_lower_bound | apply Z.div_lt_upper_bound]; lia. }
    pose proof (pow2_pos (Zdigits2 m - t - 1) ltac:(lia)).
    apply Zdigits2_unique; lia.
Qed.

Lemma div_le_frac n d n' d' :
  0 < d -> 0 < d' -> n * d' <= n' * d -> n / d <= n' / d'.
Proof.
  intros Hd Hd' H.
  rewrite <- (Z.div_mul_cancel_r n d d') by lia.
  rewrite <- (Z.div_mul_cancel_r n' d' d) by lia.
  rewrite (Z.mul_comm d' d). apply Z.div_le_mono; lia.
Qed.

(** Two fractions that are equal round alike. *)
Lemma RN_scale n d c : 0 < d -> 0 < c -> RN (n * c) (d * c) = RN n d.
Proof.
  intros Hd Hc. unfold RN. rewrite Z.div_mul_cancel_r by lia.
  set (j := Z.max 0 (Zdigits2 (n / d) - 53)).
  pose proof (pow2_pos j ltac:(lia)).
  replace (d * c * 2 ^ j) with (d * 2 ^ j * c) by ring.
  rewrite div_half_even_scale by lia. reflexivity.
Qed.

Lemma RN_eq n d n' d' : 0 < d -> 0 < d' -> n * d' = n' * d -> RN n d = RN n' d'.
Proof.
  intros Hd Hd' H.
  rewrite <- (RN_scale n d d'), <- (RN_scale n' d' d) by trivial.
  rewrite H. f_equal. ring.
Qed.

(** Rounding to nearest is monotone. *)
Lemma RN_mono n d n' d' :
  0 <= n -> 0 < d -> 0 < d' -> n * d' <= n' * d -> RN n d <= RN n' d'.
Proof.
  intros Hn Hd Hd' H. unfold RN. apply Z.min_le_compat_r.
  assert (Hn' : 0 <= n') by nia.
  assert (Hq0 : 0 <= n / d) by (apply Z.div_pos; lia).
  pose proof (div_le_frac n d n' d' Hd Hd' H) as Hq.
  pose proof (Zdigits2_mono0 (n / d) (n' / d') ltac:(lia)) as Hdg.
  set (q := n / d) in *. set (q' := n' / d') in *.
  set (j := Z.max 0 (Zdigits2 q - 53)). set (j' := Z.max 0 (Zdigits2 q' - 53)).
  pose proof (pow2_pos j ltac:(lia)) as Pj. pose proof (pow2_pos j' ltac:(lia)) as Pj'.
  destruct (Z.eq_dec j j') as [E | NE].
  - rewrite <- E. apply Z.mul_le_mono_nonneg_r; [lia |].
    apply div_half_even_mono_frac; nia.
  - assert (Hj : j < j') by lia.
    assert (Hj' : j' = Zdigits2 q' - 53) by lia.
    assert (Hq' : 0 < q').
    { destruct (Z.eq_dec q' 0) as [Z0 | ]; [| lia]. rewrite Z0 in Hj'. cbn in Hj'. lia. }
    destruct (Zdigits2_bounds q' Hq') as [Lo' _].
    assert (Hlt : q < 2 ^ (Zdigits2 q' - 1)).
    { destruct (Z.eq_dec q 0) as [-> | NZ]; [apply pow2_pos; lia |].
      destruct (Zdigits2_bounds q ltac:(lia)) as [_ Hi].
      assert (2 ^ Zdigits2 q <= 2 ^ (Zdigits2 q' - 1)) by (apply Z.pow_le_mono_r; lia). lia. }
    set (P := 2 ^ (Zdigits2 q' - 1)) in *.
    assert (EP : P = 2 ^ (Zdigits2 q' - 1 - j) * 2 ^ j)
      by (unfold P; rewrite <- pow2_split by lia; f_equal; lia).
    assert (EP' : P = 2 ^ 52 * 2 ^ j')
      by (unfold P; rewrite <- pow2_split by lia; f_equal; lia).
    assert (N1 : n <= P * d).
    { pose proof (Z.mod_pos_bound n d Hd). pose proof (Z.div_mod n d ltac:(lia)).
      fold q in H1. nia. }
    assert (N2 : P * d' <= n').
    { pose proof (Z.mod_pos_bound n' d' Hd'). pose proof (Z.div_mod n' d' ltac:(lia)).
      fold q' in H1. nia. }
    transitivity P.
    + rewrite EP at 1. apply Z.mul_le_mono_nonneg_r; [lia |].
      rewrite <- (div_half_even_exact (2 ^ (Zdigits2 q' - 1 - j)) (d * 2 ^ j)) by lia.
      apply div_half_even_mono; [lia |].
      replace (2 ^ (Zdigits2 q' - 1 - j) * (d * 2 ^ j)) with (P * d) by (rewrite EP; ring).
      exact N1.
    + rewrite EP' at 1. apply Z.mul_le_mono_nonneg_r; [lia |].
      rewrite <- (div_half_even_exact (2 ^ 52) (d' * 2 ^ j')) at 1 by lia.
      apply div_half_even_mono; [lia |].
      replace (2 ^ 52 * (d' * 2 ^ j')) with (P * d') by (rewrite EP'; ring).
      exact N2.
Qed.

Lemma RN_0 d : 0 < d -> RN 0 d = 0.
Proof.
  intros Hd. unfold RN. rewrite Zdiv_0_l. cbn [Zdigits2]. change (Z.max 0 (0 - 53)) with 0.
  change (2 ^ 0) with 1. rewrite !Z.mul_1_r.
  unfold Py.div_half_even. rewrite Zdiv_0_l, Zmod_0_l.
  destruct d; try lia. reflexivity.
Qed.

(** *** Floats and rounded products as roundings *)

(** A float is its own rounding. *)
Lemma RN_exact s m e :
  bounded prec emax m e = true -> RN (mag (S754_finite s m e)) 1 = mag (S754_finite s m e).
Proof.
  intros Hb. destruct (bounded_inv m e Hb) as (Hd & He & Hn & Hlo & Hhi).
  pose proof (mag_finite_lt s m e Hb) as [_ Hcap]. cbn [mag] in *.
  change (2 ^ 2098) with infinity_mag in Hcap. unfold RN. rewrite Z.div_1_r, Z.mul_1_l.
  rewrite Zdigits2_mul_pow2 by lia. cbn [Zdigits2].
  destruct (Z.eq_dec e (-1074)) as [-> | Ne].
  - replace (Z.max 0 (Zpos (digits2_pos m) + (-1074 + 1074) - 53)) with 0 by lia.
    change (2 ^ 0) with 1. rewrite div_half_even_1. lia.
  - rewrite Hn by lia.
    replace (Z.max 0 (53 + (e + 1074) - 53)) with (e + 1074) by lia.
    rewrite div_half_even_exact by (apply pow2_pos; lia). lia.
Qed.

(** The gap below the smallest positive float: anything of at least one unit
    rounds to at least one unit. *)
Lemma RN_pos n d : 0 < d -> d <= n -> 1 <= RN n d.
Proof.
  intros Hd Hn.
  assert (E : RN 1 1 = 1) by reflexivity.
  rewrite <- E at 1. apply RN_mono; lia.
Qed.

(** [rvalue], the magnitude of a rounded product, in terms of [RN]. *)
Lemma rvalue_RN m e :
  0 < m -> 0 <= round_shift m e ->
  rvalue m e = RN (m * 2 ^ Z.max 0 (e + 1074)) (2 ^ Z.max 0 (- e - 1074)).
Proof.
  intros Hm Hk. unfold rvalue, RN, rounded, infinity_mag.
  set (k := round_shift m e) in *.
  assert (Ek : k = Z.max (Zdigits2 m - 53) (- e - 1074)).
  { unfold k, round_shift. rewrite fexp_eq. lia. }
  pose proof (Zdigits2_pos m Hm) as Hd.
  destruct (Z.le_gt_cases 0 (e + 1074)) as [U | U].
  - replace (Z.max 0 (e + 1074)) with (e + 1074) by lia.
    replace (Z.max 0 (- e - 1074)) with 0 by lia. change (2 ^ 0) with 1.
    rewrite Z.div_1_r, Z.mul_1_l, Zdigits2_mul_pow2 by lia.
    replace (Z.max 0 (Zdigits2 m + (e + 1074) - 53)) with (k + (e + 1074)) by lia.
    rewrite (pow2_split k (e + 1074)) by lia.
    rewrite div_half_even_scale by (apply pow2_pos; lia).
    rewrite <- pow2_split by lia. do 3 f_equal. lia.
  - replace (Z.max 0 (e + 1074)) with 0 by lia.
    replace (Z.max 0 (- e - 1074)) with (- e - 1074) by lia. change (2 ^ 0) with 1.
    rewrite Z.mul_1_r, Zdigits2_div_pow2 by lia.
    replace (Z.max 0 (Z.max 0 (Zdigits2 m - (- e - 1074)) - 53)) with (e + k + 1074) by lia.
    rewrite <- pow2_split by lia.
    replace (- e - 1074 + (e + k + 1074)) with k by lia. reflexivity.
Qed.

(** *** Quotients: the shift record of a division *)

Lemma quotient_record_loc n d :
  0 < d -> 0 <= n ->
  shr_record_of_loc (n / d) (new_location d (n mod d)) = quotient_record n d.
Proof.
  intros Hd Hn. pose proof (Z.mod_pos_bound n d Hd) as Hr.
  rewrite new_location_cases by trivial. unfold quotient_record.
  destruct (Z.eqb_spec (n mod d) 0) as [E | E].
  - rewrite E. cbn [shr_record_of_loc orb negb]. f_equal.
    symmetry. apply Z.leb_gt. lia.
  - cbn [orb]. destruct (Z.compare_spec (2 * (n mod d)) d) as [C | C | C];
      cbn [shr_record_of_loc]; f_equal;
      try (apply Z.leb_le; lia); try (symmetry; apply Z.leb_gt; lia);
      try (symmetry; apply Z.leb_le; lia);
      destruct (Z.eqb_spec (2 * (n mod d)) d); trivial; lia.
Qed.

Lemma quotient_record_shr_1 n d :
  0 < d -> 0 <= n -> shr_1 (quotient_record n d) = quotient_record n (2 * d).
Proof.
  intros Hd Hn. pose proof (Z.mod_pos_bound n d Hd) as Hr.
  assert (Hq : 0 <= n / d) by (apply Z.div_pos; lia).
  assert (Eq2 : n / (2 * d) = n / d / 2) by (rewrite (Z.mul_comm 2 d), Z.div_div; lia).
  assert (Er2 : n mod (2 * d) = n mod d + d * ((n / d) mod 2))
    by (rewrite (Z.mul_comm 2 d); apply Z.rem_mul_r; lia).
  pose proof (Z.mod_pos_bound (n / d) 2 ltac:(lia)) as Hb.
  unfold quotient_record. rewrite shr_1_nonneg by trivial.
  rewrite Eq2, Er2, Zodd_mod.
  assert (Hb' : (n / d) mod 2 = 0 \/ (n / d) mod 2 = 1) by lia.
  destruct Hb' as [-> | ->]; rewrite ?Z.mul_0_r, ?Z.mul_1_r, ?Z.add_0_r;
    cbn [Z.eqb]; f_equal.
  1, 3: symmetry; (apply Z.leb_gt; lia) || (apply Z.leb_le; lia).
  all: destruct (Z.leb_spec d (2 * (n mod d)));
      destruct (Z.eqb_spec (n mod d) 0);
      destruct (Z.eqb_spec (2 * (n mod d)) d);
      try destruct (Z.eqb_spec (n mod d + d) 0);
      try destruct (Z.eqb_spec (2 * (n mod d + d)) (2 * d));
      try destruct (Z.eqb_spec (2 * (n mod d)) (2 * d));
      cbn; trivial; lia.
Qed.

Lemma quotient_record_iter n d p :
  0 < d -> 0 <= n ->
  Pos.iter shr_1 (quotient_record n d) p = quotient_record n (d * 2 ^ Zpos p).
Proof.
  intros Hd Hn. induction p as [| p IH] using Pos.peano_ind.
  - cbn [Pos.iter]. rewrite quotient_record_shr_1 by trivial.
    f_equal. change (2 ^ 1) with 2. lia.
  - rewrite Pos.iter_succ, IH.
    pose proof (pow2_pos (Zpos p) ltac:(lia)).
    rewrite quotient_record_shr_1 by (trivial; nia).
    f_equal. rewrite Pos2Z.inj_succ. unfold Z.succ.
    rewrite (pow2_split (Zpos p) 1) by lia. change (2 ^ 1) with 2. ring.
Qed.

Lemma quotient_record_round n d :
  0 < d -> 0 <= n ->
  round_nearest_even (shr_m (quotient_record n d))
                     (loc_of_shr_record (quotient_record n d)) = Py.div_half_even n d.
Proof.
  intros Hd Hn. pose proof (Z.mod_pos_bound n d Hd) as Hr.
  unfold quotient_record, Py.div_half_even. cbn [shr_m loc_of_shr_record].
  destruct (Z.leb_spec d (2 * (n mod d)));
    destruct (Z.eqb_spec (n mod d) 0);
    destruct (Z.eqb_spec (2 * (n mod d)) d);
    destruct (Z.compare_spec (2 * (n mod d)) d);
    cbn [orb negb round_nearest_even]; trivial; lia.
Qed.

(** The first rounding step on a quotient with its remainder's position. *)
Lemma shr_fexp_quotient n d e :
  0 < d -> 0 <= n -> 0 <= round_shift (n / d) e ->
  shr_fexp prec emax (n / d) e (new_location d (n mod d)) =
    (quotient_record n (d * 2 ^ round_shift (n / d) e), e + round_shift (n / d) e).
Proof.
  intros Hd Hn Hk. unfold shr_fexp, shr. fold (round_shift (n / d) e).
  rewrite quotient_record_loc by trivial.
  destruct (round_shift (n / d) e) as [| p | p] eqn:E; try lia.
  - change (2 ^ 0) with 1. rewrite Z.mul_1_r, Z.add_0_r. reflexivity.
  - rewrite iter_pos_iter, quotient_record_iter by trivial. reflexivity.
Qed.

Lemma quotient_lt n d j : 0 < d -> 0 <= j -> n / d < 2 ^ j -> n < d * 2 ^ j.
Proof.
  intros Hd Hj H. pose proof (Z.mod_pos_bound n d Hd). pose proof (Z.div_mod n d ltac:(lia)).
  nia.
Qed.

Lemma quotient_ge n d j : 0 < d -> 0 <= j -> 2 ^ j <= n / d -> d * 2 ^ j <= n.
Proof.
  intros Hd Hj H. pose proof (Z.mod_pos_bound n d Hd). pose proof (Z.div_mod n d ltac:(lia)).
  nia.
Qed.

(** Bounds on the rounded mantissa of a quotient. *)
Lemma quotient_bounds n d e :
  0 < d -> 0 <= n -> 0 <= round_shift (n / d) e ->
  -1074 <= e + round_shift (n / d) e /\
  0 <= Py.div_half_even n (d * 2 ^ round_shift (n / d) e) <= 2 ^ 53 /\
  (-1074 < e + round_shift (n / d) e ->
   2 ^ 52 <= Py.div_half_even n (d * 2 ^ round_shift (n / d) e)).
Proof.
  intros Hd Hn Hk.
  set (q := n / d) in *. set (k := round_shift q e) in *.
  assert (Hq : 0 <= q) by (apply Z.div_pos; lia).
  assert (Ek : k = Z.max (Zdigits2 q + e - 53) (-1074) - e) by reflexivity.
  pose proof (pow2_pos k Hk) as Pk.
  assert (Hdk : 0 < d * 2 ^ k) by nia.
  pose proof (Zdigits2_nonneg q) as Dq.
  split; [lia |]. split; [split |].
  - pose proof (div_half_even_floor n (d * 2 ^ k) Hdk).
    assert (0 <= n / (d * 2 ^ k)) by (apply Z.div_pos; lia). lia.
  - rewrite <- (div_half_even_exact (2 ^ 53) (d * 2 ^ k)) by trivial.
    apply div_half_even_mono; trivial.
    assert (Hlt : q < 2 ^ (53 + k)).
    { destruct (Z.eq_dec q 0) as [-> | NZ]; [apply pow2_pos; lia |].
      destruct (Zdigits2_bounds q ltac:(lia)) as [_ Hi].
      assert (2 ^ Zdigits2 q <= 2 ^ (53 + k)) by (apply Z.pow_le_mono_r; lia). lia. }
    apply quotient_lt in Hlt; [| lia | lia].
    rewrite (pow2_split 53 k) in Hlt by lia. lia.
  - intros He.
    assert (NZ : q <> 0). { intros Z0. rewrite Z0 in Ek. cbn [Zdigits2] in Ek. lia. }
    destruct (Zdigits2_bounds q ltac:(lia)) as [Lo _].
    replace (Zdigits2 q - 1) with (52 + k) in Lo by lia.
    apply quotient_ge in Lo; [| lia | lia].
    rewrite (pow2_split 52 k) in Lo by lia.
    rewrite <- (div_half_even_exact (2 ^ 52) (d * 2 ^ k)) at 1 by trivial.
    apply div_half_even_mono; trivial. lia.
Qed.

(** Rounding a quotient: the float nearest to [n / d * 2^e]. *)
Lemma binary_round_aux_quotient s n d e :
  0 < d -> 0 <= n -> 0 <= round_shift (n / d) e ->
  binary_round_aux prec emax s (n / d) e (new_location d (n mod d)) =
    round_result s (Py.div_half_even n (d * 2 ^ round_shift (n / d) e))
                 (e + round_shift (n / d) e) /\
  mag (binary_round_aux prec emax s (n / d) e (new_location d (n mod d))) =
    Z.min (Py.div_half_even n (d * 2 ^ round_shift (n / d) e)
           * 2 ^ (e + round_shift (n / d) e + 1074)) (2 ^ 2098).
Proof.
  intros Hd Hn Hk.
  destruct (quotient_bounds n d e Hd Hn Hk) as (B1 & B2 & B3).
  pose proof (pow2_pos _ Hk) as Pk.
  assert (E : binary_round_aux prec emax s (n / d) e (new_location d (n mod d)) =
              round_result s (Py.div_half_even n (d * 2 ^ round_shift (n / d) e))
                           (e + round_shift (n / d) e)).
  { apply binary_round_aux_stage2
      with (mrs := quotient_record n (d * 2 ^ round_shift (n / d) e)); trivial.
    - apply shr_fexp_quotient; trivial.
    - apply quotient_record_round; [nia | trivial]. }
  split; [exact E |]. rewrite E. apply mag_round_result; trivial.
Qed.

(** *** The division of two finite numbers *)

Lemma Zdigits2_quotient_mul_pow2 n d t :
  0 < d -> d <= n -> 0 <= t -> Zdigits2 (n * 2 ^ t / d) = Zdigits2 (n / d) + t.
Proof.
  intros Hd Hn Ht.
  assert (Hq : 0 < n / d) by (apply Z.div_str_pos; lia).
  destruct (Zdigits2_bounds (n / d) Hq) as [Lo Hi].
  pose proof (Zdigits2_pos (n / d) Hq) as Dp.
  set (k := Zdigits2 (n / d)) in *.
  pose proof (pow2_pos t Ht) as Pt.
  apply quotient_ge in Lo; [| lia | lia].
  apply quotient_lt in Hi; [| lia | lia].
  assert (0 < n * 2 ^ t / d) by (apply Z.div_str_pos; nia).
  apply Zdigits2_unique; [| trivial].
  replace (k + t - 1) with ((k - 1) + t) by lia.
  rewrite !pow2_split by lia.
  split; [apply Z.div_le_lower_bound | apply Z.div_lt_upper_bound]; nia.
Qed.

Lemma Zdigits2_quotient_div_pow2 n d u :
  0 < d -> 0 <= n -> 0 <= u ->
  Zdigits2 (n / (d * 2 ^ u)) = Z.max 0 (Zdigits2 (n / d) - u).
Proof.
  intros Hd Hn Hu. pose proof (pow2_pos u Hu) as Pu.
  rewrite <- Z.div_div by lia.
  assert (Hq : 0 <= n / d) by (apply Z.div_pos; lia).
  destruct (Z.eq_dec (n / d) 0) as [-> | NZ].
  - rewrite Z.div_0_l by lia. cbn. lia.
  - apply Zdigits2_div_pow2; lia.
Qed.

(** The magnitude of a rounded quotient, as a rounding of the fraction in
    units of [2^-1074]. *)
Lemma quotient_RN n d e :
  0 < d -> 0 <= n -> 0 <= round_shift (n / d) e ->
  Z.min (Py.div_half_even n (d * 2 ^ round_shift (n / d) e)
         * 2 ^ (e + round_shift (n / d) e + 1074)) (2 ^ 2098) =
  RN (n * 2 ^ Z.max 0 (e + 1074)) (d * 2 ^ Z.max 0 (- e - 1074)).
Proof.
  intros Hd Hn Hk. unfold RN, infinity_mag.
  set (q := n / d) in *. set (k := round_shift q e) in *.
  assert (Hq : 0 <= q) by (apply Z.div_pos; lia).
  assert (Ek : k = Z.max (Zdigits2 q + e - 53) (-1074) - e) by reflexivity.
  pose proof (Zdigits2_nonneg q) as Dq.
  destruct (Z.le_gt_cases 0 (e + 1074)) as [U | U].
  - replace (Z.max 0 (e + 1074)) with (e + 1074) by lia.
    replace (Z.max 0 (- e - 1074)) with 0 by lia. change (2 ^ 0) with 1.
    rewrite Z.mul_1_r.
    destruct (Z.eq_dec (e + 1074) 0) as [E0 | NE0].
    + rewrite E0. change (2 ^ 0) with 1. rewrite Z.mul_1_r. fold q.
      replace (Z.max 0 (Zdigits2 q - 53)) with k by lia.
      replace (e + k + 1074) with k by lia. reflexivity.
    + assert (NZ : q <> 0). { intros Z0. rewrite Z0 in Ek. cbn [Zdigits2] in Ek. lia. }
      assert (Hdn : d <= n).
      { destruct (Z.le_gt_cases d n); trivial. exfalso. apply NZ. apply Z.div_small. lia. }
      rewrite Zdigits2_quotient_mul_pow2 by lia. fold q.
      replace (Z.max 0 (Zdigits2 q + (e + 1074) - 53)) with (k + (e + 1074)) by lia.
      pose proof (pow2_pos k Hk) as Pk.
      pose proof (pow2_pos (e + 1074) ltac:(lia)) as Pe.
      replace (d * 2 ^ (k + (e + 1074))) with (d * 2 ^ k * 2 ^ (e + 1074))
        by (rewrite (pow2_split k (e + 1074)) by lia; ring).
      rewrite div_half_even_scale by nia.
      do 3 f_equal. lia.
  - replace (Z.max 0 (e + 1074)) with 0 by lia.
    replace (Z.max 0 (- e - 1074)) with (- e - 1074) by lia. change (2 ^ 0) with 1.
    rewrite Z.mul_1_r, Zdigits2_quotient_div_pow2 by lia. fold q.
    replace (Z.max 0 (Z.max 0 (Zdigits2 q - (- e - 1074)) - 53)) with (e + k + 1074) by lia.
    rewrite <- Z.mul_assoc, <- pow2_split by lia.
    replace (- e - 1074 + (e + k + 1074)) with k by lia. reflexivity.
Qed.

(** The integer division that [SFdiv] performs. *)
Lemma SFdiv_core m1 e1 m2 e2 :
  0 < m1 -> 0 < m2 ->
  exists n e,
    SFdiv_core_binary prec emax m1 e1 m2 e2 = (n / m2, e, new_location m2 (n mod m2)) /\
    0 <= e1 - e2 - e /\ n = m1 * 2 ^ (e1 - e2 - e) /\
    0 <= round_shift (n / m2) e.
Proof.
  intros H1 H2.
  set (D := Zdigits2 m1 + e1 - (Zdigits2 m2 + e2)).
  set (e := Z.min (fexp prec emax D) (e1 - e2)).
  set (s := e1 - e2 - e).
  assert (Hs : 0 <= s) by (unfold s, e; lia).
  exists (m1 * 2 ^ s), e.
  assert (Core : SFdiv_core_binary prec emax m1 e1 m2 e2 =
                 (m1 * 2 ^ s / m2, e, new_location m2 ((m1 * 2 ^ s) mod m2))).
  { unfold SFdiv_core_binary. fold D. fold e. fold s.
    assert (Em : forall t, 0 <= t ->
              match t with Zpos _ => Z.shiftl m1 t | Z0 => m1 | Zneg _ => 0 end = m1 * 2 ^ t).
    { intros [| p | p] Ht; [change (2 ^ 0) with 1; lia | apply Z.shiftl_mul_pow2; lia | lia]. }
    rewrite (Em s Hs). unfold Z.div, Z.modulo. destruct (Z.div_eucl (m1 * 2 ^ s) m2). reflexivity. }
  split; [exact Core |]. split; [exact Hs |]. split; [reflexivity |].
  set (n := m1 * 2 ^ s). set (q := n / m2).
  pose proof (pow2_pos s Hs) as Ps.
  assert (Hn : 0 < n) by (unfold n; nia).
  assert (Hq : 0 <= q) by (apply Z.div_pos; lia).
  destruct (Zdigits2_bounds m1 H1) as [Lo1 Hi1]. destruct (Zdigits2_bounds m2 H2) as [Lo2 Hi2].
  pose proof (Zdigits2_pos m1 H1) as P1. pose proof (Zdigits2_pos m2 H2) as P2.
  set (d1 := Zdigits2 m1) in *. set (d2 := Zdigits2 m2) in *.
  assert (Ee : e = Z.min (Z.max (D - 53) (-1074)) (e1 - e2)) by reflexivity.
  unfold round_shift. rewrite fexp_eq.
  destruct (Z.eq_dec q 0) as [Q0 | QN].
  - rewrite Q0. cbn [Zdigits2].
    (* a zero quotient only arises far below the subnormal range *)
    assert (n < m2) by (destruct (Z.lt_ge_cases n m2); trivial; exfalso;
                        assert (1 <= n / m2) by (apply Z.div_le_lower_bound; lia); lia).
    assert (d1 + s <= d2).
    { destruct (Z.le_gt_cases (d1 + s) d2); trivial. exfalso.
      assert (Hp : 2 ^ d2 <= 2 ^ (d1 - 1 + s)) by (apply Z.pow_le_mono_r; lia).
      rewrite pow2_split in Hp by lia. unfold n in *. nia. }
    lia.
  - assert (Dq : d1 + s - d2 <= Zdigits2 q).
    { destruct (Zdigits2_bounds q ltac:(lia)) as [_ Hiq].
      apply quotient_lt in Hiq; [| lia | apply Zdigits2_nonneg].
      destruct (Z.le_gt_cases (d1 + s - d2) (Zdigits2 q)); trivial. exfalso.
      pose proof (Zdigits2_nonneg q) as Nq.
      assert (Hp : 2 ^ (d2 + Zdigits2 q) <= 2 ^ (d1 - 1 + s)) by (apply Z.pow_le_mono_r; lia).
      rewrite !pow2_split in Hp by lia.
      pose proof (pow2_pos (Zdigits2 q) Nq). unfold n in Hiq. nia. }
    unfold D in Ee. lia.
Qed.

(** The quotient of two finite numbers is the fraction of their magnitudes,
    rounded. *)
Lemma SFdiv_finite sx mx ex sy my ey :
  -1074 <= ex -> -1074 <= ey ->
  mag (SFdiv prec emax (S754_finite sx mx ex) (S754_finite sy my ey)) =
    RN (mag (S754_finite sx mx ex) * one_mag) (mag (S754_finite sy my ey)) /\
  sign_is (xorb sx sy) (SFdiv prec emax (S754_finite sx mx ex) (S754_finite sy my ey)).
Proof.
  intros Hex Hey.
  destruct (SFdiv_core (Zpos mx) ex (Zpos my) ey ltac:(lia) ltac:(lia))
    as (n & e & Core & Hs & En & Hk).
  unfold SFdiv. rewrite Core.
  assert (Hn : 0 <= n) by (rewrite En; pose proof (pow2_pos _ Hs); nia).
  destruct (binary_round_aux_quotient (xorb sx sy) n (Zpos my) e ltac:(lia) Hn Hk) as [E M].
  split.
  - rewrite M, quotient_RN by (trivial; lia). cbn [mag].
    pose proof (pow2_pos (Z.max 0 (- e - 1074)) ltac:(lia)).
    pose proof (pow2_pos (ey + 1074) ltac:(lia)).
    apply RN_eq; [nia | nia |].
    rewrite En. unfold one_mag.
    transitivity (Zpos mx * Zpos my * (2 ^ (ex - ey - e) * 2 ^ Z.max 0 (e + 1074) * 2 ^ (ey + 1074))); [ring |].
    transitivity (Zpos mx * Zpos my * (2 ^ (ex + 1074) * 2 ^ 1074 * 2 ^ Z.max 0 (- e - 1074))); [| ring].
    f_equal. rewrite <- !pow2_split by lia. f_equal. lia.
  - rewrite E. apply sign_round_result.
Qed.

(** *** Sums and differences of two finite numbers *)

Lemma iter_xO m d : Zpos (Pos.iter xO m d) = Zpos m * 2 ^ Zpos d.
Proof.
  induction d as [| d IH] using Pos.peano_ind.
  - cbn [Pos.iter]. change (Zpos m~0) with (2 * Zpos m). change (2 ^ 1) with 2. lia.
  - rewrite Pos.iter_succ, Pos2Z.inj_succ. unfold Z.succ.
    rewrite (pow2_split (Zpos d) 1) by lia. change (2 ^ 1) with 2.
    change (Zpos (Pos.iter xO m d)~0) with (2 * Zpos (Pos.iter xO m d)). rewrite IH. ring.
Qed.

Lemma shl_align_spec m e e' :
  e' <= e ->
  Zpos (fst (shl_align m e e')) = Zpos m * 2 ^ (e - e') /\ snd (shl_align m e e') = e'.
Proof.
  intros H. unfold shl_align.
  destruct (e' - e) as [| p | p] eqn:E; try lia; cbn [fst snd].
  - replace (e - e') with 0 by lia. change (2 ^ 0) with 1. lia.
  - rewrite iter_xO. replace (e - e') with (Zpos p) by lia. lia.
Qed.

(** Rounding an integer multiple of [2^e]. *)
Lemma binary_round_mag s m e :
  -1074 <= e ->
  mag (binary_round prec emax s m e) = RN (Zpos m * 2 ^ (e + 1074)) 1 /\
  sign_is s (binary_round prec emax s m e).
Proof.
  intros He. unfold binary_round.
  set (e' := fexp prec emax (Zpos (digits2_pos m) + e)).
  assert (Ee' : e' = Z.max (Zpos (digits2_pos m) + e - 53) (-1074)) by reflexivity.
  destruct (Z.le_gt_cases e e') as [L | G].
  - assert (Es : shl_align m e e' = (m, e)).
    { unfold shl_align. destruct (e' - e) eqn:E; try lia; reflexivity. }
    rewrite Es.
    assert (Hk : 0 <= round_shift (Zpos m) e) by (unfold round_shift; cbn [Zdigits2]; fold e'; lia).
    destruct (mag_round s (Zpos m) e ltac:(lia) Hk) as [M S].
    split; [| exact S]. rewrite M, rvalue_RN by (trivial; lia).
    replace (Z.max 0 (e + 1074)) with (e + 1074) by lia.
    replace (Z.max 0 (- e - 1074)) with 0 by lia. reflexivity.
  - destruct (shl_align_spec m e e' ltac:(lia)) as [E1 E2].
    destruct (shl_align m e e') as [mz ez]. cbn [fst snd] in E1, E2. subst ez.
    pose proof (pow2_pos (e - e') ltac:(lia)) as Pz.
    assert (Dz : Zdigits2 (Zpos mz) = Zpos (digits2_pos m) + (e - e')).
    { rewrite E1. apply (Zdigits2_mul_pow2 (Zpos m)); lia. }
    assert (Hk : 0 <= round_shift (Zpos mz) e').
    { unfold round_shift. rewrite Dz, fexp_eq. lia. }
    destruct (mag_round s (Zpos mz) e' ltac:(lia) Hk) as [M S].
    split; [| exact S]. rewrite M, rvalue_RN by (trivial; lia).
    replace (Z.max 0 (e' + 1074)) with (e' + 1074) by lia.
    replace (Z.max 0 (- e' - 1074)) with 0 by lia.
    f_equal. rewrite E1, <- Z.mul_assoc, <- pow2_split by lia. do 2 f_equal. lia.
Qed.

Lemma sval_mag f s : sign_is s f -> sval f = cond_Zopp s (mag f).
Proof.
  destruct f as [s' | s' | | s' m e]; cbn [sign_is sval mag]; intros H;
    try contradiction; subst; trivial. destruct s; reflexivity.
Qed.

(** A nonzero integer multiple of [2^e], normalised. *)
Lemma binary_normalize_sval z e sz :
  -1074 <= e ->
  sval (binary_normalize prec emax z e sz) = RNs (z * 2 ^ (e + 1074)).
Proof.
  intros He. pose proof (pow2_pos (e + 1074) ltac:(lia)) as P.
  unfold RNs. destruct z as [| m | m]; cbn [binary_normalize].
  - cbn [sval]. rewrite Z.mul_0_l. cbn [Z.ltb Z.compare]. symmetry. apply RN_0. lia.
  - destruct (binary_round_mag false m e He) as [M S].
    rewrite (sval_mag _ _ S), M. cbn [cond_Zopp].
    destruct (Z.ltb_spec (Zpos m * 2 ^ (e + 1074)) 0); [nia | reflexivity].
  - destruct (binary_round_mag true m e He) as [M S].
    rewrite (sval_mag _ _ S), M. cbn [cond_Zopp].
    destruct (Z.ltb_spec (Zneg m * 2 ^ (e + 1074)) 0); [| nia].
    do 2 f_equal. lia.
Qed.

Lemma aligned_sval s m e ez :
  -1074 <= ez -> ez <= e ->
  cond_Zopp s (Zpos (fst (shl_align m e ez))) * 2 ^ (ez + 1074) = sval (S754_finite s m e).
Proof.
  intros H1 H2. destruct (shl_align_spec m e ez H2) as [E _]. rewrite E. cbn [sval].
  replace (e + 1074) with ((e - ez) + (ez + 1074)) by lia.
  rewrite (pow2_split (e - ez) (ez + 1074)) by lia.
  destruct s; cbn [cond_Zopp]; ring.
Qed.

(** Sums and differences of finite floats: the exact result, rounded. *)
Lemma SFadd_finite sx mx ex sy my ey :
  -1074 <= ex -> -1074 <= ey ->
  sval (SFadd prec emax (S754_finite sx mx ex) (S754_finite sy my ey)) =
    RNs (sval (S754_finite sx mx ex) + sval (S754_finite sy my ey)).
Proof.
  intros Hx Hy. cbn [SFadd]. rewrite binary_normalize_sval by lia.
  f_equal. rewrite Z.mul_add_distr_r, !aligned_sval by lia. reflexivity.
Qed.

Lemma SFsub_finite sx mx ex sy my ey :
  -1074 <= ex -> -1074 <= ey ->
  sval (SFsub prec emax (S754_finite sx mx ex) (S754_finite sy my ey)) =
    RNs (sval (S754_finite sx mx ex) - sval (S754_finite sy my ey)).
Proof.
  intros Hx Hy. cbn [SFsub]. rewrite binary_normalize_sval by lia.
  f_equal. rewrite Z.mul_sub_distr_r, !aligned_sval by lia. reflexivity.
Qed.

(** A rounded nonzero sum is finite or infinite, never NaN. *)
Lemma binary_normalize_not_nan z e sz :
  -1074 <= e -> sf_is_nan (binary_normalize prec emax z e sz) = false.
Proof.
  intros He. destruct z as [| m | m]; cbn [binary_normalize]; trivial.
  - destruct (binary_round_mag false m e He) as [_ S].
    destruct (binary_round prec emax false m e); trivial; contradiction.
  - destruct (binary_round_mag true m e He) as [_ S].
    destruct (binary_round prec emax true m e); trivial; contradiction.
Qed.

(** *** Values and the order of floats *)

Lemma sval_bounds f : valid_binary f = true -> - infinity_mag <= sval f <= infinity_mag.
Proof.
  intros V. pose proof infinity_mag_pos as P.
  destruct f as [s | s | | s m e]; cbn [sval]; try (destruct s; cbn [cond_Zopp]; lia); try lia.
  pose proof (mag_finite_lt s m e V) as H. cbn [mag] in H.
  change (2 ^ 2098) with infinity_mag in H. destruct s; cbn [cond_Zopp]; lia.
Qed.

Lemma sval_finite f :
  valid_binary f = true -> sf_is_finite f = true -> - infinity_mag < sval f < infinity_mag.
Proof.
  intros V F. pose proof infinity_mag_pos as P.
  destruct f as [s | s | | s m e]; cbn [sval]; try discriminate; try lia.
  pose proof (mag_finite_lt s m e V) as H. cbn [mag] in H.
  change (2 ^ 2098) with infinity_mag in H. destruct s; cbn [cond_Zopp]; lia.
Qed.

(** The IEEE comparison is the comparison of values. *)
Lemma SFcompare_sval a b :
  valid_binary a = true -> valid_binary b = true ->
  sf_is_nan a = false -> sf_is_nan b = false ->
  SFcompare a b = Some (sval a ?= sval b).
Proof.
  intros Va Vb Na Nb.
  pose proof infinity_mag_pos as P.
  destruct a as [sa | sa | | sa ma ea]; try discriminate;
    destruct b as [sb | sb | | sb mb eb]; try discriminate;
    try pose proof (mag_finite_lt sa ma ea Va) as Ha;
    try pose proof (mag_finite_lt sb mb eb Vb) as Hb;
    cbn [mag] in *; change (2 ^ 2098) with infinity_mag in *.
  1-8: destruct sa, sb; cbn [SFcompare sval cond_Zopp]; f_equal; symmetry;
    first [ apply Z.compare_eq_iff; lia | apply Z.compare_lt_iff; lia
          | apply Z.compare_gt_iff; lia ].
  assert (H0 : Some (match ea ?= eb with
                    | Lt => Lt | Gt => Gt | Eq => Pos.compare_cont Eq ma mb end) =
              Some (Zpos ma * 2 ^ (ea + 1074) ?= Zpos mb * 2 ^ (eb + 1074)))
    by exact (SFcompare_mag (S754_finite false ma ea) (S754_finite false mb eb) Va Vb
                (or_introl eq_refl) (or_introl eq_refl)).
  assert (H : match ea ?= eb with
              | Lt => Lt | Gt => Gt | Eq => Pos.compare_cont Eq ma mb end =
              (Zpos ma * 2 ^ (ea + 1074) ?= Zpos mb * 2 ^ (eb + 1074)))
    by congruence.
  clear H0.
  destruct sa, sb; cbn [SFcompare sval cond_Zopp]; f_equal.
  - rewrite Z.compare_opp, (Z.compare_antisym (Zpos ma * 2 ^ (ea + 1074))), <- H.
    destruct (ea ?= eb); reflexivity.
  - symmetry. apply Z.compare_lt_iff. lia.
  - symmetry. apply Z.compare_gt_iff. lia.
  - exact H.
Qed.

Lemma ltb_val x y :
  is_nan x = false -> is_nan y = false -> (x <? y)%float = (val x <? val y).
Proof.
  rewrite !is_nan_spec, ltb_spec. intros Nx Ny. unfold SFltb, val.
  rewrite (SFcompare_sval _ _ (Prim2SF_valid x) (Prim2SF_valid y) Nx Ny).
  unfold Z.ltb. destruct (sval (Prim2SF x) ?= sval (Prim2SF y)); reflexivity.
Qed.

Lemma leb_val x y :
  is_nan x = false -> is_nan y = false -> (x <=? y)%float = (val x <=? val y).
Proof.
  rewrite !is_nan_spec, leb_spec. intros Nx Ny. unfold SFleb, val.
  rewrite (SFcompare_sval _ _ (Prim2SF_valid x) (Prim2SF_valid y) Nx Ny).
  unfold Z.leb. destruct (sval (Prim2SF x) ?= sval (Prim2SF y)); reflexivity.
Qed.

Lemma eqb_val x y :
  is_nan x = false -> is_nan y = false -> (x =? y)%float = (val x =? val y).
Proof.
  rewrite !is_nan_spec, eqb_spec. intros Nx Ny. unfold SFeqb, val.
  rewrite (SFcompare_sval _ _ (Prim2SF_valid x) (Prim2SF_valid y) Nx Ny).
  destruct (Z.compare_spec (sval (Prim2SF x)) (sval (Prim2SF y)));
    destruct (Z.eqb_spec (sval (Prim2SF x)) (sval (Prim2SF y))); trivial; lia.
Qed.

(** A comparison that holds has no NaN operand. *)
Lemma compare_not_nan (x y : float) :
  (x <? y)%float = true \/ (x <=? y)%float = true \/ (x =? y)%float = true ->
  is_nan x = false /\ is_nan y = false.
Proof.
  rewrite !is_nan_spec, ltb_spec, leb_spec, eqb_spec. unfold SFltb, SFleb, SFeqb.
  destruct (Prim2SF x), (Prim2SF y); cbn [SFcompare sf_is_nan];
    intros [H | [H | H]]; try discriminate; auto.
Qed.

Lemma is_finite_not_nan x : is_finite x = true -> is_nan x = false.
Proof. rewrite is_finite_spec, is_nan_spec. destruct (Prim2SF x); trivial; discriminate. Qed.

Lemma is_finite_val x : is_finite x = true -> - infinity_mag < val x < infinity_mag.
Proof. rewrite is_finite_spec. apply sval_finite, Prim2SF_valid. Qed.

Lemma val_is_finite x :
  is_nan x = false -> - infinity_mag < val x < infinity_mag -> is_finite x = true.
Proof.
  rewrite is_finite_spec, is_nan_spec. unfold val.
  destruct (Prim2SF x) as [s | [] | | s m e]; cbn [sval cond_Zopp sf_is_finite]; trivial;
    try discriminate; lia.
Qed.

Lemma val_zero x : is_nan x = false -> (x =? 0)%float = (val x =? 0).
Proof. intros N. rewrite eqb_val by trivial. reflexivity. Qed.

(** *** Rounding, signed *)

Lemma RN_nonneg n d : 0 <= n -> 0 < d -> 0 <= RN n d.
Proof. intros Hn Hd. rewrite <- (RN_0 d Hd). apply RN_mono; lia. Qed.

Lemma RNs_opp z : RNs (- z) = - RNs z.
Proof.
  unfold RNs. destruct (Z.ltb_spec (- z) 0); destruct (Z.ltb_spec z 0); try lia.
  - rewrite Z.opp_involutive. reflexivity.
  - replace z with 0 by lia. reflexivity.
Qed.

Lemma RNs_mono z z' : z <= z' -> RNs z <= RNs z'.
Proof.
  intros H. unfold RNs. destruct (Z.ltb_spec z 0); destruct (Z.ltb_spec z' 0); try lia.
  - apply -> Z.opp_le_mono. apply RN_mono; lia.
  - pose proof (RN_nonneg (- z) 1 ltac:(lia) ltac:(lia)).
    pose proof (RN_nonneg z' 1 ltac:(lia) ltac:(lia)). lia.
  - apply RN_mono; lia.
Qed.

Lemma RNs_pos z : 0 < z -> 1 <= RNs z.
Proof.
  intros H. unfold RNs. destruct (Z.ltb_spec z 0); [lia |]. apply RN_pos; lia.
Qed.

(** A float is its own rounding. *)
Lemma RNs_exact f :
  valid_binary f = true -> sf_is_finite f = true -> RNs (sval f) = sval f.
Proof.
  intros V F. destruct f as [s | s | | s m e]; try discriminate; [reflexivity |].
  pose proof (RN_exact false m e V) as E. pose proof (mag_finite_lt false m e V) as B.
  cbn [mag sval] in *. change (2 ^ 2098) with infinity_mag in B.
  destruct s; cbn [cond_Zopp].
  - rewrite RNs_opp. f_equal. unfold RNs.
    destruct (Z.ltb_spec (Zpos m * 2 ^ (e + 1074)) 0); [lia | exact E].
  - unfold RNs. destruct (Z.ltb_spec (Zpos m * 2 ^ (e + 1074)) 0); [lia | exact E].
Qed.

(** *** Arithmetic on finite floats *)

Lemma finite_exponent s m e :
  valid_binary (S754_finite s m e) = true -> -1074 <= e.
Proof. intros V. destruct (bounded_inv m e V) as (_ & He & _). lia. Qed.

Lemma add_val x y :
  is_finite x = true -> is_finite y = true ->
  val (x + y) = RNs (val x + val y) /\ is_nan (x + y) = false.
Proof.
  rewrite !is_finite_spec, is_nan_spec. unfold val. rewrite add_spec. unfold SF64add.
  pose proof (Prim2SF_valid x) as Vx. pose proof (Prim2SF_valid y) as Vy.
  destruct (Prim2SF x) as [sx | sx | | sx mx ex]; try discriminate;
    destruct (Prim2SF y) as [sy | sy | | sy my ey]; try discriminate; intros _ _.
  - destruct sx, sy; split; reflexivity.
  - split; [| reflexivity]. cbn [SFadd]. rewrite Z.add_0_l.
    symmetry. apply RNs_exact; trivial.
  - split; [| reflexivity]. cbn [SFadd]. change (sval (S754_zero sy)) with 0.
    rewrite Z.add_0_r. symmetry. apply RNs_exact; trivial.
  - pose proof (finite_exponent _ _ _ Vx). pose proof (finite_exponent _ _ _ Vy).
    split; [apply SFadd_finite; trivial |].
    cbn [SFadd]. apply binary_normalize_not_nan. lia.
Qed.

Lemma sub_val x y :
  is_finite x = true -> is_finite y = true ->
  val (x - y) = RNs (val x - val y) /\ is_nan (x - y) = false.
Proof.
  rewrite !is_finite_spec, is_nan_spec. unfold val. rewrite sub_spec. unfold SF64sub.
  pose proof (Prim2SF_valid x) as Vx. pose proof (Prim2SF_valid y) as Vy.
  destruct (Prim2SF x) as [sx | sx | | sx mx ex]; try discriminate;
    destruct (Prim2SF y) as [sy | sy | | sy my ey]; try discriminate; intros _ _.
  - destruct sx, sy; split; reflexivity.
  - split; [| reflexivity]. cbn [SFsub]. change (sval (S754_zero sx)) with 0.
    rewrite Z.sub_0_l, RNs_opp, (RNs_exact _ Vy) by reflexivity.
    cbn [sval]. destruct sy; cbn [negb cond_Zopp]; lia.
  - split; [| reflexivity]. cbn [SFsub]. change (sval (S754_zero sy)) with 0.
    rewrite Z.sub_0_r. symmetry. apply RNs_exact; trivial.
  - pose proof (finite_exponent _ _ _ Vx). pose proof (finite_exponent _ _ _ Vy).
    split; [apply SFsub_finite; trivial |].
    cbn [SFsub]. apply binary_normalize_not_nan. lia.
Qed.

(** *** Products and quotients of non-negative floats *)

Lemma RN_cap n d : RN n d <= infinity_mag.
Proof. unfold RN. apply Z.le_min_r. Qed.

(** Products and quotients of non-negative finite floats. *)
Lemma mul_val x y :
  is_finite x = true -> is_finite y = true -> 0 <= val x -> 0 <= val y ->
  val (x * y) = RN (val x * val y) one_mag /\ is_nan (x * y) = false.
Proof.
  rewrite !is_finite_spec, is_nan_spec. unfold val.
  intros Fx Fy Hx Hy.
  pose proof one_mag_pos as P.
  destruct (Prim2SF x) as [sx | sx | | sx mx ex] eqn:Ex; try discriminate;
    destruct (Prim2SF y) as [sy | sy | | sy my ey] eqn:Ey; try discriminate;
    rewrite mul_spec, Ex, Ey; unfold SF64mul; cbn [SFmul sval sf_is_nan];
    rewrite ?Z.mul_0_l, ?Z.mul_0_r, ?RN_0 by trivial; auto.
  pose proof (bounded_of x _ _ _ Ex) as Bx. pose proof (bounded_of y _ _ _ Ey) as By.
  pose proof (mag_finite_lt sx mx ex Bx) as Mx. pose proof (mag_finite_lt sy my ey By) as My.
  pose proof (finite_exponent sx mx ex Bx) as Lx. pose proof (finite_exponent sy my ey By) as Ly.
  cbn [mag sval] in *. change (2 ^ 2098) with infinity_mag in *.
  destruct sx; cbn [cond_Zopp] in *; [lia |]. destruct sy; cbn [cond_Zopp] in *; [lia |].
  destruct (mul_finite x y _ _ _ _ _ _ Ex Ey) as [E K].
  rewrite mul_spec, Ex, Ey in E. unfold SF64mul in E. cbn [SFmul] in E.
  change (Zpos (mx * my)) with (Zpos mx * Zpos my) in *.
  destruct (mag_round (xorb false false) (Zpos mx * Zpos my) (ex + ey) ltac:(lia) K) as [M S].
  set (r := binary_round_aux prec emax (xorb false false) (Zpos mx * Zpos my) (ex + ey) loc_Exact) in *.
  split; [| destruct r; trivial; contradiction].
  rewrite (sval_mag _ _ S), M. cbn [xorb cond_Zopp].
  rewrite rvalue_RN by (trivial; lia).
  pose proof (pow2_pos (Z.max 0 (- (ex + ey) - 1074)) ltac:(lia)).
  apply RN_eq; trivial. unfold one_mag.
  transitivity (Zpos mx * Zpos my * (2 ^ Z.max 0 (ex + ey + 1074) * 2 ^ 1074)); [ring |].
  transitivity (Zpos mx * Zpos my * (2 ^ (ex + 1074) * 2 ^ (ey + 1074) * 2 ^ Z.max 0 (- (ex + ey) - 1074))); [| ring].
  f_equal. rewrite <- !pow2_split by lia. f_equal. lia.
Qed.

Lemma div_val x y :
  is_finite x = true -> is_finite y = true -> 0 <= val x -> 0 < val y ->
  val (x / y) = RN (val x * one_mag) (val y) /\ is_nan (x / y) = false.
Proof.
  rewrite !is_finite_spec, is_nan_spec. unfold val.
  intros Fx Fy Hx Hy.
  destruct (Prim2SF x) as [sx | sx | | sx mx ex] eqn:Ex; try discriminate;
    destruct (Prim2SF y) as [sy | sy | | sy my ey] eqn:Ey; try discriminate;
    rewrite div_spec, Ex, Ey; unfold SF64div; cbn [sval] in *; try lia.
  - cbn [SFdiv sval sf_is_nan]. rewrite Z.mul_0_l, RN_0 by trivial. auto.
  - pose proof (bounded_of x _ _ _ Ex) as Bx. pose proof (bounded_of y _ _ _ Ey) as By.
    pose proof (mag_finite_lt sx mx ex Bx) as Mx. pose proof (mag_finite_lt sy my ey By) as My.
    pose proof (finite_exponent sx mx ex Bx) as Lx. pose proof (finite_exponent sy my ey By) as Ly.
    cbn [mag] in *. change (2 ^ 2098) with infinity_mag in *.
    destruct sx; cbn [cond_Zopp] in *; [lia |]. destruct sy; cbn [cond_Zopp] in *; [lia |].
    destruct (SFdiv_finite false mx ex false my ey Lx Ly) as [M S].
    set (r := SFdiv prec emax (S754_finite false mx ex) (S754_finite false my ey)) in *.
    split; [| destruct r; trivial; contradiction].
    rewrite (sval_mag _ _ S), M. reflexivity.
Qed.

(** Infinite operands. *)
Lemma val_not_finite x :
  is_nan x = false -> is_finite x = false -> 0 <= val x -> Prim2SF x = S754_infinity false.
Proof.
  rewrite is_nan_spec, is_finite_spec. unfold val.
  destruct (Prim2SF x) as [s | [] | | s m e]; cbn [sval cond_Zopp]; try discriminate; trivial.
  intros _ _ H. pose proof infinity_mag_pos. lia.
Qed.

Lemma val_infinity x : Prim2SF x = S754_infinity false -> val x = infinity_mag /\ is_nan x = false.
Proof. intros E. rewrite is_nan_spec. unfold val. rewrite E. split; reflexivity. Qed.

Lemma val_le_infinity x : val x <= infinity_mag.
Proof. apply sval_bounds, Prim2SF_valid. Qed.

(** A positive float: not NaN, and finite or [+inf]. *)
Lemma positive_cases x :
  is_nan x = false -> 0 < val x ->
  (is_finite x = true) \/ Prim2SF x = S754_infinity false.
Proof.
  intros N H. destruct (is_finite x) eqn:F; [auto |]. right.
  apply val_not_finite; trivial; lia.
Qed.

Lemma nonneg_cases x :
  is_nan x = false -> 0 <= val x ->
  (is_finite x = true) \/ Prim2SF x = S754_infinity false.
Proof.
  intros N H. destruct (is_finite x) eqn:F; [auto |]. right.
  apply val_not_finite; trivial.
Qed.

Lemma mul_infinity_l x c :
  Prim2SF x = S754_infinity false -> is_finite c = true -> 0 < val c ->
  Prim2SF (x * c) = S754_infinity false.
Proof.
  rewrite is_finite_spec. unfold val. intros Ex Fc Hc. rewrite mul_spec, Ex. unfold SF64mul.
  destruct (Prim2SF c) as [s | s | | [] m e]; try discriminate; cbn [sval cond_Zopp] in Hc;
    try lia; reflexivity.
Qed.

Lemma div_infinity_l x c :
  Prim2SF x = S754_infinity false -> is_finite c = true -> 0 < val c ->
  Prim2SF (x / c) = S754_infinity false.
Proof.
  rewrite is_finite_spec. unfold val. intros Ex Fc Hc. rewrite div_spec, Ex. unfold SF64div.
  destruct (Prim2SF c) as [s | s | | [] m e]; try discriminate; cbn [sval cond_Zopp] in Hc;
    try lia; reflexivity.
Qed.

Lemma div_infinity_r x y :
  is_finite x = true -> 0 <= val x -> Prim2SF y = S754_infinity false ->
  val (x / y) = 0 /\ is_nan (x / y) = false.
Proof.
  rewrite is_finite_spec, is_nan_spec. unfold val. intros Fx Hx Ey.
  rewrite div_spec, Ey. unfold SF64div.
  destruct (Prim2SF x) as [s | s | | s m e]; try discriminate; split; reflexivity.
Qed.

(** *** Monotonicity of the operations on non-negative numbers *)

Lemma mul3_le a a' b c : 0 <= a <= a' -> 0 <= b -> 0 <= c -> a * b * c <= a' * b * c.
Proof.
  intros H Hb Hc. apply Z.mul_le_mono_nonneg_r; trivial.
  apply Z.mul_le_mono_nonneg_r; lia.
Qed.

(** Side conditions of [RN_mono] and [RN_nonneg] on products. *)
Ltac prod_order :=
  solve [ lia
        | apply Z.mul_nonneg_nonneg; lia
        | apply Z.mul_pos_pos; lia
        | apply mul3_le; lia
        | apply Z.mul_le_mono_nonneg_l; [apply Z.mul_nonneg_nonneg; lia | lia]
        | apply Z.mul_le_mono_nonneg_r; [lia | apply Z.mul_le_mono_nonneg; lia] ].

(** Scaling by a positive finite factor. *)
Lemma mul_pos_mono x x' c :
  is_nan x = false -> is_nan x' = false -> is_finite c = true -> 0 < val c ->
  0 <= val x <= val x' ->
  0 <= val (x * c) <= val (x' * c) /\ is_nan (x * c) = false /\ is_nan (x' * c) = false.
Proof.
  intros Nx Nx' Fc Hc [H0 H].
  pose proof one_mag_pos as P. pose proof infinity_mag_pos as PI.
  destruct (nonneg_cases x' Nx' ltac:(lia)) as [F' | I'].
  - assert (F : is_finite x = true).
    { apply val_is_finite; trivial. pose proof (is_finite_val x' F'). lia. }
    destruct (mul_val x c F Fc H0 ltac:(lia)) as [E N].
    destruct (mul_val x' c F' Fc ltac:(lia) ltac:(lia)) as [E' N'].
    rewrite E, E'. repeat split; trivial.
    + apply RN_nonneg; prod_order.
    + apply RN_mono; prod_order.
  - pose proof (mul_infinity_l x' c I' Fc Hc) as E'.
    destruct (val_infinity _ E') as [V' N']. rewrite V'.
    destruct (nonneg_cases x Nx H0) as [F | I].
    + destruct (mul_val x c F Fc H0 ltac:(lia)) as [E N]. rewrite E.
      repeat split; trivial; [apply RN_nonneg; prod_order | apply RN_cap].
    + pose proof (mul_infinity_l x c I Fc Hc) as E.
      destruct (val_infinity _ E) as [V N]. rewrite V. repeat split; trivial; lia.
Qed.

(** The product of two finite non-negative factors grows with both. *)
Lemma mul_finite_mono x x' y y' :
  is_finite x = true -> is_finite x' = true -> is_finite y = true -> is_finite y' = true ->
  0 <= val x <= val x' -> 0 <= val y <= val y' ->
  0 <= val (x * y) <= val (x' * y') /\ is_nan (x * y) = false /\ is_nan (x' * y') = false.
Proof.
  intros Fx Fx' Fy Fy' [Hx Hxx] [Hy Hyy].
  pose proof one_mag_pos as P. pose proof infinity_mag_pos as PI.
  destruct (mul_val x y Fx Fy Hx Hy) as [E N].
  destruct (mul_val x' y' Fx' Fy' ltac:(lia) ltac:(lia)) as [E' N'].
  rewrite E, E'. repeat split; trivial.
  - apply RN_nonneg; prod_order.
  - apply RN_mono; prod_order.
Qed.

(** A quotient grows with its numerator. *)
Lemma div_num_mono x x' c :
  is_nan x = false -> is_nan x' = false -> is_finite c = true -> 0 < val c ->
  0 <= val x <= val x' ->
  0 <= val (x / c) <= val (x' / c) /\ is_nan (x / c) = false /\ is_nan (x' / c) = false.
Proof.
  intros Nx Nx' Fc Hc [H0 H].
  pose proof one_mag_pos as P. pose proof infinity_mag_pos as PI.
  destruct (nonneg_cases x' Nx' ltac:(lia)) as [F' | I'].
  - assert (F : is_finite x = true).
    { apply val_is_finite; trivial. pose proof (is_finite_val x' F'). lia. }
    destruct (div_val x c F Fc H0 ltac:(lia)) as [E N].
    destruct (div_val x' c F' Fc ltac:(lia) ltac:(lia)) as [E' N'].
    rewrite E, E'. repeat split; trivial.
    + apply RN_nonneg; prod_order.
    + apply RN_mono; prod_order.
  - pose proof (div_infinity_l x' c I' Fc Hc) as E'.
    destruct (val_infinity _ E') as [V' N']. rewrite V'.
    destruct (nonneg_cases x Nx H0) as [F | I].
    + destruct (div_val x c F Fc H0 ltac:(lia)) as [E N]. rewrite E.
      repeat split; trivial; [apply RN_nonneg; prod_order | apply RN_cap].
    + pose proof (div_infinity_l x c I Fc Hc) as E.
      destruct (val_infinity _ E) as [V N]. rewrite V. repeat split; trivial; lia.
Qed.

(** A quotient shrinks as its denominator grows. *)
Lemma div_den_mono x y y' :
  is_finite x = true -> 0 <= val x -> is_nan y = false -> is_nan y' = false ->
  0 < val y <= val y' ->
  0 <= val (x / y') <= val (x / y) /\ is_nan (x / y) = false /\ is_nan (x / y') = false.
Proof.
  intros Fx Hx Ny Ny' [H0 H].
  pose proof one_mag_pos as P. pose proof infinity_mag_pos as PI.
  destruct (positive_cases y' Ny' ltac:(lia)) as [F' | I'].
  - assert (F : is_finite y = true).
    { apply val_is_finite; trivial. pose proof (is_finite_val y' F'). lia. }
    destruct (div_val x y Fx F Hx H0) as [E N].
    destruct (div_val x y' Fx F' Hx ltac:(lia)) as [E' N'].
    rewrite E, E'. repeat split; trivial.
    + apply RN_nonneg; prod_order.
    + apply RN_mono; prod_order.
  - destruct (div_infinity_r x y' Fx Hx I') as [E' N']. rewrite E'.
    destruct (positive_cases y Ny H0) as [F | I].
    + destruct (div_val x y Fx F Hx H0) as [E N]. rewrite E.
      repeat split; trivial; try lia; apply RN_nonneg; prod_order.
    + destruct (div_infinity_r x y Fx Hx I) as [E N]. rewrite E. repeat split; trivial; lia.
Qed.

(** *** From comparisons to values and back *)

Lemma ltb_to_val x y :
  (x <? y)%float = true -> val x < val y /\ is_nan x = false /\ is_nan y = false.
Proof.
  intros H. destruct (compare_not_nan x y (or_introl H)) as [Nx Ny].
  rewrite ltb_val in H by trivial. apply Z.ltb_lt in H. auto.
Qed.

Lemma leb_to_val x y :
  (x <=? y)%float = true -> val x <= val y /\ is_nan x = false /\ is_nan y = false.
Proof.
  intros H. destruct (compare_not_nan x y (or_intror (or_introl H))) as [Nx Ny].
  rewrite leb_val in H by trivial. apply Z.leb_le in H. auto.
Qed.

Lemma eqb_to_val x y :
  (x =? y)%float = true -> val x = val y /\ is_nan x = false /\ is_nan y = false.
Proof.
  intros H. destruct (compare_not_nan x y (or_intror (or_intror H))) as [Nx Ny].
  rewrite eqb_val in H by trivial. apply Z.eqb_eq in H. auto.
Qed.

Lemma ltb_of_val x y :
  is_nan x = false -> is_nan y = false -> val x < val y -> (x <? y)%float = true.
Proof. intros Nx Ny H. rewrite ltb_val by trivial. apply Z.ltb_lt. trivial. Qed.

Lemma leb_of_val x y :
  is_nan x = false -> is_nan y = false -> val x <= val y -> (x <=? y)%float = true.
Proof. intros Nx Ny H. rewrite leb_val by trivial. apply Z.leb_le. trivial. Qed.

Lemma nonzero_of_val x : is_nan x = false -> val x <> 0 -> (x =? 0)%float = false.
Proof. intros N H. rewrite val_zero by trivial. apply Z.eqb_neq. trivial. Qed.

Lemma zero_of_val x : is_nan x = false -> val x = 0 -> (x =? 0)%float = true.
Proof. intros N H. rewrite val_zero by trivial. apply Z.eqb_eq. trivial. Qed.

(** *** Differences and sums *)

Lemma sub_finite_inv x y :
  is_finite (x - y) = true -> is_finite x = true /\ is_finite y = true.
Proof.
  rewrite !is_finite_spec, sub_spec. unfold SF64sub.
  destruct (Prim2SF x) as [sx | [] | | sx mx ex]; destruct (Prim2SF y) as [sy | [] | | sy my ey];
    cbn [SFsub sf_is_finite negb]; auto; try discriminate.
Qed.

(** The difference of a larger and a smaller number is positive: it cannot
    round to zero. *)
Lemma sub_pos x y :
  (y <? x)%float = true -> is_nan (x - y) = false /\ 0 < val (x - y).
Proof.
  intros H. destruct (ltb_to_val y x H) as (L & Ny & Nx).
  destruct (is_finite x) eqn:Fx; destruct (is_finite y) eqn:Fy.
  - destruct (sub_val x y Fx Fy) as [E N]. split; trivial. rewrite E.
    pose proof (RNs_pos (val x - val y) ltac:(lia)). lia.
  - (* y = -inf *)
    revert L Fx Fy Ny Nx. rewrite !is_finite_spec, !is_nan_spec. unfold val.
    rewrite sub_spec. unfold SF64sub. pose proof (sval_finite _ (Prim2SF_valid x)) as Bx.
    destruct (Prim2SF x) as [sx | sx | | sx mx ex]; try discriminate;
      destruct (Prim2SF y) as [sy | [] | | sy my ey]; try discriminate;
      cbn [SFsub sval cond_Zopp negb sf_is_nan sf_is_finite] in *; intros;
      try (split; [reflexivity | apply pow2_pos; lia]);
      specialize (Bx eq_refl); lia.
  - (* x = +inf *)
    revert L Fx Fy Ny Nx. rewrite !is_finite_spec, !is_nan_spec. unfold val.
    rewrite sub_spec. unfold SF64sub. pose proof (sval_finite _ (Prim2SF_valid y)) as By.
    destruct (Prim2SF y) as [sy | sy | | sy my ey]; try discriminate;
      destruct (Prim2SF x) as [sx | [] | | sx mx ex]; try discriminate;
      cbn [SFsub sval cond_Zopp negb sf_is_nan sf_is_finite] in *; intros;
      try (split; [reflexivity | apply pow2_pos; lia]);
      specialize (By eq_refl); lia.
  - revert L Fx Fy Ny Nx. rewrite !is_finite_spec, !is_nan_spec. unfold val.
    rewrite sub_spec. unfold SF64sub.
    pose proof infinity_mag_pos.
    destruct (Prim2SF y) as [sy | [] | | sy my ey]; try discriminate;
      destruct (Prim2SF x) as [sx | [] | | sx mx ex]; try discriminate;
      cbn [SFsub sval cond_Zopp negb sf_is_nan sf_is_finite] in *; intros; lia.
Qed.

(** Adding a positive number to a finite one never makes it smaller. *)
Lemma add_pos_ge r a :
  is_finite r = true -> is_nan a = false -> 0 < val a ->
  is_nan (r + a) = false /\ val r <= val (r + a).
Proof.
  intros Fr Na Ha.
  destruct (positive_cases a Na Ha) as [Fa | Ia].
  - destruct (add_val r a Fr Fa) as [E N]. split; trivial. rewrite E.
    assert (Er : RNs (val r) = val r).
    { apply RNs_exact; [apply Prim2SF_valid | rewrite <- is_finite_spec; trivial]. }
    rewrite <- Er at 1. apply RNs_mono. lia.
  - assert (E : Prim2SF (r + a) = S754_infinity false).
    { rewrite add_spec, Ia. unfold SF64add. rewrite is_finite_spec in Fr.
      destruct (Prim2SF r); try discriminate; reflexivity. }
    destruct (val_infinity _ E) as [V N]. split; trivial. rewrite V. apply val_le_infinity.
Qed.

(** A positive finite number divided by itself is [1.0]. *)
Lemma div_self r : is_finite r = true -> 0 < val r -> val (r / r) = val 1.
Proof.
  intros Fr Hr. destruct (div_val r r Fr Fr ltac:(lia) Hr) as [E _]. rewrite E.
  rewrite (RN_eq (val r * one_mag) (val r) one_mag 1) by lia.
  vm_compute. reflexivity.
Qed.

(** The commuted forms of the scaling lemmas. *)
Lemma mul_val_comm x y : val (x * y) = val (y * x) /\ is_nan (x * y) = is_nan (y * x).
Proof.
  rewrite !is_nan_spec. unfold val. rewrite !mul_spec. unfold SF64mul.
  destruct (Prim2SF x) as [sx | sx | | sx mx ex]; destruct (Prim2SF y) as [sy | sy | | sy my ey];
    cbn [SFmul]; rewrite ?(xorb_comm sy sx); auto.
  rewrite (Pos.mul_comm my mx), (Z.add_comm ey ex). auto.
Qed.

Lemma mul_pos_mono_l c x x' :
  is_nan x = false -> is_nan x' = false -> is_finite c = true -> 0 < val c ->
  0 <= val x <= val x' ->
  0 <= val (c * x) <= val (c * x') /\ is_nan (c * x) = false /\ is_nan (c * x') = false.
Proof.
  intros Nx Nx' Fc Hc H.
  destruct (mul_val_comm c x) as [-> ->]. destruct (mul_val_comm c x') as [-> ->].
  apply mul_pos_mono; trivial.
Qed.

(** *** The rounded result is a valid binary64 number *)

Lemma round_result_valid s m1 e1 :
  -1074 <= e1 -> 0 <= m1 <= 2 ^ 53 -> (-1074 < e1 -> 2 ^ 52 <= m1) ->
  valid_binary (round_result s m1 e1) = true.
Proof.
  intros He [Hm0 Hm1] Hn. unfold round_result.
  destruct (Z.eqb_spec m1 0) as [Z0 | NZ]; [reflexivity |].
  destruct (Z.eqb_spec m1 (2 ^ 53)) as [E53 | N53].
  - destruct (Z.leb_spec (e1 + 1) 971) as [L | G]; [| reflexivity].
    cbn [valid_binary]. unfold bounded, canonical_mantissa.
    change (Zpos (digits2_pos (Z.to_pos (2 ^ 52)))) with 53.
    rewrite fexp_eq. apply andb_true_iff. split; [apply Z.eqb_eq | apply Z.leb_le]; 
      change (emax - prec) with 971; lia.
  - destruct (Z.leb_spec e1 971) as [L | G]; [| reflexivity].
    cbn [valid_binary]. unfold bounded, canonical_mantissa.
    assert (Hp : Zpos (Z.to_pos m1) = m1) by (apply Z2Pos.id; lia).
    pose proof (digits2_bounds (Z.to_pos m1)) as [Lo Hi]. rewrite Hp in Lo, Hi.
    set (d := Zpos (digits2_pos (Z.to_pos m1))) in *.
    assert (Hd : d <= 53).
    { destruct (Z.le_gt_cases d 53); trivial. exfalso.
      assert (2 ^ 53 <= 2 ^ (d - 1)) by (apply Z.pow_le_mono_r; lia). lia. }
    assert (Hd' : -1074 < e1 -> d = 53).
    { intros H. specialize (Hn H).
      destruct (Z.le_gt_cases 53 d); [lia |]. exfalso.
      assert (2 ^ d <= 2 ^ 52) by (apply Z.pow_le_mono_r; unfold d; lia). lia. }
    rewrite fexp_eq. apply andb_true_iff. split; [apply Z.eqb_eq | apply Z.leb_le];
      change (emax - prec) with 971; lia.
Qed.

Lemma SFdiv_valid sx mx ex sy my ey :
  valid_binary (SFdiv prec emax (S754_finite sx mx ex) (S754_finite sy my ey)) = true.
Proof.
  destruct (SFdiv_core (Zpos mx) ex (Zpos my) ey ltac:(lia) ltac:(lia))
    as (n & e & Core & Hs & En & Hk).
  unfold SFdiv. rewrite Core.
  assert (Hn : 0 <= n) by (rewrite En; pose proof (pow2_pos _ Hs); nia).
  destruct (binary_round_aux_quotient (xorb sx sy) n (Zpos my) e ltac:(lia) Hn Hk) as [E _].
  rewrite E.
  destruct (quotient_bounds n (Zpos my) e ltac:(lia) Hn Hk) as (B1 & B2 & B3).
  apply round_result_valid; trivial.
Qed.

Lemma SFdiv_sign sx mx ex sy my ey :
  sign_is (xorb sx sy) (SFdiv prec emax (S754_finite sx mx ex) (S754_finite sy my ey)).
Proof.
  destruct (SFdiv_core (Zpos mx) ex (Zpos my) ey ltac:(lia) ltac:(lia))
    as (n & e & Core & Hs & En & Hk).
  unfold SFdiv. rewrite Core.
  assert (Hn : 0 <= n) by (rewrite En; pose proof (pow2_pos _ Hs); nia).
  destruct (binary_round_aux_quotient (xorb sx sy) n (Zpos my) e ltac:(lia) Hn Hk) as [E _].
  rewrite E. apply sign_round_result.
Qed.

(** [round(x, n)] of a non-negative number is a non-negative number. *)
Lemma round_nonneg x n :
  is_nan x = false -> 0 <= val x ->
  is_nan (Py.round x n) = false /\ 0 <= val (Py.round x n).
Proof.
  intros N H. unfold Py.round.
  destruct (Prim2SF x) as [s | s | | s m e] eqn:E; auto.
  assert (Hs : s = false).
  { unfold val in H. rewrite E in H. cbn [sval] in H. destruct s; trivial.
    pose proof (pow2_pos (e + 1074)). cbn [cond_Zopp] in H.
    destruct (Z.le_gt_cases 0 (e + 1074)); [specialize (H0 H1); nia |].
    pose proof (Prim2SF_valid x) as V. rewrite E in V.
    pose proof (finite_exponent _ _ _ V). lia. }
  subst s. unfold Py.nearest_float.
  destruct (match e with
            | Zneg k => Py.div_half_even (Zpos m * 10 ^ Z.of_N n) (2 ^ Zpos k)
            | _ => Zpos m * 2 ^ e * 10 ^ Z.of_N n
            end) as [| p | p]; try (split; reflexivity).
  set (d := Z.to_pos (10 ^ Z.of_N n)).
  pose proof (SFdiv_valid false p 0 false d 0) as V.
  pose proof (SFdiv_sign false p 0 false d 0) as S.
  rewrite is_nan_spec. unfold val. rewrite (Prim2SF_SF2Prim _ V).
  pose proof infinity_mag_pos as PI.
  destruct (SFdiv prec emax (S754_finite false p 0) (S754_finite false d 0)) as [s | s | | s m' e'];
    cbn [sign_is xorb] in S; try contradiction; subst; cbn [sf_is_nan sval cond_Zopp];
    split; trivial; lia.
Qed.

(** *** The relative error of rounding *)

Lemma RN_error z : 0 <= z -> RN z 1 < infinity_mag -> 2 ^ 53 * Z.abs (RN z 1 - z) <= z.
Proof.
  intros Hz. unfold RN. rewrite Z.div_1_r, Z.mul_1_l.
  set (j := Z.max 0 (Zdigits2 z - 53)).
  intros Hcap. rewrite Z.min_l by lia.
  destruct (Z.eq_dec j 0) as [J0 | JN].
  - rewrite J0. change (2 ^ 0) with 1. rewrite div_half_even_1. 
    replace (z * 1 - z) with 0 by lia. cbn [Z.abs]. lia.
  - assert (Hj : j = Zdigits2 z - 53) by lia.
    assert (Zp : 0 < z). { destruct (Z.eq_dec z 0) as [-> | ]; [cbn in Hj; lia | lia]. }
    destruct (Zdigits2_bounds z Zp) as [Lo _].
    replace (Zdigits2 z - 1) with (52 + j) in Lo by lia.
    rewrite (pow2_split 52 j) in Lo by lia.
    pose proof (pow2_pos j ltac:(lia)) as Pj.
    pose proof (div_half_even_error z (2 ^ j) Pj) as Er.
    change (2 ^ 53) with (2 * 2 ^ 52). lia.
Qed.

Lemma RNs_error z : Z.abs (RNs z) < infinity_mag -> 2 ^ 53 * Z.abs (RNs z - z) <= Z.abs z.
Proof.
  unfold RNs. destruct (Z.ltb_spec z 0); intros Hc.
  - pose proof (RN_error (- z) ltac:(lia) ltac:(lia)). lia.
  - pose proof (RN_error z ltac:(lia) ltac:(lia)). lia.
Qed.

Lemma RNs_val x : is_finite x = true -> RNs (val x) = val x.
Proof.
  intros F. apply RNs_exact; [apply Prim2SF_valid | rewrite <- is_finite_spec; trivial].
Qed.

(** *** Sums of positive numbers *)

Lemma add_infinity_r x y :
  is_nan x = false -> 0 <= val x -> Prim2SF y = S754_infinity false ->
  Prim2SF (x + y) = S754_infinity false.
Proof.
  rewrite is_nan_spec. unfold val. intros N H E. rewrite add_spec, E. unfold SF64add.
  destruct (Prim2SF x) as [s | [] | | s m e]; try discriminate; try reflexivity.
  cbn [sval cond_Zopp] in H. pose proof infinity_mag_pos. lia.
Qed.

Lemma add_infinity_l x y :
  Prim2SF x = S754_infinity false -> is_nan y = false -> 0 <= val y ->
  Prim2SF (x + y) = S754_infinity false.
Proof.
  rewrite is_nan_spec. unfold val. intros E N H. rewrite add_spec, E. unfold SF64add.
  destruct (Prim2SF y) as [s | [] | | s m e]; try discriminate; try reflexivity.
  cbn [sval cond_Zopp] in H. pose proof infinity_mag_pos. lia.
Qed.

(** Adding a positive number to a non-negative one: the sum is positive and
    at least as large as both. *)
Lemma add_pos_pos x y :
  is_nan x = false -> 0 <= val x -> is_nan y = false -> 0 < val y ->
  is_nan (x + y) = false /\ 0 < val (x + y) /\ val x <= val (x + y) /\ val y <= val (x + y).
Proof.
  intros Nx Hx Ny Hy.
  destruct (positive_cases y Ny Hy) as [Fy | Iy].
  - destruct (nonneg_cases x Nx Hx) as [Fx | Ix].
    + destruct (add_val x y Fx Fy) as [E N]. split; trivial. rewrite E.
      pose proof (RNs_pos (val x + val y) ltac:(lia)).
      pose proof (RNs_mono (val x) (val x + val y) ltac:(lia)).
      pose proof (RNs_mono (val y) (val x + val y) ltac:(lia)).
      rewrite RNs_val in * by trivial. lia.
    + pose proof (add_infinity_l x y Ix Ny ltac:(lia)) as E.
      destruct (val_infinity _ E) as [V N]. rewrite V.
      pose proof (val_le_infinity x). pose proof (val_le_infinity y). 
      pose proof infinity_mag_pos. auto.
  - pose proof (add_infinity_r x y Nx Hx Iy) as E.
    destruct (val_infinity _ E) as [V N]. rewrite V.
    pose proof (val_le_infinity x). pose proof (val_le_infinity y). 
    pose proof infinity_mag_pos. auto.
Qed.

(** *** The compensation term of the Neumaier sum *)

Lemma RNs_bounded z t :
  is_finite t = true -> Z.abs z <= val t -> Z.abs (RNs z) <= val t.
Proof.
  intros Ft H. pose proof (RNs_val t Ft) as E.
  pose proof (RNs_mono z (val t) ltac:(lia)).
  pose proof (RNs_mono (- val t) z ltac:(lia)).
  rewrite RNs_opp in *. rewrite E in *. lia.
Qed.

(** [(u - t) + v] for [t = fl(u + v)]: finite, and tiny against [t]. *)
Lemma comp_term_bound u v t :
  is_finite u = true -> is_finite v = true -> is_finite t = true ->
  0 < val u -> 0 < val v -> val t = RNs (val u + val v) ->
  is_finite ((u - t) + v) = true /\ 2 ^ 51 * Z.abs (val ((u - t) + v)) <= val t.
Proof.
  intros Fu Fv Ft Hu Hv Et.
  pose proof (is_finite_val t Ft) as Bt.
  assert (Tu : val u <= val t).
  { rewrite Et, <- (RNs_val u Fu) at 1. apply RNs_mono. lia. }
  assert (Tv : val v <= val t).
  { rewrite Et, <- (RNs_val v Fv) at 1. apply RNs_mono. lia. }
  pose proof (RNs_error (val u + val v) ltac:(rewrite <- Et; lia)) as E1. rewrite <- Et in E1.
  destruct (sub_val u t Fu Ft) as [Ea Na].
  pose proof (RNs_bounded (val u - val t) t Ft ltac:(lia)) as Ba. rewrite <- Ea in Ba.
  assert (Fa : is_finite (u - t) = true) by (apply val_is_finite; trivial; lia).
  assert (A0 : val (u - t) <= 0).
  { rewrite Ea. change 0 with (RNs 0). apply RNs_mono. lia. }
  pose proof (RNs_error (val u - val t) ltac:(rewrite <- Ea; lia)) as E2. rewrite <- Ea in E2.
  destruct (add_val (u - t) v Fa Fv) as [Eb Nb].
  pose proof (RNs_bounded (val (u - t) + val v) t Ft ltac:(lia)) as Bb. rewrite <- Eb in Bb.
  pose proof (RNs_error (val (u - t) + val v) ltac:(rewrite <- Eb; lia)) as E3.
  rewrite <- Eb in E3.
  split; [apply val_is_finite; trivial; lia |].
  change (2 ^ 53) with 9007199254740992 in *. change (2 ^ 51) with 2251799813685248.
  lia.
Qed.

(** One step of the compensated sum on positive finite numbers: the
    compensation stays finite, and small against the running total. *)
Lemma neumaier_step_bound B acc x :
  1 <= B <= 2 ^ 49 ->
  is_finite (fst acc) = true -> 0 < val (fst acc) -> is_finite x = true -> 0 < val x ->
  is_finite (fst acc + x)%float = true -> is_finite (snd acc) = true ->
  2 * (B * Z.abs (val (snd acc))) <= val (fst acc) ->
  is_finite (snd (Py.neumaier_step acc x)) = true /\
  B * Z.abs (val (snd (Py.neumaier_step acc x))) <= val (fst acc + x).
Proof.
  destruct acc as [f c]. cbn [fst snd].
  intros HB Ff Hf Fx Hx Ft Fc Inv.
  destruct (add_val f x Ff Fx) as [Et Nt].
  assert (Tf : val f <= val (f + x)).
  { rewrite Et, <- (RNs_val f Ff) at 1. apply RNs_mono. lia. }
  assert (Step : forall b, is_finite b = true -> 2 ^ 51 * Z.abs (val b) <= val (f + x) ->
            is_finite (c + b) = true /\ B * Z.abs (val (c + b)) <= val (f + x)).
  { intros b Fb Hb. destruct (add_val c b Fc Fb) as [Ec Nc].
    pose proof (is_finite_val _ Ft) as Bt.
    assert (Hc : 2 * Z.abs (val c) <= val f).
    { assert (1 * Z.abs (val c) <= B * Z.abs (val c))
        by (apply Z.mul_le_mono_nonneg_r; lia). lia. }
    assert (Hs : Z.abs (val c + val b) <= val (f + x)).
    { change (2 ^ 51) with 2251799813685248 in Hb. lia. }
    pose proof (RNs_bounded _ _ Ft Hs) as Bc. rewrite <- Ec in Bc.
    split; [apply val_is_finite; trivial; lia |].
    pose proof (RNs_error (val c + val b) ltac:(rewrite <- Ec; lia)) as E. rewrite <- Ec in E.
    assert (Lin : 2 ^ 53 * Z.abs (val (c + b)) <= (2 ^ 53 + 1) * (Z.abs (val c) + Z.abs (val b))).
    { change (2 ^ 53) with 9007199254740992 in *. lia. }
    assert (Q : 4 * (B * Z.abs (val b)) <= val (f + x)).
    { assert (B * Z.abs (val b) <= 2 ^ 49 * Z.abs (val b))
        by (apply Z.mul_le_mono_nonneg_r; lia).
      change (2 ^ 51) with (4 * 2 ^ 49) in Hb. lia. }
    apply (Z.mul_le_mono_nonneg_l _ _ B ltac:(lia)) in Lin.
    change (2 ^ 53) with 9007199254740992 in *.
    replace (B * (9007199254740992 * Z.abs (val (c + b))))
      with (9007199254740992 * (B * Z.abs (val (c + b)))) in Lin by ring.
    replace (B * ((9007199254740992 + 1) * (Z.abs (val c) + Z.abs (val b))))
      with (9007199254740993 * (B * Z.abs (val c)) + 9007199254740993 * (B * Z.abs (val b)))
      in Lin by ring.
    lia. }
  unfold Py.neumaier_step. cbn [snd].
  destruct (abs x <=? abs f)%float.
  - destruct (comp_term_bound f x (f + x) Ff Fx Ft Hf Hx Et) as [Fb Hb].
    exact (Step _ Fb Hb).
  - assert (Et' : val (f + x) = RNs (val x + val f)) by (rewrite Et; f_equal; lia).
    destruct (comp_term_bound x f (f + x) Fx Ff Ft Hx Hf Et') as [Fb Hb].
    exact (Step _ Fb Hb).
Qed.

Lemma neumaier_step_fst acc x : fst (Py.neumaier_step acc x) = (fst acc + x)%float.
Proof. destruct acc as [f c]. unfold Py.neumaier_step. reflexivity. Qed.

End Nearest.

(** ** When a pass raises, and when it cannot *)

(** *** When a pass raises *)

Lemma chiller_raises u cc pi :
  Py.raises (chiller_performance u cc pi) =
  match u with
  | IP => (cc =? 0) || (pi =? 0)
  | SI => (pi =? 0) || (cc / pi =? 0)
  end.
Proof.
  destruct u; unfold chiller_performance.
  - destruct (pi =? 0) eqn:P; [now rewrite truediv_zero |].
    rewrite truediv_nonzero by trivial. cbn [Py.bind orb].
    destruct (cc / pi =? 0) eqn:C; [now rewrite truediv_zero |].
    now rewrite truediv_nonzero.
  - destruct (cc =? 0) eqn:C; [now rewrite truediv_zero |].
    rewrite truediv_nonzero by trivial. cbn [Py.bind orb].
    destruct (pi =? 0) eqn:P.
    + rewrite (truediv_zero _ (pi * 1000)); [reflexivity |].
      apply zero_mul_l; [exact P | reflexivity].
    + rewrite (truediv_nonzero _ (pi * 1000)) by now apply times_1000_nonzero.
      cbn [Py.bind]. now rewrite truediv_nonzero.
Qed.







(** *** The part-load list *)

(** X2: [zip] stops at the shorter list: values after the fourth are never
    read (a zero among them does not raise), a shorter list uses the leading
    weights only, and the empty list raises, its sum being zero. *)
Theorem calc_iplv_zip (alg : Py.summation) (v1 v2 v3 v4 : float) (rest : list float) :
  calc_iplv alg (v1 :: v2 :: v3 :: v4 :: rest) = calc_iplv alg [v1; v2; v3; v4] /\
  calc_iplv alg [] = Raise ZeroDivisionError /\
  Py.raises (calc_iplv alg [v1]) = (v1 =? 0) || (0 + 0.01 / v1 =? 0) /\
  (Py.raises (calc_iplv alg [v1]) = false ->
   calc_iplv alg [v1] = Ok (Py.round (1 / (0 + 0.01 / v1)) 3)).
Proof.
  split; [reflexivity |]. split; [now destruct alg |].
  assert (S : forall x, Py.sum alg [x] = 0 + x) by (intros x; now destruct alg).
  unfold calc_iplv. cbn [weights combine ratios].
  destruct (v1 =? 0) eqn:E.
  - rewrite truediv_zero by trivial. split; [reflexivity | discriminate].
  - rewrite truediv_nonzero by trivial. cbn [Py.bind orb]. rewrite S.
    unfold Py.truediv. destruct (0 + 0.01 / v1 =? 0); split; trivial; discriminate.
Qed.

Lemma calc_iplv_zip_witness :
  calc_iplv Py.Sequential [0.6] = Ok (Py.round (1 / (0 + 0.01 / 0.6)) 3).
Proof.
  apply (proj2 (proj2 (proj2 (calc_iplv_zip Py.Sequential 0.6 0 0 0 [])))).
  reflexivity.
Defined.

(** *** Cooling capacity zero *)

(** X3: a zero cooling capacity raises under either unit system (for a power
    input that is a number): under I-P in the first division, under SI because
    the COP, zero over the power, is zero and [3.5 / cop] divides by it. *)
Theorem zero_capacity_raises (u : unit_system) (cooling_capacity power_input : float) :
  (cooling_capacity =? 0) = true -> is_nan power_input = false ->
  chiller_performance u cooling_capacity power_input = Raise ZeroDivisionError.
Proof.
  intros Hc Hp.
  assert (R : Py.raises (chiller_performance u cooling_capacity power_input) = true).
  { rewrite chiller_raises. destruct u.
    - destruct (power_input =? 0) eqn:P; [reflexivity |]. cbn [orb].
      now apply zero_div.
    - now rewrite Hc. }
  destruct (chiller_performance u cooling_capacity power_input) as [ch | e];
    [discriminate | now rewrite (exn_unique e)].
Qed.

Lemma zero_capacity_raises_witness :
  chiller_performance SI 0 60 = Raise ZeroDivisionError.
Proof. apply (zero_capacity_raises SI 0 60); reflexivity. Defined.

(** ** The cooling tower and the flow rate *)

Lemma is_finite_cp_density : is_finite (cp * density_si) = true.
Proof. reflexivity. Qed.

Lemma val_cp_density : (0 < val (cp * density_si))%Z.
Proof. reflexivity. Qed.

Lemma nonneg_finite x y :
  (0 <=? x) = true -> (x <=? y) = true -> is_finite y = true ->
  is_finite x = true /\ (0 <= val x <= val y)%Z.
Proof.
  intros H0 H Fy. destruct (leb_to_val _ _ H0) as (L0 & _ & Nx).
  destruct (leb_to_val _ _ H) as (L & _ & Ny). change (val 0) with 0%Z in L0.
  split; [| lia]. apply val_is_finite; trivial.
  pose proof (is_finite_val y Fy). pose proof infinity_mag_pos. lia.
Qed.

(** The tower section on ordered temperatures. *)
Lemma tower_ordered_ok (cw_in cw_out wet_bulb : float) :
  (wet_bulb <? cw_out) = true -> (cw_out <? cw_in) = true ->
  is_finite (cw_in - cw_out) = true ->
  exists t, cooling_tower cw_in cw_out wet_bulb = Ok t /\
    (0 <? range t) = true /\ (0 <? approach t) = true /\
    (0 <=? effectiveness t) = true /\ (effectiveness t <=? 1) = true /\
    (0 <=? effectiveness_percent t) = true /\ (effectiveness_percent t <=? 100) = true.
Proof.
  intros Hwo Hoi Fr.
  destruct (sub_pos cw_in cw_out Hoi) as [Nr Hr].
  destruct (sub_pos cw_out wet_bulb Hwo) as [Na Ha].
  destruct (add_pos_ge _ _ Fr Na Ha) as [Ns Hs].
  assert (NZ : ((cw_in - cw_out) + (cw_out - wet_bulb) =? 0) = false)
    by (apply nonzero_of_val; trivial; lia).
  unfold cooling_tower, Py.truediv. rewrite NZ. cbn [Py.bind].
  eexists. split; [reflexivity |]. unfold effectiveness_percent.
  cbn [range approach effectiveness].
  destruct (div_den_mono (cw_in - cw_out) (cw_in - cw_out)
              ((cw_in - cw_out) + (cw_out - wet_bulb)) Fr ltac:(lia) Nr Ns ltac:(lia))
    as ([E0 E1] & _ & Ne).
  rewrite (div_self _ Fr Hr) in E1.
  destruct (mul_pos_mono _ 1 100 Ne eq_refl eq_refl eq_refl (conj E0 E1))
    as ([P0 P1] & Np & _).
  repeat split.
  - apply ltb_of_val; trivial.
  - apply ltb_of_val; trivial.
  - apply leb_of_val; trivial.
  - apply leb_of_val; trivial.
  - apply leb_of_val; trivial.
  - apply leb_of_val; trivial.
Qed.

(** The flow section on ordered capacities and temperature differences. *)
Lemma flow_rate_order (capacity_kw capacity_kw' delta_T delta_T' : float) :
  (0 <=? capacity_kw) = true -> (capacity_kw <=? capacity_kw') = true ->
  is_finite capacity_kw' = true ->
  (0 <? delta_T) = true -> (delta_T <=? delta_T') = true ->
  exists lo hi,
    flow_rate capacity_kw delta_T' = Ok lo /\ flow_rate capacity_kw' delta_T = Ok hi /\
    (0 <=? lo) = true /\ (lo <=? hi) = true.
Proof.
  intros Hc0 Hcc Fc' Hd0 Hdd.
  destruct (nonneg_finite _ _ Hc0 Hcc Fc') as [Fc [C0 C1]].
  destruct (ltb_to_val _ _ Hd0) as (D0 & _ & Nd).
  destruct (leb_to_val _ _ Hdd) as (D1 & _ & Nd').
  change (val 0) with 0%Z in D0.
  destruct (mul_pos_mono_l (cp * density_si) delta_T delta_T' Nd Nd'
              is_finite_cp_density val_cp_density ltac:(lia)) as ([M0 M1] & Nm & Nm').
  assert (Z : (cp * density_si * delta_T =? 0) = false).
  { apply flow_denominator_nonzero. apply nonzero_of_val; trivial. lia. }
  assert (Z' : (cp * density_si * delta_T' =? 0) = false).
  { apply flow_denominator_nonzero. apply nonzero_of_val; trivial. lia. }
  assert (P : (0 < val (cp * density_si * delta_T))%Z).
  { rewrite val_zero in Z by trivial. apply Z.eqb_neq in Z. lia. }
  unfold flow_rate, Py.truediv. rewrite Z, Z'.
  do 2 eexists. split; [reflexivity |]. split; [reflexivity |].
  destruct (div_den_mono capacity_kw _ _ Fc C0 Nm Nm' (conj P M1)) as ([Q0 Q1] & Nq & Nq').
  destruct (is_finite (cp * density_si * delta_T)) eqn:Fm.
  - destruct (div_num_mono capacity_kw capacity_kw' _ (is_finite_not_nan _ Fc)
                (is_finite_not_nan _ Fc') Fm P (conj C0 C1)) as ([R0 R1] & _ & Nr).
    split; apply leb_of_val; trivial. lia.
  - pose proof (val_not_finite _ Nm Fm ltac:(lia)) as I.
    destruct (div_infinity_r capacity_kw' _ Fc' ltac:(lia) I) as [E N].
    destruct (div_infinity_r capacity_kw _ Fc C0 I) as [E1 _].
    split; apply leb_of_val; trivial. rewrite E. lia.
Qed.

(** X4: with the wet bulb below the outlet and the outlet below the inlet
    temperature, and a range that does not overflow, the tower section never
    raises; range and approach are positive, the effectiveness lies in
    [0, 1] and the exported percentage in [0, 100]. *)
Theorem cooling_tower_ordered (cw_in cw_out wet_bulb : float) :
  (wet_bulb <? cw_out) = true -> (cw_out <? cw_in) = true ->
  is_finite (cw_in - cw_out) = true ->
  exists t, cooling_tower cw_in cw_out wet_bulb = Ok t /\
    (0 <? range t) = true /\ (0 <? approach t) = true /\
    (0 <=? effectiveness t) = true /\ (effectiveness t <=? 1) = true /\
    (0 <=? effectiveness_percent t) = true /\ (effectiveness_percent t <=? 100) = true.
Proof. exact (tower_ordered_ok cw_in cw_out wet_bulb). Qed.

Lemma cooling_tower_ordered_witness :
  exists t, cooling_tower 35 30 28 = Ok t /\
    (0 <? range t) = true /\ (0 <? approach t) = true /\
    (0 <=? effectiveness t) = true /\ (effectiveness t <=? 1) = true /\
    (0 <=? effectiveness_percent t) = true /\ (effectiveness_percent t <=? 100) = true.
Proof. apply (cooling_tower_ordered 35 30 28); reflexivity. Defined.

(** With the inlet at the wet bulb, the range and the approach are opposite
    numbers: their sum is zero. *)
Lemma range_approach_cancel (cw_in cw_out wet_bulb : float) :
  (cw_in =? wet_bulb) = true -> is_finite (cw_in - cw_out) = true ->
  ((cw_in - cw_out) + (cw_out - wet_bulb) =? 0) = true.
Proof.
  intros He Fr.
  destruct (sub_finite_inv _ _ Fr) as [Fi Fo].
  destruct (eqb_to_val _ _ He) as (Ev & Ni & Nw).
  assert (Fw : is_finite wet_bulb = true).
  { apply val_is_finite; trivial. rewrite <- Ev. apply is_finite_val; trivial. }
  destruct (sub_val cw_in cw_out Fi Fo) as [Er Nr].
  destruct (sub_val cw_out wet_bulb Fo Fw) as [Ea Na].
  assert (Eo : val (cw_out - wet_bulb) = (- val (cw_in - cw_out))%Z).
  { rewrite Ea, Er, <- RNs_opp. f_equal. lia. }
  assert (Fa : is_finite (cw_out - wet_bulb) = true).
  { apply val_is_finite; trivial. rewrite Eo. pose proof (is_finite_val _ Fr). lia. }
  destruct (add_val _ _ Fr Fa) as [Es Ns].
  apply zero_of_val; trivial. rewrite Es, Eo.
  replace (val (cw_in - cw_out) + - val (cw_in - cw_out))%Z with 0%Z by lia. reflexivity.
Qed.

(** X5: when the inlet temperature equals the wet bulb, range and approach
    cancel exactly and the tower section raises [ZeroDivisionError], whatever
    the outlet temperature (as long as the range is finite). *)
Theorem cooling_tower_inlet_at_wet_bulb (cw_in cw_out wet_bulb : float) :
  (cw_in =? wet_bulb) = true -> is_finite (cw_in - cw_out) = true ->
  cooling_tower cw_in cw_out wet_bulb = Raise ZeroDivisionError.
Proof.
  intros He Fr. unfold cooling_tower, Py.truediv.
  rewrite (range_approach_cancel _ _ _ He Fr). reflexivity.
Qed.

Lemma cooling_tower_inlet_at_wet_bulb_witness :
  cooling_tower 28 30.1 28 = Raise ZeroDivisionError.
Proof. apply cooling_tower_inlet_at_wet_bulb; reflexivity. Defined.

(** X6: for non-negative finite capacities and a positive temperature
    difference the flow section never raises, and the required flow rate
    grows with the capacity and shrinks as delta-T grows:
    [flow_rate capacity delta_T' <= flow_rate capacity' delta_T] whenever
    [0 <= capacity <= capacity'] and [0 < delta_T <= delta_T']. *)
Theorem flow_rate_monotone (capacity_kw capacity_kw' delta_T delta_T' : float) :
  (0 <=? capacity_kw) = true -> (capacity_kw <=? capacity_kw') = true ->
  is_finite capacity_kw' = true ->
  (0 <? delta_T) = true -> (delta_T <=? delta_T') = true ->
  exists lo hi,
    flow_rate capacity_kw delta_T' = Ok lo /\ flow_rate capacity_kw' delta_T = Ok hi /\
    (0 <=? lo) = true /\ (lo <=? hi) = true.
Proof. exact (flow_rate_order capacity_kw capacity_kw' delta_T delta_T'). Qed.

Lemma flow_rate_monotone_witness :
  exists lo hi,
    flow_rate 1000 16 = Ok lo /\ flow_rate 1200 4 = Ok hi /\
    (0 <=? lo) = true /\ (lo <=? hi) = true.
Proof. apply (flow_rate_monotone 1000 1200 4 16); reflexivity. Defined.

(** Adding a zero to a nonzero number leaves it nonzero. *)
Lemma add_zero_l x y :
  (x =? 0) = true -> is_nan y = false -> (y =? 0) = false ->
  (x + y =? 0) = false /\ is_nan (x + y) = false.
Proof.
  rewrite !is_zero_spec, !is_nan_spec, add_spec. unfold SF64add.
  destruct (Prim2SF x) as [sx | sx | | sx mx ex]; try discriminate;
    destruct (Prim2SF y) as [sy | sy | | sy my ey]; try discriminate; auto.
Qed.

(** Two different finite numbers have a nonzero difference. *)
Lemma sub_nonzero x y :
  is_finite x = true -> is_finite y = true -> (x =? y) = false ->
  (x - y =? 0) = false /\ is_nan (x - y) = false.
Proof.
  intros Fx Fy H. destruct (sub_val x y Fx Fy) as [E N].
  rewrite eqb_val in H by (apply is_finite_not_nan; trivial). apply Z.eqb_neq in H.
  split; trivial. apply nonzero_of_val; trivial. rewrite E.
  destruct (Z.lt_ge_cases (val x - val y) 0).
  - pose proof (RNs_pos (- (val x - val y)) ltac:(lia)) as P. rewrite RNs_opp in P. lia.
  - pose proof (RNs_pos (val x - val y) ltac:(lia)). lia.
Qed.

(** X7: when the outlet temperature equals the inlet temperature the range
    is zero; the tower section then returns an effectiveness of zero, shown
    and exported as zero percent, provided the wet bulb differs from them
    (otherwise it raises, the approach being zero as well). *)
Theorem cooling_tower_no_range (cw_in cw_out wet_bulb : float) :
  (cw_in =? cw_out) = true -> is_finite cw_in = true -> is_finite wet_bulb = true ->
  if cw_out =? wet_bulb
  then cooling_tower cw_in cw_out wet_bulb = Raise ZeroDivisionError
  else exists t, cooling_tower cw_in cw_out wet_bulb = Ok t /\
         (range t =? 0) = true /\ (effectiveness t =? 0) = true /\
         (effectiveness_percent t =? 0) = true.
Proof.
  intros He Fi Fw.
  destruct (eqb_to_val _ _ He) as (Ev & Ni & No).
  assert (Fo : is_finite cw_out = true).
  { apply val_is_finite; trivial. rewrite <- Ev. apply is_finite_val; trivial. }
  destruct (sub_val cw_in cw_out Fi Fo) as [Er Nr].
  assert (Zr : (cw_in - cw_out =? 0) = true).
  { apply zero_of_val; trivial. rewrite Er. replace (val cw_in - val cw_out)%Z with 0%Z by lia.
    reflexivity. }
  assert (Fr : is_finite (cw_in - cw_out) = true).
  { apply val_is_finite; trivial. rewrite val_zero in Zr by trivial. apply Z.eqb_eq in Zr.
    rewrite Zr. pose proof infinity_mag_pos. lia. }
  destruct (cw_out =? wet_bulb) eqn:Eow.
  - destruct (eqb_to_val _ _ Eow) as (Ew & _ & Nw).
    assert (Eiw : (cw_in =? wet_bulb) = true).
    { rewrite eqb_val by trivial. apply Z.eqb_eq. lia. }
    unfold cooling_tower, Py.truediv.
    rewrite (range_approach_cancel _ _ _ Eiw Fr). reflexivity.
  - destruct (sub_nonzero cw_out wet_bulb Fo Fw Eow) as [Za Na].
    destruct (add_zero_l _ _ Zr Na Za) as [Zs Ns].
    unfold cooling_tower, Py.truediv. rewrite Zs. cbn [Py.bind].
    eexists. split; [reflexivity |]. unfold effectiveness_percent.
    cbn [range effectiveness].
    assert (Ze : ((cw_in - cw_out) / (cw_in - cw_out + (cw_out - wet_bulb)) =? 0) = true)
      by (apply zero_div; trivial).
    repeat split; trivial. apply zero_mul_l; [exact Ze | reflexivity].
Qed.

Lemma cooling_tower_no_range_witness :
  exists t, cooling_tower 30 30 28 = Ok t /\
    (range t =? 0) = true /\ (effectiveness t =? 0) = true /\
    (effectiveness_percent t =? 0) = true.
Proof. apply (cooling_tower_no_range 30 30 28); reflexivity. Defined.

(** ** The chiller and the pump on positive inputs *)

Lemma positive_finite x :
  (0 <? x) = true -> is_finite x = true ->
  is_nan x = false /\ (0 < val x)%Z.
Proof.
  intros H F. destruct (ltb_to_val _ _ H) as (L & _ & N). change (val 0) with 0%Z in L. auto.
Qed.

Lemma nonzero_positive x : is_nan x = false -> (0 <= val x)%Z -> (x =? 0) = false -> (0 < val x)%Z.
Proof.
  intros N H Z. rewrite val_zero in Z by trivial. apply Z.eqb_neq in Z. lia.
Qed.

(** Dividing by a number above one, or multiplying by it. *)
Lemma div_by_large x c :
  is_nan x = false -> (0 <= val x)%Z -> is_finite c = true -> (val 1 <= val c)%Z ->
  (0 <= val (x / c) <= val x)%Z /\ is_nan (x / c) = false.
Proof.
  intros Nx Hx Fc Hc.
  pose proof one_mag_pos as PO. pose proof infinity_mag_pos as PI.
  assert (P1 : (0 < val 1)%Z) by reflexivity.
  destruct (nonneg_cases x Nx Hx) as [Fx | Ix].
  - destruct (div_den_mono x 1 c Fx Hx eq_refl (is_finite_not_nan _ Fc) (conj P1 Hc))
      as ([E0 E1] & N1 & Nc).
    destruct (div_val x 1 Fx eq_refl Hx P1) as [E _].
    rewrite E in E1. change (val 1) with one_mag in E1.
    rewrite (RN_eq (val x * one_mag) one_mag (val x) 1) in E1 by lia.
    assert (Ex : RNs (val x) = val x).
    { apply RNs_exact; [apply Prim2SF_valid | rewrite <- is_finite_spec; trivial]. }
    unfold RNs in Ex. destruct (Z.ltb_spec (val x) 0); [lia |]. rewrite Ex in E1. auto.
  - pose proof (div_infinity_l x c Ix Fc ltac:(lia)) as E.
    destruct (val_infinity _ E) as [V N]. destruct (val_infinity _ Ix) as [Vx _].
    rewrite V, Vx. split; trivial. lia.
Qed.

Lemma mul_by_large x c :
  is_nan x = false -> (0 <= val x)%Z -> is_finite c = true -> (val 1 <= val c)%Z ->
  (val x <= val (x * c))%Z /\ is_nan (x * c) = false.
Proof.
  intros Nx Hx Fc Hc.
  pose proof one_mag_pos as PO. pose proof infinity_mag_pos as PI.
  assert (P1 : (0 < val 1)%Z) by reflexivity.
  destruct (nonneg_cases x Nx Hx) as [Fx | Ix].
  - destruct (mul_finite_mono x x 1 c Fx Fx eq_refl Fc ltac:(lia) ltac:(lia))
      as ([E0 E1] & _ & Nc).
    rewrite mul_1_r in E1. auto.
  - pose proof (mul_infinity_l x c Ix Fc ltac:(lia)) as E.
    destruct (val_infinity _ E) as [V N]. destruct (val_infinity _ Ix) as [Vx _].
    rewrite V, Vx. split; trivial. lia.
Qed.

(** What a successful chiller section returns. *)
Lemma chiller_performance_ok u cc pi c :
  chiller_performance u cc pi = Ok c ->
  match u with
  | IP => (cc =? 0) = false /\ (pi * 1000 =? 0) = false /\
          kw_per_ton c = pi / cc /\ eer c = cc * 12000 / (pi * 1000) /\
          cop c = cc * 12000 / (pi * 1000) / 3.412
  | SI => (pi =? 0) = false /\ (cc / pi =? 0) = false /\
          cop c = cc / pi /\ eer c = cc / pi * 3.412 /\ kw_per_ton c = 3.5 / (cc / pi)
  end.
Proof.
  destruct u; unfold chiller_performance, Py.truediv.
  - destruct (pi =? 0); [discriminate |]. cbn [Py.bind].
    destruct (cc / pi =? 0); [discriminate |]. cbn [Py.bind].
    intros H. injection H as <-. auto.
  - destruct (cc =? 0); [discriminate |]. cbn [Py.bind].
    destruct (pi * 1000 =? 0); [discriminate |]. cbn [Py.bind].
    change (3.412 =? 0) with false. cbn [Py.bind].
    intros H. injection H as <-. auto.
Qed.

(** The chiller section on positive inputs. *)
Lemma chiller_bounds_ok (u : unit_system) (cooling_capacity power_input : float)
    (c : chiller) :
  (0 <? cooling_capacity) = true -> is_finite cooling_capacity = true ->
  (0 <? power_input) = true -> is_finite power_input = true ->
  (u = IP -> is_finite (cooling_capacity * 12000) = true) ->
  chiller_performance u cooling_capacity power_input = Ok c ->
  (0 <=? cop c) = true /\ (cop c <=? eer c) = true /\ (0 <=? kw_per_ton c) = true.
Proof.
  intros Hc Fc Hp Fp Ov Hok.
  destruct (positive_finite _ Hc Fc) as [Nc Pc].
  destruct (positive_finite _ Hp Fp) as [Np Pp].
  apply chiller_performance_ok in Hok. destruct u.
  - destruct Hok as (Zp & Zc & -> & -> & ->).
    destruct (div_val cooling_capacity power_input Fc Fp ltac:(lia) Pp) as [E N].
    assert (H0 : (0 <= val (cooling_capacity / power_input))%Z).
    { rewrite E. apply RN_nonneg; [| lia]. pose proof one_mag_pos. nia. }
    pose proof (nonzero_positive _ N H0 Zc) as P.
    destruct (mul_by_large _ 3.412 N H0 eq_refl ltac:(vm_compute; discriminate)) as [M Nm].
    destruct (div_den_mono 3.5 _ _ eq_refl ltac:(vm_compute; discriminate) N N
                (conj P (Z.le_refl _))) as ([K0 _] & Nk & _).
    repeat split; apply leb_of_val; trivial.
  - destruct Hok as (Zc & Zp & -> & -> & ->).
    specialize (Ov eq_refl).
    destruct (div_val power_input cooling_capacity Fp Fc ltac:(lia) Pc) as [E N].
    assert (K0 : (0 <= val (power_input / cooling_capacity))%Z).
    { rewrite E. apply RN_nonneg; [| lia]. pose proof one_mag_pos. nia. }
    destruct (mul_pos_mono cooling_capacity cooling_capacity 12000 Nc Nc eq_refl eq_refl
                ltac:(lia)) as ([A0 _] & Na & _).
    destruct (mul_pos_mono power_input power_input 1000 Np Np eq_refl eq_refl
                ltac:(lia)) as ([B0 _] & Nb & _).
    pose proof (nonzero_positive _ Nb B0 Zp) as PB.
    destruct (div_den_mono (cooling_capacity * 12000) _ _ Ov A0 Nb Nb
                (conj PB (Z.le_refl _))) as ([E0 _] & Ne & _).
    destruct (div_by_large _ 3.412 Ne E0 eq_refl ltac:(vm_compute; discriminate))
      as ([C0 C1] & Ncop).
    repeat split; apply leb_of_val; trivial.
Qed.

Lemma density_positive u : is_finite (density u) = true /\ (0 < val (density u))%Z.
Proof. destruct u; split; reflexivity. Qed.

Lemma g_positive u : is_finite (g u) = true /\ (0 < val (g u))%Z.
Proof. destruct u; split; reflexivity. Qed.

(** The pump section on ordered flows and heads. *)
Lemma pump_order (u : unit_system)
    (flow flow' head head' pump_power : float) :
  (0 <=? flow) = true -> (flow <=? flow') = true -> is_finite flow' = true ->
  (0 <=? head) = true -> (head <=? head') = true -> is_finite head' = true ->
  (0 <? pump_power) = true -> is_finite pump_power = true ->
  exists p p',
    pump_performance u flow head pump_power = Ok p /\
    pump_performance u flow' head' pump_power = Ok p' /\
    (0 <=? hydraulic_power p) = true /\ (hydraulic_power p <=? hydraulic_power p') = true /\
    (0 <=? efficiency p) = true /\ (efficiency p <=? efficiency p') = true.
Proof.
  intros Hf0 Hff Ff' Hh0 Hhh Fh' Hp Fp.
  destruct (nonneg_finite _ _ Hf0 Hff Ff') as [Ff Bf].
  destruct (nonneg_finite _ _ Hh0 Hhh Fh') as [Fh Bh].
  destruct (positive_finite _ Hp Fp) as [Np Pp].
  destruct (density_positive u) as [Fd Pd]. destruct (g_positive u) as [Fg Pg].
  destruct (mul_finite_mono flow flow' head head' Ff Ff' Fh Fh' Bf Bh) as (A & Na & Na').
  destruct (mul_pos_mono _ _ (density u) Na Na' Fd Pd A) as (B & Nb & Nb').
  destruct (mul_pos_mono _ _ (g u) Nb Nb' Fg Pg B) as (C & Nc & Nc').
  destruct (div_num_mono _ _ 1000 Nc Nc' eq_refl eq_refl C) as (H & Nh & Nh').
  destruct (div_num_mono _ _ pump_power Nh Nh' Fp Pp H) as (R & Nr & Nr').
  destruct (mul_pos_mono _ _ 100 Nr Nr' eq_refl eq_refl R) as (E & Ne & Ne').
  assert (Z : (pump_power =? 0) = false) by (apply nonzero_of_val; trivial; lia).
  unfold pump_performance, Py.truediv. change (1000 =? 0) with false. cbn [Py.bind].
  rewrite Z. cbn [Py.bind]. do 2 eexists. split; [reflexivity |]. split; [reflexivity |].
  cbn [hydraulic_power efficiency]. destruct H as [H0 H1], E as [E0 E1].
  repeat split; apply leb_of_val; trivial.
Qed.

(** X8: for positive finite capacity and power (and, under I-P units, a
    capacity whose product with 12000 does not overflow) a successful chiller
    section returns non-negative metrics with [COP <= EER]. *)
Theorem chiller_performance_bounds (u : unit_system) (cooling_capacity power_input : float)
    (c : chiller) :
  (0 <? cooling_capacity) = true -> is_finite cooling_capacity = true ->
  (0 <? power_input) = true -> is_finite power_input = true ->
  (u = IP -> is_finite (cooling_capacity * 12000) = true) ->
  chiller_performance u cooling_capacity power_input = Ok c ->
  (0 <=? cop c) = true /\ (cop c <=? eer c) = true /\ (0 <=? kw_per_ton c) = true.
Proof. exact (chiller_bounds_ok u cooling_capacity power_input c). Qed.

Lemma chiller_performance_bounds_witness :
  exists c, chiller_performance IP 100 60 = Ok c /\
    (0 <=? cop c) = true /\ (cop c <=? eer c) = true /\ (0 <=? kw_per_ton c) = true.
Proof.
  eexists. split; [reflexivity |].
  apply (chiller_performance_bounds IP 100 60); reflexivity.
Defined.

(** X9: at a fixed positive capacity, a larger power input never gives a
    higher COP or EER, and never a lower kW/ton, under either unit system. *)
Theorem chiller_performance_power_monotone (u : unit_system)
    (cooling_capacity power_input power_input' : float) (c c' : chiller) :
  (0 <? cooling_capacity) = true -> is_finite cooling_capacity = true ->
  (u = IP -> is_finite (cooling_capacity * 12000) = true) ->
  (0 <? power_input) = true -> (power_input <=? power_input') = true ->
  is_finite power_input' = true ->
  chiller_performance u cooling_capacity power_input = Ok c ->
  chiller_performance u cooling_capacity power_input' = Ok c' ->
  (cop c' <=? cop c) = true /\ (eer c' <=? eer c) = true /\
  (kw_per_ton c <=? kw_per_ton c') = true.
Proof.
  intros Hc Fc Ov Hp Hpp Fp' Hok Hok'.
  destruct (positive_finite _ Hc Fc) as [Nc Pc].
  destruct (ltb_to_val _ _ Hp) as (Pp & _ & Np). change (val 0) with 0%Z in Pp.
  destruct (leb_to_val _ _ Hpp) as (Lp & _ & Np').
  assert (Fp : is_finite power_input = true).
  { apply val_is_finite; trivial. pose proof (is_finite_val _ Fp').
    pose proof infinity_mag_pos. lia. }
  apply chiller_performance_ok in Hok. apply chiller_performance_ok in Hok'. destruct u.
  - destruct Hok as (Zp & Zc & -> & -> & ->). destruct Hok' as (Zp' & Zc' & -> & -> & ->).
    destruct (div_den_mono cooling_capacity power_input power_input' Fc ltac:(lia) Np Np'
                (conj Pp Lp)) as ([C0 C1] & N & N').
    pose proof (nonzero_positive _ N' C0 Zc') as P'.
    destruct (mul_pos_mono _ _ 3.412 N' N eq_refl eq_refl (conj C0 C1)) as ([_ M] & Nm' & Nm).
    destruct (div_den_mono 3.5 _ _ eq_refl ltac:(vm_compute; discriminate) N' N
                (conj P' C1)) as ([_ K] & Nk' & Nk).
    repeat split; apply leb_of_val; trivial.
  - destruct Hok as (Zc & Zp & -> & -> & ->). destruct Hok' as (_ & Zp' & -> & -> & ->).
    specialize (Ov eq_refl).
    destruct (div_num_mono power_input power_input' cooling_capacity Np Np' Fc Pc
                ltac:(lia)) as ([_ K] & Nk & Nk').
    destruct (mul_pos_mono cooling_capacity cooling_capacity 12000 Nc Nc eq_refl eq_refl
                ltac:(lia)) as ([A0 _] & Na & _).
    destruct (mul_pos_mono power_input power_input' 1000 Np Np' eq_refl eq_refl
                ltac:(lia)) as ([B0 B1] & Nb & Nb').
    pose proof (nonzero_positive _ Nb B0 Zp) as PB.
    destruct (div_den_mono (cooling_capacity * 12000) _ _ Ov A0 Nb Nb'
                (conj PB B1)) as ([E0 E1] & Ne & Ne').
    destruct (div_num_mono _ _ 3.412 Ne' Ne eq_refl eq_refl (conj E0 E1))
      as ([_ C1] & Ncop' & Ncop).
    repeat split; apply leb_of_val; trivial.
Qed.

Lemma chiller_performance_power_monotone_witness :
  exists c c', chiller_performance SI 100 60 = Ok c /\ chiller_performance SI 100 80 = Ok c' /\
    (cop c' <=? cop c) = true /\ (eer c' <=? eer c) = true /\
    (kw_per_ton c <=? kw_per_ton c') = true.
Proof.
  do 2 eexists. split; [reflexivity |]. split; [reflexivity |].
  apply (chiller_performance_power_monotone SI 100 60 80); reflexivity.
Defined.

(** X10: for non-negative finite flow and head and a positive finite pump
    power the pump section never raises; hydraulic power and efficiency are
    non-negative and grow with the flow and with the head. *)
Theorem pump_performance_monotone (u : unit_system)
    (flow flow' head head' pump_power : float) :
  (0 <=? flow) = true -> (flow <=? flow') = true -> is_finite flow' = true ->
  (0 <=? head) = true -> (head <=? head') = true -> is_finite head' = true ->
  (0 <? pump_power) = true -> is_finite pump_power = true ->
  exists p p',
    pump_performance u flow head pump_power = Ok p /\
    pump_performance u flow' head' pump_power = Ok p' /\
    (0 <=? hydraulic_power p) = true /\ (hydraulic_power p <=? hydraulic_power p') = true /\
    (0 <=? efficiency p) = true /\ (efficiency p <=? efficiency p') = true.
Proof. exact (pump_order u flow flow' head head' pump_power). Qed.

Lemma pump_performance_monotone_witness :
  exists p p',
    pump_performance SI 0.02 30 6 = Ok p /\
    pump_performance SI 0.025 32 6 = Ok p' /\
    (0 <=? hydraulic_power p) = true /\ (hydraulic_power p <=? hydraulic_power p') = true /\
    (0 <=? efficiency p) = true /\ (efficiency p <=? efficiency p') = true.
Proof. apply (pump_performance_monotone SI 0.02 0.025 30 32 6); reflexivity. Defined.

(** ** The part-load value on positive inputs *)

(** A weight over a positive finite value: nonzero, whatever the value. *)
Lemma weight_ratio_pos w v :
  is_finite w = true -> (2 ^ 1067 <= val w)%Z -> (0 <? v) = true -> is_finite v = true ->
  (v =? 0) = false /\ is_nan (w / v) = false /\ (0 < val (w / v))%Z.
Proof.
  intros Fw Hw Hv Fv. destruct (positive_finite _ Hv Fv) as [Nv Pv].
  pose proof (pow2_pos 1067 ltac:(lia)).
  destruct (div_val w v Fw Fv ltac:(lia) Pv) as [E N].
  split; [apply nonzero_of_val; trivial; lia |]. split; trivial.
  rewrite E. pose proof (is_finite_val v Fv) as Bv.
  assert (infinity_mag <= val w * one_mag)%Z.
  { change infinity_mag with (2 ^ 1024 * one_mag)%Z.
    apply Z.mul_le_mono_nonneg_r; [apply Z.lt_le_incl, pow2_pos; lia |].
    transitivity (2 ^ 1067)%Z; [apply Z.pow_le_mono_r; lia | trivial]. }
  pose proof (RN_pos (val w * one_mag) (val v) Pv ltac:(lia)). lia.
Qed.

Lemma sum_sequential_pos q1 q2 q3 q4 :
  is_nan q1 = false -> (0 < val q1)%Z -> is_nan q2 = false -> (0 < val q2)%Z ->
  is_nan q3 = false -> (0 < val q3)%Z -> is_nan q4 = false -> (0 < val q4)%Z ->
  is_nan (0 + q1 + q2 + q3 + q4) = false /\ (0 < val (0 + q1 + q2 + q3 + q4))%Z.
Proof.
  intros N1 H1 N2 H2 N3 H3 N4 H4.
  destruct (add_pos_pos 0 q1 eq_refl ltac:(reflexivity) N1 H1) as (M1 & P1 & _).
  destruct (add_pos_pos _ q2 M1 ltac:(lia) N2 H2) as (M2 & P2 & _).
  destruct (add_pos_pos _ q3 M2 ltac:(lia) N3 H3) as (M3 & P3 & _).
  destruct (add_pos_pos _ q4 M3 ltac:(lia) N4 H4) as (M4 & P4 & _). auto.
Qed.

(** The builtin [sum] of four positive numbers is positive, with or without
    the compensation term. *)
Lemma sum_pos alg q1 q2 q3 q4 :
  is_nan q1 = false -> (0 < val q1)%Z -> is_nan q2 = false -> (0 < val q2)%Z ->
  is_nan q3 = false -> (0 < val q3)%Z -> is_nan q4 = false -> (0 < val q4)%Z ->
  is_nan (Py.sum alg [q1; q2; q3; q4]) = false /\ (0 < val (Py.sum alg [q1; q2; q3; q4]))%Z.
Proof.
  intros N1 H1 N2 H2 N3 H3 N4 H4.
  pose proof (sum_sequential_pos q1 q2 q3 q4 N1 H1 N2 H2 N3 H3 N4 H4) as [NS PS].
  destruct alg; [exact (conj NS PS) |].
  unfold Py.sum. cbn [fold_left].
  set (a1 := Py.neumaier_step (0 + q1, 0) q2).
  set (a2 := Py.neumaier_step a1 q3).
  set (a3 := Py.neumaier_step a2 q4).
  assert (E1 : fst a1 = 0 + q1 + q2) by (unfold a1; rewrite neumaier_step_fst; reflexivity).
  assert (E2 : fst a2 = 0 + q1 + q2 + q3) by (unfold a2; rewrite neumaier_step_fst, E1; reflexivity).
  assert (E3 : fst a3 = 0 + q1 + q2 + q3 + q4) by (unfold a3; rewrite neumaier_step_fst, E2; reflexivity).
  destruct (add_pos_pos 0 q1 eq_refl ltac:(reflexivity) N1 H1) as (M1 & P1 & _ & L1).
  destruct (add_pos_pos _ q2 M1 ltac:(lia) N2 H2) as (M2 & P2 & K2 & L2).
  destruct (add_pos_pos _ q3 M2 ltac:(lia) N3 H3) as (M3 & P3 & K3 & L3).
  destruct (add_pos_pos _ q4 M3 ltac:(lia) N4 H4) as (M4 & P4 & K4 & L4).
  destruct (is_finite (0 + q1 + q2 + q3 + q4)) eqn:F4.
  - (* every partial sum and every item is finite *)
    pose proof (is_finite_val _ F4) as B4.
    assert (F3 : is_finite (0 + q1 + q2 + q3) = true) by (apply val_is_finite; trivial; lia).
    assert (F2 : is_finite (0 + q1 + q2) = true) by (apply val_is_finite; trivial; lia).
    assert (F1 : is_finite (0 + q1) = true) by (apply val_is_finite; trivial; lia).
    assert (G4 : is_finite q4 = true) by (apply val_is_finite; trivial; lia).
    assert (G3 : is_finite q3 = true) by (apply val_is_finite; trivial; lia).
    assert (G2 : is_finite q2 = true) by (apply val_is_finite; trivial; lia).
    destruct (neumaier_step_bound (2 ^ 49) (0 + q1, 0) q2 ltac:(lia) F1 P1 G2 H2 F2 eq_refl
                ltac:(cbn [fst snd]; change (val 0) with 0%Z; cbn [Z.abs]; lia)) as (C1 & I1).
    fold a1 in C1, I1. cbn [fst] in I1.
    destruct (neumaier_step_bound (2 ^ 48) a1 q3 ltac:(lia) ltac:(rewrite E1; exact F2)
                ltac:(rewrite E1; exact P2) G3 H3 ltac:(rewrite E1; exact F3) C1
                ltac:(rewrite E1; change (2 ^ 49)%Z with (2 * 2 ^ 48)%Z in I1; lia))
      as (C2 & I2).
    fold a2 in C2, I2. rewrite E1 in I2.
    destruct (neumaier_step_bound (2 ^ 47) a2 q4 ltac:(lia) ltac:(rewrite E2; exact F3)
                ltac:(rewrite E2; exact P3) G4 H4 ltac:(rewrite E2; exact F4) C2
                ltac:(rewrite E2; change (2 ^ 48)%Z with (2 * 2 ^ 47)%Z in I2; lia))
      as (C3 & I3).
    fold a3 in C3, I3. rewrite E2 in I3.
    clearbody a3. destruct a3 as [f c]. cbn [fst snd] in *. subst f.
    destruct (negb (c =? 0) && is_finite c); [| auto].
    destruct (add_val _ c F4 C3) as [E N]. split; trivial. rewrite E.
    assert (Z.abs (val c) < val (0 + q1 + q2 + q3 + q4))%Z.
    { destruct (Z.eq_dec (val c) 0) as [-> | NZ]; [cbn [Z.abs]; lia |].
      assert (2 * Z.abs (val c) <= 2 ^ 47 * Z.abs (val c))%Z
        by (apply Z.mul_le_mono_nonneg_r; lia). lia. }
    pose proof (RNs_pos (val (0 + q1 + q2 + q3 + q4) + val c) ltac:(lia)). lia.
  - (* the total has overflowed to +inf, and stays there *)
    pose proof (val_not_finite _ M4 F4 ltac:(lia)) as I4.
    clearbody a3. destruct a3 as [f c]. cbn [fst] in E3. subst f.
    destruct (negb (c =? 0) && is_finite c) eqn:Ec; [| auto].
    apply andb_true_iff in Ec as [_ Fc].
    assert (E : Prim2SF (0 + q1 + q2 + q3 + q4 + c) = S754_infinity false).
    { rewrite add_spec, I4. unfold SF64add. rewrite is_finite_spec in Fc.
      destruct (Prim2SF c); try discriminate; reflexivity. }
    destruct (val_infinity _ E) as [V N]. rewrite V. split; trivial. apply pow2_pos. lia.
Qed.

(** The part-load section on positive values. *)
Lemma iplv_positive_ok (alg : Py.summation) (v1 v2 v3 v4 : float) :
  (0 <? v1) = true -> is_finite v1 = true ->
  (0 <? v2) = true -> is_finite v2 = true ->
  (0 <? v3) = true -> is_finite v3 = true ->
  (0 <? v4) = true -> is_finite v4 = true ->
  exists r, calc_iplv alg [v1; v2; v3; v4] = Ok r /\ (0 <=? r) = true.
Proof.
  intros H1 F1 H2 F2 H3 F3 H4 F4.
  destruct (weight_ratio_pos 0.01 v1 eq_refl ltac:(vm_compute; discriminate) H1 F1)
    as (Z1 & N1 & P1).
  destruct (weight_ratio_pos 0.42 v2 eq_refl ltac:(vm_compute; discriminate) H2 F2)
    as (Z2 & N2 & P2).
  destruct (weight_ratio_pos 0.45 v3 eq_refl ltac:(vm_compute; discriminate) H3 F3)
    as (Z3 & N3 & P3).
  destruct (weight_ratio_pos 0.12 v4 eq_refl ltac:(vm_compute; discriminate) H4 F4)
    as (Z4 & N4 & P4).
  destruct (sum_pos alg _ _ _ _ N1 P1 N2 P2 N3 P3 N4 P4) as [NS PS].
  unfold calc_iplv. rewrite ratios_weights by trivial. cbn [Py.bind].
  rewrite truediv_nonzero by (apply nonzero_of_val; trivial; lia). cbn [Py.bind].
  eexists. split; [reflexivity |].
  destruct (div_den_mono 1 _ _ eq_refl ltac:(vm_compute; discriminate) NS NS
              (conj PS (Z.le_refl _))) as ([R0 _] & NR & _).
  destruct (round_nonneg _ 3 NR R0) as [Nr Hr].
  apply leb_of_val; trivial.
Qed.

(** X11: for four positive finite part-load values the IPLV section never
    raises, under the plain and under the compensated builtin [sum], and the
    value it returns is not negative. *)
Theorem calc_iplv_positive (alg : Py.summation) (v1 v2 v3 v4 : float) :
  (0 <? v1) = true -> is_finite v1 = true ->
  (0 <? v2) = true -> is_finite v2 = true ->
  (0 <? v3) = true -> is_finite v3 = true ->
  (0 <? v4) = true -> is_finite v4 = true ->
  exists r, calc_iplv alg [v1; v2; v3; v4] = Ok r /\ (0 <=? r) = true.
Proof. exact (iplv_positive_ok alg v1 v2 v3 v4). Qed.

Lemma calc_iplv_positive_witness :
  exists r, calc_iplv Py.Compensated [0.6; 0.65; 0.72; 0.85] = Ok r /\ (0 <=? r) = true.
Proof. apply calc_iplv_positive; reflexivity. Defined.

(** ** The whole pass *)




(** *** The chart against the export *)

Lemma leb_trans x y z : (x <=? y) = true -> (y <=? z) = true -> (x <=? z) = true.
Proof.
  intros H1 H2. destruct (leb_to_val _ _ H1) as (L1 & Nx & Ny).
  destruct (leb_to_val _ _ H2) as (L2 & _ & Nz). apply leb_of_val; trivial. lia.
Qed.

(** X13: in a pass that ends well with a positive COP, the chart has the four
    load points 25, 50, 75 and 100, none of its values lies above the
    exported COP or below zero, and its last point is the exported COP
    itself. *)
Theorem chart_below_export (alg : Py.summation) (i : inputs) (p : page) :
  run alg i = Ok p -> (0 <? COP (page_data p)) = true ->
  map fst (page_chart p) = [25; 50; 75; 100]%Z /\
  Forall (fun v => (0 <=? v) = true /\ (v <=? COP (page_data p)) = true)
         (map snd (page_chart p)) /\
  nth 3 (map snd (page_chart p)) 0 = COP (page_data p).
Proof.
  intros Hrun Hpos.
  assert (E : page_chart p = combine loads (cop_values (COP (page_data p)))).
  { unfold run in Hrun.
    destruct (chiller_performance _ _ _) as [ch | e]; [| discriminate].
    destruct (pump_performance _ _ _ _) as [pu | e]; [| discriminate].
    destruct (cooling_tower _ _ _) as [tw | e]; [| discriminate].
    destruct (calc_iplv _ _) as [ip | e]; [| discriminate].
    destruct (flow_rate _ _) as [fr | e]; [| discriminate].
    cbn [Py.bind] in Hrun. injection Hrun as <-. reflexivity. }
  rewrite E. set (c := COP (page_data p)) in *.
  pose proof (cop_values_nondecreasing c Hpos) as Hch.
  pose proof (cop_values_at_100 c) as H100.
  rewrite cop_values_unfold in *. cbn [loads combine map fst snd nth chain] in *.
  rewrite H100 in Hch.
  apply andb_true_iff in Hch as [L1 Hch]. apply andb_true_iff in Hch as [L2 Hch].
  apply andb_true_iff in Hch as [L3 _].
  destruct (ltb_to_val _ _ Hpos) as (Pc & _ & Nc). change (val 0) with 0%Z in Pc.
  assert (P0 : forall k, is_finite k = true -> (0 < val k)%Z -> (0 <=? c * k) = true).
  { intros k Fk Hk.
    destruct (mul_pos_mono_l k c c Nc Nc Fk Hk ltac:(lia)) as ([M0 _] & Nm & _).
    destruct (mul_val_comm c k) as [Ev En]. apply leb_of_val; trivial.
    - rewrite En. trivial. 
    - rewrite Ev. trivial. }
  split; [reflexivity |]. split; [| exact H100].
  pose proof (leb_trans _ _ _ L2 L3) as L23. pose proof (leb_trans _ _ _ L1 L23) as L13.
  repeat constructor; trivial; try (apply P0; reflexivity).
  rewrite H100. apply leb_of_val; trivial. lia.
Qed.

Lemma chart_below_export_witness :
  exists p, run Py.Sequential (defaults SI) = Ok p /\
    map fst (page_chart p) = [25; 50; 75; 100]%Z /\
    Forall (fun v => (0 <=? v) = true /\ (v <=? COP (page_data p)) = true)
           (map snd (page_chart p)) /\
    nth 3 (map snd (page_chart p)) 0 = COP (page_data p).
Proof.
  eexists. split; [reflexivity |].
  apply (chart_below_export Py.Sequential (defaults SI)); reflexivity.
Defined.

(** *** The report *)






